(** * CompassQL: specification queries and specification-level constraints

    A shallow embedding of [src/query/spec.ts] and [src/constraint/spec.ts]
    together with the properties of the constraint-satisfaction engine that
    the design document states about them.

    Layout: the JavaScript value model, the collaborators that the two
    modules import, the embedded functions, and then the theorems. *)

From Stdlib Require Import ZArith.
From stdpp Require Import base strings list gmap pretty.

Local Open Scope string_scope.
Local Open Scope list_scope.

(* ===================================================================== *)
(** * 1. JavaScript values *)
(* ===================================================================== *)

(** JSON-like values.  An object is the list of its own enumerable
    properties in insertion order, which is the order [for ... in] visits
    them (the property names met here are not array indices, which
    JavaScript would visit first); an object never holds the same key
    twice, and [setProp] keeps it so. *)
#[warnings="-register-all"] Inductive value : Type :=
  | VUndefined
  | VNull
  | VBool (b : bool)
  | VNum (n : Z)
  | VStr (s : string)
  | VArr (elems : list value)
  | VObj (props : list (string * value)).

Definition object : Type := list (string * value).

(** [!!v] *)
Definition truthy (v : value) : bool :=
  match v with
  | VUndefined | VNull => false
  | VBool b => b
  | VNum n => negb (n =? 0)%Z
  | VStr s => negb (String.eqb s "")
  | VArr _ | VObj _ => true
  end.

(** [v === undefined], [v === null], [v === true], [v === false],
    [v === 'lit'].  Every strict comparison of the two modules has a
    primitive literal on one side. *)
Definition isUndefined (v : value) : bool :=
  match v with VUndefined => true | _ => false end.

Definition isNull (v : value) : bool :=
  match v with VNull => true | _ => false end.

Definition eqBool (v : value) (b : bool) : bool :=
  match v with VBool b' => Bool.eqb b' b | _ => false end.

Definition eqStr (v : value) (lit : string) : bool :=
  match v with VStr s => String.eqb s lit | _ => false end.

Definition isArray (v : value) : bool :=
  match v with VArr _ => true | _ => false end.

(** [o.k] on a plain object: the first (only) binding of [k]. *)
Fixpoint field (o : object) (k : string) : value :=
  match o with
  | [] => VUndefined
  | (k', v) :: rest => if String.eqb k k' then v else field rest k
  end.

(** [o[k] = v] on a plain object: overwrite in place, or append. *)
Fixpoint setProp (k : string) (v : value) (o : object) : object :=
  match o with
  | [] => [(k, v)]
  | (k', v') :: rest =>
      if String.eqb k k' then (k, v) :: rest else (k', v') :: setProp k v rest
  end.

(** The index keys ["0"], ["1"], ... of a string or an array of length [n]. *)
Definition indexKeys (n : nat) : list string := (λ i : nat, pretty i) <$> seq 0 n.

(** The position an index key denotes, if it is one below [n]. *)
Definition indexOfKey (k : string) (n : nat) : option nat :=
  fst <$> list_find (λ i : nat, pretty i = k) (seq 0 n).

(** The keys [for (k in v)] enumerates: the own properties of an object,
    the indices of an array or of a string; nothing for the other
    primitives, nor for [null] and [undefined]. *)
Definition ownKeys (v : value) : list string :=
  match v with
  | VObj props => props.*1
  | VArr elems => indexKeys (length elems)
  | VStr s => indexKeys (String.length s)
  | _ => []
  end.

(** [v.hasOwnProperty(k)], for the keys [for ... in] can yield. *)
Definition hasOwnProperty (v : value) (k : string) : bool :=
  bool_decide (k ∈ ownKeys v).

(** [v[k]].  A string answers its characters and an array its elements;
    reading a property of [null] or [undefined] is a TypeError in
    JavaScript: no embedded function reaches that case (each read is
    guarded or made on a key [ownKeys] returned), and it is [undefined]
    here. *)
Definition get (v : value) (k : string) : value :=
  match v with
  | VObj props => field props k
  | VArr elems =>
      match indexOfKey k (length elems) with
      | Some i => default VUndefined (elems !! i)
      | None => if String.eqb k "length" then VNum (Z.of_nat (length elems)) else VUndefined
      end
  | VStr s =>
      match indexOfKey k (String.length s) with
      | Some i =>
          match String.get i s with
          | Some c => VStr (String c EmptyString)
          | None => VUndefined
          end
      | None => if String.eqb k "length" then VNum (Z.of_nat (String.length s)) else VUndefined
      end
  | _ => VUndefined
  end.

(** [contains(arr, item)] of [util], on string literals. *)
Definition contains (arr : list string) (item : string) : bool :=
  existsb (String.eqb item) arr.

(** [contains(arr, v)] where [v] is any value and [arr] holds strings. *)
Definition containsValue (arr : list string) (v : value) : bool :=
  existsb (eqStr v) arr.

(** A [switch] over string [case] labels in which no block ends in
    [break]: control enters at the first label that is [===] to the
    scrutinee and runs that block and every block after it. *)
Fixpoint switchFallthrough {S : Type} (scrutinee : value)
    (cases : list (string * (S → S))) (s : S) : S :=
  match cases with
  | [] => s
  | (label, block) :: rest =>
      if eqStr scrutinee label
      then fold_left (λ acc (c : string * (S → S)), c.2 acc) cases s
      else switchFallthrough scrutinee rest s
  end.

(** A [switch] in which every block ends in [return]: the value of the
    first group of [case] labels that holds the scrutinee, or of the code
    after the [switch] when no label matches. *)
Definition switchReturn {A : Type} (scrutinee : value)
    (cases : list (list string * A)) (otherwise : A) : A :=
  match List.find (λ c : list string * A, containsValue c.1 scrutinee) cases with
  | Some c => c.2
  | None => otherwise
  end.

(** Thrown errors. *)
Inductive result (A : Type) : Type :=
  | Ok (a : A)
  | Throw (msg : string).
Arguments Ok {A} a.
Arguments Throw {A} msg.

(* ===================================================================== *)
(** * 2. Collaborators of the two modules *)
(* ===================================================================== *)

(** ** Channels and marks of Vega-Lite (string enumerations) *)
Module Channel.
Definition X := "x".
Definition Y := "y".
Definition COLOR := "color".
Definition TEXT := "text".
Definition SIZE := "size".
Definition DETAIL := "detail".
End Channel.

Module Mark.
Definition AREA := "area".
Definition BAR := "bar".
Definition LINE := "line".
Definition POINT := "point".
Definition TEXT := "text".
Definition TICK := "tick".
Definition RECT := "rect".
Definition RULE := "rule".
Definition CIRCLE := "circle".
Definition SQUARE := "square".
End Mark.

(** The types of Vega-Lite (a string enumeration, like the channels and
    the marks), and the expanded type of [../query/expandedtype], which is
    not among the sources: [hasAppropriateGraphicTypeForMark] writes it as
    the literal ['key'], next to ['nominal']. *)
Module VlType.
Definition QUANTITATIVE := "quantitative".
Definition TEMPORAL := "temporal".
Definition ORDINAL := "ordinal".
Definition NOMINAL := "nominal".
End VlType.

Module ExpandedType.
Definition KEY := "key".
End ExpandedType.

(** ** [../wildcard] *)

(** Modelled from the spec: [wildcard.ts] is not among the sources.  The
    tests of [hasWildcard] write the wildcard as the string ['?']. *)
Definition SHORT_WILDCARD : string := "?".

(** Modelled from the spec: the value is the short wildcard. *)
Definition isShortWildcard (v : value) : bool := eqStr v SHORT_WILDCARD.

(** Modelled from the spec: a wildcard value is a placeholder carrying a
    logical name and, optionally, an enumeration of candidates, or the
    short wildcard. *)
Definition isWildcard (v : value) : bool :=
  isShortWildcard v
  || (negb (isUndefined v) && negb (isNull v)
      && (truthy (get v "enum") || truthy (get v "name"))
      && negb (isArray v)).

(** ** [../property] *)

(** Modelled from the spec: [property.ts] is not among the sources.  A
    property is flat (a single name) or nested (a parent/child pair); its
    canonical key is the flat name, or ["parent.child"]. *)
Inductive Property : Type :=
  | Flat (name : string)
  | Nested (parent child : string).

(** Modelled from the spec: the canonical key of a property. *)
Definition toKey (p : Property) : string :=
  match p with
  | Flat name => name
  | Nested parent child => parent +:+ "." +:+ child
  end.

(** Modelled from the spec: the property is a parent/child pair. *)
Definition isEncodingNestedProp (p : Property) : bool :=
  match p with Nested _ _ => true | Flat _ => false end.

(** Modelled from the spec: the nested property of a parent and a child. *)
Definition getEncodingNestedProp (parent child : string) : Property :=
  Nested parent child.

(** The flat properties the catalogue names. *)
Module Property.
Definition MARK := Flat "mark".
Definition CHANNEL := Flat "channel".
Definition FIELD := Flat "field".
Definition TYPE := Flat "type".
Definition AGGREGATE := Flat "aggregate".
Definition AUTOCOUNT := Flat "autoCount".
Definition BIN := Flat "bin".
Definition TIMEUNIT := Flat "timeUnit".
Definition SCALE := Flat "scale".
End Property.

(** The table of top-level encoding properties ([isEncodingTopLevelProperty]
    of [property.ts]) is not among the sources; the embedded functions take
    it as a parameter. *)
Class PropertyTable : Type :=
  { isEncodingTopLevelProperty : string → bool }.

(** Modelled from the spec: the properties of an encoding mapping that the
    data model lists (channel, field, type, aggregate, bin, timeUnit,
    scale, axis, legend, sort, stack, autoCount, and a literal value).
    Used where a concrete table is needed to run the functions. *)
Definition ENCODING_TOPLEVEL_PROPS : list string :=
  ["channel"; "aggregate"; "autoCount"; "bin"; "timeUnit"; "sort"; "stack";
   "field"; "type"; "scale"; "axis"; "legend"; "value"].

Definition specPropertyTable : PropertyTable :=
  {| isEncodingTopLevelProperty := contains ENCODING_TOPLEVEL_PROPS |}.

(** Modelled from the spec: the property belongs to an encoding, as a
    top-level property or as a nested one. *)
Definition isEncodingProperty `{table : PropertyTable} (p : Property) : bool :=
  match p with
  | Flat name => isEncodingTopLevelProperty name
  | Nested _ _ => true
  end.

(** ** [./encoding] *)

(** [encoding.ts] is not among the sources; the design document names
    three variants of an encoding mapping: field-backed, auto-count and
    literal-value. *)

(** Modelled from the spec: a literal-value mapping carries a [value]. *)
Definition isValueQuery (encQ : value) : bool :=
  negb (isNull encQ) && negb (isUndefined encQ) && truthy (get encQ "value").

(** Modelled from the spec: a field-backed mapping carries a field name;
    [fromSpec] below completes a field-backed mapping whose aggregate is
    ['count'] and that has no field, so a count aggregate alone makes a
    mapping field-backed too. *)
Definition isFieldQuery (encQ : value) : bool :=
  negb (isNull encQ) && negb (isUndefined encQ)
  && (truthy (get encQ "field") || eqStr (get encQ "aggregate") "count").

(** Modelled from the spec: an auto-count mapping carries the [autoCount]
    key. *)
Definition isAutoCountQuery (encQ : value) : bool :=
  negb (isNull encQ) && negb (isUndefined encQ)
  && bool_decide ("autoCount" ∈ ownKeys encQ).

(** Modelled from the spec: an auto-count mapping explicitly disabled. *)
Definition isDisabledAutoCountQuery (encQ : value) : bool :=
  isAutoCountQuery encQ && eqBool (get encQ "autoCount") false.

(** Modelled from the spec: an enabled auto-count mapping. *)
Definition isEnabledAutoCountQuery (encQ : value) : bool :=
  isAutoCountQuery encQ && eqBool (get encQ "autoCount") true.

(* ===================================================================== *)
(** * 3. [src/query/spec.ts] *)
(* ===================================================================== *)

(** [interface SpecQuery]: [data], [transform] and [config] are optional
    keys ([None] when the key is absent). *)
Record SpecQuery : Type := mkSpecQuery
  { data : option value;
    mark : value;
    transform : option value;
    encodings : list object;
    config : option value }.

Section QuerySpec.
Context `{table : PropertyTable}.

(** One pass of the [for (const prop in channelDef)] loop of [fromSpec]. *)
Definition copyChannelProp (channelDef : value) (encQ : object) (prop : string)
    : object :=
  if isEncodingTopLevelProperty prop && negb (isUndefined (get channelDef prop))
  then
    if contains ["bin"; "scale"; "axis"; "legend"] prop
       && isNull (get channelDef prop)
    then setProp prop (VBool false) encQ
    else setProp prop (get channelDef prop) encQ
  else encQ.

(** The callback [fromSpec] maps over [keys(spec.encoding)]. *)
Definition encodingOfChannel (encoding : value) (channel : string) : object :=
  let encQ : object := [("channel", VStr channel)] in
  let channelDef := get encoding channel in
  let encQ := fold_left (copyChannelProp channelDef) (ownKeys channelDef) encQ in
  if isFieldQuery (VObj encQ)
     && eqStr (field encQ "aggregate") "count"
     && negb (truthy (field encQ "field"))
  then setProp "field" (VStr "*") encQ
  else encQ.

(** [fromSpec(spec)].  [extend] merges the object literals left to right;
    each optional literal holds its key only when the value read from
    [spec] is truthy. *)
Definition fromSpec (spec : object) : SpecQuery :=
  {| data := if truthy (field spec "data") then Some (field spec "data") else None;
     transform :=
       if truthy (field spec "transform") then Some (field spec "transform") else None;
     mark := field spec "mark";
     encodings :=
       encodingOfChannel (field spec "encoding") <$> ownKeys (field spec "encoding");
     config :=
       if truthy (field spec "config") then Some (field spec "config") else None |}.

Definition isAggregate (specQ : SpecQuery) : bool :=
  existsb (λ encQ : object,
    (isFieldQuery (VObj encQ) && negb (isWildcard (field encQ "aggregate"))
       && truthy (field encQ "aggregate"))
    || isEnabledAutoCountQuery (VObj encQ))
    (encodings specQ).

Definition isExplicitStack (specQ : SpecQuery) : bool :=
  existsb (λ encQ : object,
    isFieldQuery (VObj encQ) && negb (isWildcard (field encQ "stack"))
      && truthy (field encQ "stack"))
    (encodings specQ).

(** The four local flags of [isImplicitStack]. *)
Record StackFlags : Type := mkStackFlags
  { xUsed : bool;
    yUsed : bool;
    xOrYAggregateOrAutoCount : bool;
    colorUsed : bool }.

Definition setXUsed (f : StackFlags) : StackFlags :=
  mkStackFlags true (yUsed f) (xOrYAggregateOrAutoCount f) (colorUsed f).
Definition setYUsed (f : StackFlags) : StackFlags :=
  mkStackFlags (xUsed f) true (xOrYAggregateOrAutoCount f) (colorUsed f).
Definition setXOrYAggregateOrAutoCount (f : StackFlags) : StackFlags :=
  mkStackFlags (xUsed f) (yUsed f) true (colorUsed f).
Definition setColorUsed (f : StackFlags) : StackFlags :=
  mkStackFlags (xUsed f) (yUsed f) (xOrYAggregateOrAutoCount f) true.

(** The [switch (encQ.channel)] of [isImplicitStack]: three [case]
    blocks, none of which ends in [break]. *)
Definition channelCases (encQ : object) : list (string * (StackFlags → StackFlags)) :=
  [ (Channel.X, λ f,
       let f := setXUsed f in
       if truthy (field encQ "aggregate") then setXOrYAggregateOrAutoCount f else f);
    (Channel.Y, λ f,
       let f := setYUsed f in
       if truthy (field encQ "aggregate") then setXOrYAggregateOrAutoCount f else f);
    (Channel.COLOR, λ f, setColorUsed f) ].

(** The body of the [for (let encQ of specQ.encodings)] loop. *)
Definition stackStep (f : StackFlags) (encQ : object) : StackFlags :=
  if isFieldQuery (VObj encQ) then
    switchFallthrough (field encQ "channel") (channelCases encQ) f
  else if isAutoCountQuery (VObj encQ)
          && (eqStr (field encQ "channel") Channel.X
              || eqStr (field encQ "channel") Channel.Y)
  then setXOrYAggregateOrAutoCount f
  else f.

Definition isImplicitStack (specQ : SpecQuery) : bool :=
  if isExplicitStack specQ then false
  else
    let f := fold_left stackStep (encodings specQ)
               (mkStackFlags false false false false) in
    xUsed f && yUsed f && xOrYAggregateOrAutoCount f && colorUsed f.

Definition isStack (specQ : SpecQuery) : bool :=
  isExplicitStack specQ || isImplicitStack specQ.

(** [toMap(opt.exclude.map(toKey))] when [opt.exclude] is given, [{}]
    otherwise; [toMap] of datalib binds every listed key to [1]. *)
Definition excludeMap (exclude : option (list Property)) : gmap string Z :=
  match exclude with
  | Some props => list_to_map ((λ p, (toKey p, 1%Z)) <$> props)
  | None => ∅
  end.

(** [!exclude[key]] *)
Definition notExcluded (exclude : gmap string Z) (key : string) : bool :=
  match exclude !! key with
  | Some n => (n =? 0)%Z
  | None => true
  end.

(** The inner [for (const childProp in propObj)] loop of [hasWildcard]:
    [true] when it reaches [return true]. *)
Definition nestedWildcard (exclude : gmap string Z) (parentProp : string)
    (propObj : value) : bool :=
  existsb (λ childProp : string,
    hasOwnProperty propObj childProp
    && negb (contains ["enum"; "name"] childProp)
    && (isWildcard (get propObj childProp)
        && notExcluded exclude (toKey (Nested parentProp childProp))))
    (ownKeys propObj).

(** The [for (const key in encQ)] loop of [hasWildcard]. *)
Definition encodingWildcard (exclude : gmap string Z) (encQ : object) : bool :=
  existsb (λ parentProp : string,
    hasOwnProperty (VObj encQ) parentProp
    && isEncodingTopLevelProperty parentProp
    && ((isWildcard (field encQ parentProp) && notExcluded exclude parentProp)
        || nestedWildcard exclude parentProp (field encQ parentProp)))
    (ownKeys (VObj encQ)).

(** [hasWildcard(specQ, opt)], with [exclude] for [opt.exclude]. *)
Definition hasWildcard (specQ : SpecQuery) (exclude : option (list Property)) : bool :=
  let exclude := excludeMap exclude in
  if isWildcard (mark specQ) && notExcluded exclude "mark" then true
  else existsb (encodingWildcard exclude) (encodings specQ).

End QuerySpec.

(* ===================================================================== *)
(** * 4. [../model], [../propindex], [../config] *)
(* ===================================================================== *)

(** Modelled from the spec: [PropIndex<T>] of [propindex.ts], a dictionary
    keyed by the canonical key of a property. *)
Abbreviation PropIndex T := (gmap string T).

(** Modelled from the spec: [model.ts] is not among the sources.  The
    wildcard index of a model records whether the mark is enumerated and,
    per encoding property, the positions of the encodings in which it is
    enumerated. *)
Record WildcardIndex : Type := mkWildcardIndex
  { markEnumerated : bool;
    encodingIndicesByProperty : PropIndex (list nat) }.

(** Modelled from the spec: a model wraps a specification query with its
    wildcard index. *)
Record SpecQueryModel : Type := mkSpecQueryModel
  { specQuery : SpecQuery;
    wildcardIndex : WildcardIndex }.

(** Modelled from the spec: "is property P enumerated anywhere?". *)
Definition hasProperty (wi : WildcardIndex) (p : Property) : bool :=
  if String.eqb (toKey p) "mark" then markEnumerated wi
  else bool_decide (is_Some (encodingIndicesByProperty wi !! toKey p)).

(** Modelled from the spec: "does encoding i have property P enumerated?". *)
Definition hasEncodingProperty (wi : WildcardIndex) (index : nat) (p : Property)
    : bool :=
  bool_decide (index ∈ default [] (encodingIndicesByProperty wi !! toKey p)).

(** Modelled from the spec: the current mark value, concrete or wildcard. *)
Definition getMark (specM : SpecQueryModel) : value := mark (specQuery specM).

(** Modelled from the spec: the usable encoding mappings, that is, the raw
    list without the auto-count mappings that are explicitly disabled. *)
Definition getEncodings (specM : SpecQueryModel) : list object :=
  filter (λ encQ : object, isDisabledAutoCountQuery (VObj encQ) = false)
    (encodings (specQuery specM)).

(** Modelled from the spec: true iff some usable encoding binds that exact
    channel (a wildcarded channel does not count as used). *)
Definition channelUsed (specM : SpecQueryModel) (channel : string) : bool :=
  existsb (λ encQ : object, eqStr (field encQ "channel") channel)
    (getEncodings specM).

(** Modelled from the spec: the encoding that binds the channel, or
    [undefined] as the sentinel for "not present". *)
Definition getEncodingQueryByChannel (specM : SpecQueryModel) (channel : string)
    : value :=
  match List.find (λ encQ : object, eqStr (field encQ "channel") channel)
          (encodings (specQuery specM)) with
  | Some encQ => VObj encQ
  | None => VUndefined
  end.

(** Modelled from the spec: the encoding at a position of the raw list,
    [undefined] beyond its end. *)
Definition getEncodingQueryByIndex (specM : SpecQueryModel) (index : nat) : value :=
  match encodings (specQuery specM) !! index with
  | Some encQ => VObj encQ
  | None => VUndefined
  end.

(** Modelled from the spec: [specM.isAggregate()], true iff any encoding
    has a concrete non-empty aggregate or is an enabled auto-count, which is
    what [isAggregate] of [src/query/spec.ts] computes. *)
Definition modelIsAggregate (specM : SpecQueryModel) : bool :=
  isAggregate (specQuery specM).

(** [QueryConfig]: the options object, read by key. *)
Abbreviation QueryConfig := (gmap string value).

(** [opt[key]] *)
Definition optGet (opt : QueryConfig) (key : string) : value :=
  default VUndefined (opt !! key).

(** String conversion of a value, as string concatenation performs it. *)
Fixpoint toStr (v : value) : string :=
  match v with
  | VUndefined => "undefined"
  | VNull => "null"
  | VBool b => if b then "true" else "false"
  | VNum n => pretty n
  | VStr s => s
  | VArr elems =>
      String.concat ","
        (map (λ e, match e with VUndefined | VNull => "" | _ => toStr e end) elems)
  | VObj _ => "[object Object]"
  end.

(** ** [JSON.stringify]

    The text that ['...' + JSON.stringify(v)] appends for a value: [null],
    booleans and integers as they print, a string between double quotes
    with the quote, the backslash and the control characters escaped, an
    array between brackets with [null] in the place of an [undefined]
    element, an object between braces with its members in order, a member
    whose value is [undefined] being left out.  [JSON.stringify(undefined)]
    is [undefined], which concatenation prints as such.  Characters are
    the code units below 256, numbers the integers that print without an
    exponent. *)
Module JSON.

Definition dquote : string := String (Ascii.ascii_of_nat 34) "".

Definition hexDigit (n : nat) : string :=
  match String.get n "0123456789abcdef" with
  | Some c => String c ""
  | None => ""
  end.

Definition escapeChar (c : Ascii.ascii) : string :=
  if Ascii.eqb c (Ascii.ascii_of_nat 34) then "\" +:+ dquote
  else if Ascii.eqb c (Ascii.ascii_of_nat 92) then "\\"
  else if Ascii.eqb c (Ascii.ascii_of_nat 8) then "\b"
  else if Ascii.eqb c (Ascii.ascii_of_nat 9) then "\t"
  else if Ascii.eqb c (Ascii.ascii_of_nat 10) then "\n"
  else if Ascii.eqb c (Ascii.ascii_of_nat 12) then "\f"
  else if Ascii.eqb c (Ascii.ascii_of_nat 13) then "\r"
  else if Nat.ltb (Ascii.nat_of_ascii c) 32
  then "\u00" +:+ hexDigit (Ascii.nat_of_ascii c / 16)
              +:+ hexDigit (Ascii.nat_of_ascii c mod 16)
  else String c "".

Fixpoint escape (s : string) : string :=
  match s with
  | EmptyString => ""
  | String c rest => escapeChar c +:+ escape rest
  end.

Definition quote (s : string) : string := dquote +:+ escape s +:+ dquote.

Fixpoint stringify (v : value) : string :=
  match v with
  | VUndefined => "undefined"
  | VNull => "null"
  | VBool b => if b then "true" else "false"
  | VNum n => pretty n
  | VStr s => quote s
  | VArr elems =>
      "[" +:+ String.concat ","
                (map (λ e, match e with VUndefined => "null" | _ => stringify e end)
                   elems)
          +:+ "]"
  | VObj props =>
      "{" +:+ String.concat ","
                ((fix members (l : list (string * value)) : list string :=
                    match l with
                    | [] => []
                    | (k, VUndefined) :: rest => members rest
                    | (k, e) :: rest =>
                        (quote k +:+ ":" +:+ stringify e) :: members rest
                    end) props)
          +:+ "}"
  end.

End JSON.

(* ===================================================================== *)
(** * 5. [src/constraint/spec.ts] *)
(* ===================================================================== *)

(** ** Evaluation with a trace

    [checkSpec] and [SpecConstraintModel.satisfy] may throw, and the
    design document speaks of which predicates get evaluated; a computation
    therefore yields the list of calls it made next to its result. *)
Inductive event : Type :=
  | SatisfyCalled (name : string)     (* [c.satisfy(specM, schema, opt)] *)
  | PredicateCalled (name : string)   (* [this.constraint.satisfy(...)] *)
  | Logged (msg : string).            (* [console.log(msg)] *)

Definition M (A : Type) : Type := list event * result A.

#[global] Instance M_ret : MRet M := λ A a, ([], Ok a).

#[global] Instance M_bind : MBind M := λ A B k m,
  match m with
  | (t, Ok a) => let '(t', r) := k a in ((t ++ t')%list, r)
  | (t, Throw e) => (t, Throw e)
  end.

Definition tell (e : event) : M unit := ([e], Ok tt).

Definition lift {A : Type} (r : result A) : M A := ([], r).

(** [every(arr, f)] of [util] for a callback that may throw: the first
    [false], or the first error, ends the scan. *)
Fixpoint everyR {A : Type} (f : A → result bool) (arr : list A) : result bool :=
  match arr with
  | [] => Ok true
  | a :: rest =>
      match f a with
      | Ok true => everyR f rest
      | Ok false => Ok false
      | Throw e => Throw e
      end
  end.

Section ConstraintSpec.
Context `{table : PropertyTable}.

(** The schema is only handed on to the predicates. *)
Context {Schema : Type}.

(** A predicate yields the truth value of what the JavaScript function
    returns ([checkSpec] only tests [!satisfy]), or throws. *)
Definition SpecConstraintChecker : Type :=
  SpecQueryModel → Schema → QueryConfig → result bool.

(** [interface SpecConstraint] *)
Record SpecConstraint : Type := mkSpecConstraint
  { name : string;
    description : string;
    properties : list Property;
    allowWildcardForProperties : bool;
    strict : bool;
    satisfy : SpecConstraintChecker }.

(** [SpecConstraintModel.hasAllRequiredPropertiesSpecific] *)
Definition propertySpecific (specM : SpecQueryModel) (prop : Property)
    : result bool :=
  match prop with
  | Flat name =>
      if String.eqb name "mark" then Ok (negb (isWildcard (getMark specM)))
      else if negb (isEncodingProperty prop) then Throw "UNIMPLEMENTED"
      else
        Ok (forallb (λ encQ : object,
              if negb (truthy (field encQ name)) then true
              else negb (isWildcard (field encQ name)))
              (getEncodings specM))
  | Nested parent child =>
      Ok (forallb (λ encQ : object,
            if negb (truthy (field encQ parent)) then true
            else negb (isWildcard (get (field encQ parent) child)))
            (getEncodings specM))
  end.

Definition hasAllRequiredPropertiesSpecific (c : SpecConstraint)
    (specM : SpecQueryModel) : result bool :=
  everyR (propertySpecific specM) (properties c).

(** The call [(this.constraint as SpecConstraint).satisfy(specM, schema, opt)]. *)
Definition callPredicate (c : SpecConstraint) (specM : SpecQueryModel)
    (schema : Schema) (opt : QueryConfig) : M bool :=
  tell (PredicateCalled (name c)) ;;
  lift (satisfy c specM schema opt).

(** [SpecConstraintModel.satisfy] *)
Definition satisfyModel (c : SpecConstraint) (specM : SpecQueryModel)
    (schema : Schema) (opt : QueryConfig) : M bool :=
  tell (SatisfyCalled (name c)) ;;
  if negb (allowWildcardForProperties c) then
    specific ← lift (hasAllRequiredPropertiesSpecific c specM) ;
    if negb specific then mret true
    else callPredicate c specM schema opt
  else callPredicate c specM schema opt.

(** Collaborators that are not among the sources and that the design
    document does not define: [isMeasure] and [isDimension] of
    [../query/encoding], [toShorthand] of the model, and the predicates of
    the rules whose bodies are not embedded below (they read
    [supportMark], [scaleType], [stack()] and the like).  The serialiser
    is a parameter too: the rules are stated for any, and run with
    [JSON.stringify]. *)
Context (JSON_stringify : value → string).
Context (isMeasure isDimension : value → bool).
Context (toShorthand : SpecQueryModel → string).
Context (rulePredicate : string → SpecConstraintChecker).

(** The predicate of rule [hasAllRequiredChannelsForMark]. *)
Definition hasAllRequiredChannelsForMark : SpecConstraintChecker :=
  λ specM _ _,
    let mark := getMark specM in
    switchReturn mark
      [ ([Mark.AREA; Mark.LINE],
           Ok (channelUsed specM Channel.X && channelUsed specM Channel.Y));
        ([Mark.TEXT],
           Ok (channelUsed specM Channel.TEXT));
        ([Mark.BAR; Mark.CIRCLE; Mark.SQUARE; Mark.TICK; Mark.RULE; Mark.RECT],
           Ok (channelUsed specM Channel.X || channelUsed specM Channel.Y));
        ([Mark.POINT],
           Ok (negb (hasProperty (wildcardIndex specM) Property.CHANNEL)
               || channelUsed specM Channel.X || channelUsed specM Channel.Y)) ]
      (Throw ("hasAllRequiredChannelsForMark not implemented for mark"
              +:+ JSON_stringify mark)).

(** The predicate of rule [hasAppropriateGraphicTypeForMark]. *)
Definition hasAppropriateGraphicTypeForMark : SpecConstraintChecker :=
  λ specM _ _,
    let mark := getMark specM in
    let xEncQ := getEncodingQueryByChannel specM Channel.X in
    let yEncQ := getEncodingQueryByChannel specM Channel.Y in
    switchReturn mark
      [ ([Mark.AREA; Mark.LINE],
           if modelIsAggregate specM then
             let xIsMeasure := isMeasure xEncQ in
             let yIsMeasure := isMeasure yEncQ in
             Ok (truthy xEncQ && truthy yEncQ
                 && negb (Bool.eqb xIsMeasure yIsMeasure)
                 && negb (isFieldQuery xEncQ && negb xIsMeasure
                          && containsValue ["nominal"; "key"] (get xEncQ "type"))
                 && negb (isFieldQuery yEncQ && negb yIsMeasure
                          && containsValue ["nominal"; "key"] (get yEncQ "type")))
           else Ok true);
        ([Mark.TEXT], Ok true);
        ([Mark.BAR; Mark.TICK],
           if channelUsed specM Channel.SIZE then Ok false
           else
             let xIsMeasure := isMeasure xEncQ in
             let yIsMeasure := isMeasure yEncQ in
             if negb (Bool.eqb xIsMeasure yIsMeasure) then Ok true else Ok false);
        ([Mark.RECT],
           let xIsDimension := isDimension xEncQ in
           let yIsDimension := isDimension yEncQ in
           let colorEncQ := getEncodingQueryByChannel specM Channel.COLOR in
           let colorIsQuantitative := isMeasure colorEncQ in
           let colorIsOrdinal :=
             if isFieldQuery colorEncQ then eqStr (get colorEncQ "type") "ordinal"
             else false in
           let correctChannels :=
             (xIsDimension && yIsDimension)
             || (xIsDimension && negb (channelUsed specM Channel.Y))
             || (yIsDimension && negb (channelUsed specM Channel.X)) in
           let correctColor :=
             negb (truthy colorEncQ)
             || (truthy colorEncQ && (colorIsQuantitative || colorIsOrdinal)) in
           Ok (correctChannels && correctColor));
        ([Mark.CIRCLE; Mark.POINT; Mark.SQUARE; Mark.RULE], Ok true) ]
      (Throw ("hasAllRequiredChannelsForMark not implemented for mark"
              +:+ toStr mark)).

(** [SPEC_CONSTRAINTS], in registration order. *)
Definition SPEC_CONSTRAINTS : list SpecConstraint :=
  [ {| name := "noRepeatedChannel";
       description := "Each encoding channel should only be used once.";
       properties := [Property.CHANNEL];
       allowWildcardForProperties := true;
       strict := true;
       satisfy := rulePredicate "noRepeatedChannel" |};
    {| name := "alwaysIncludeZeroInScaleWithBarMark";
       description := "Do not recommend bar mark if scale does not start at zero";
       properties := [Property.MARK; Property.SCALE; getEncodingNestedProp "scale" "zero";
                      Property.CHANNEL; Property.TYPE];
       allowWildcardForProperties := false;
       strict := true;
       satisfy := rulePredicate "alwaysIncludeZeroInScaleWithBarMark" |};
    {| name := "autoAddCount";
       description := "Automatically adding count only for plots with only ordinal, binned quantitative, or temporal with timeunit fields.";
       properties := [Property.BIN; Property.TIMEUNIT; Property.TYPE; Property.AUTOCOUNT];
       allowWildcardForProperties := true;
       strict := false;
       satisfy := rulePredicate "autoAddCount" |};
    {| name := "channelPermittedByMarkType";
       description := "Each encoding channel should be supported by the mark type";
       properties := [Property.CHANNEL; Property.MARK];
       allowWildcardForProperties := true;
       strict := true;
       satisfy := rulePredicate "channelPermittedByMarkType" |};
    {| name := "hasAllRequiredChannelsForMark";
       description := "All required channels for the specified mark should be specified";
       properties := [Property.CHANNEL; Property.MARK];
       allowWildcardForProperties := false;
       strict := true;
       satisfy := hasAllRequiredChannelsForMark |};
    {| name := "omitAggregate";
       description := "Omit aggregate plots.";
       properties := [Property.AGGREGATE; Property.AUTOCOUNT];
       allowWildcardForProperties := true;
       strict := false;
       satisfy := rulePredicate "omitAggregate" |};
    {| name := "omitAggregatePlotWithDimensionOnlyOnFacet";
       description := "Omit aggregate plots with dimensions only on facets as that leads to inefficient use of space.";
       properties := [Property.CHANNEL; Property.AGGREGATE; Property.AUTOCOUNT];
       allowWildcardForProperties := false;
       strict := false;
       satisfy := rulePredicate "omitAggregatePlotWithDimensionOnlyOnFacet" |};
    {| name := "omitAggregatePlotWithoutDimension";
       description := "Aggregate plots without dimension should be omitted";
       properties := [Property.AGGREGATE; Property.AUTOCOUNT; Property.BIN; Property.TIMEUNIT;
                      Property.TYPE];
       allowWildcardForProperties := false;
       strict := false;
       satisfy := rulePredicate "omitAggregatePlotWithoutDimension" |};
    {| name := "omitBarLineAreaWithOcclusion";
       description := "Don't use bar, line or area to visualize raw plot as they often lead to occlusion.";
       properties := [Property.MARK; Property.AGGREGATE; Property.AUTOCOUNT];
       allowWildcardForProperties := false;
       strict := false;
       satisfy := rulePredicate "omitBarLineAreaWithOcclusion" |};
    {| name := "omitBarTickWithSize";
       description := "Do not map field to size channel with bar and tick mark";
       properties := [Property.CHANNEL; Property.MARK];
       allowWildcardForProperties := true;
       strict := false;
       satisfy := rulePredicate "omitBarTickWithSize" |};
    {| name := "omitBarAreaForLogScale";
       description := "Do not use bar and area mark for x and y's log scale";
       properties := [Property.MARK; Property.CHANNEL; Property.SCALE;
                      getEncodingNestedProp "scale" "type"; Property.TYPE];
       allowWildcardForProperties := false;
       strict := true;
       satisfy := rulePredicate "omitBarAreaForLogScale" |};
    {| name := "omitMultipleNonPositionalChannels";
       description := "Unless manually specified, do not use multiple non-positional encoding channel to avoid over-encoding.";
       properties := [Property.CHANNEL];
       allowWildcardForProperties := true;
       strict := false;
       satisfy := rulePredicate "omitMultipleNonPositionalChannels" |};
    {| name := "omitNonPositionalOrFacetOverPositionalChannels";
       description := "Do not use non-positional channels unless all positional channels are used";
       properties := [Property.CHANNEL];
       allowWildcardForProperties := false;
       strict := false;
       satisfy := rulePredicate "omitNonPositionalOrFacetOverPositionalChannels" |};
    {| name := "omitRaw";
       description := "Omit raw plots.";
       properties := [Property.AGGREGATE; Property.AUTOCOUNT];
       allowWildcardForProperties := false;
       strict := false;
       satisfy := rulePredicate "omitRaw" |};
    {| name := "omitRawContinuousFieldForAggregatePlot";
       description := "Aggregate plot should not use raw continuous field as group by values. (Quantitative should be binned. Temporal should have time unit.)";
       properties := [Property.AGGREGATE; Property.AUTOCOUNT; Property.TIMEUNIT; Property.BIN;
                      Property.TYPE];
       allowWildcardForProperties := true;
       strict := false;
       satisfy := rulePredicate "omitRawContinuousFieldForAggregatePlot" |};
    {| name := "omitRawDetail";
       description := "Do not use detail channel with raw plot.";
       properties := [Property.CHANNEL; Property.AGGREGATE; Property.AUTOCOUNT];
       allowWildcardForProperties := false;
       strict := true;
       satisfy := rulePredicate "omitRawDetail" |};
    {| name := "omitRepeatedField";
       description := "Each field should be mapped to only one channel";
       properties := [Property.FIELD];
       allowWildcardForProperties := true;
       strict := false;
       satisfy := rulePredicate "omitRepeatedField" |};
    {| name := "omitVerticalDotPlot";
       description := "Do not output vertical dot plot.";
       properties := [Property.CHANNEL];
       allowWildcardForProperties := true;
       strict := false;
       satisfy := rulePredicate "omitVerticalDotPlot" |};
    (* EXPENSIVE CONSTRAINTS -- check them later! *)
    {| name := "hasAppropriateGraphicTypeForMark";
       description := "Has appropriate graphic type for mark";
       properties := [Property.CHANNEL; Property.MARK; Property.TYPE; Property.TIMEUNIT;
                      Property.BIN; Property.AGGREGATE; Property.AUTOCOUNT];
       allowWildcardForProperties := false;
       strict := false;
       satisfy := hasAppropriateGraphicTypeForMark |};
    {| name := "omitNonLinearScaleTypeWithStack";
       description := "Stacked plot should only use linear scale";
       properties := [Property.CHANNEL; Property.MARK; Property.AGGREGATE; Property.AUTOCOUNT;
                      Property.SCALE; getEncodingNestedProp "scale" "type"; Property.TYPE];
       allowWildcardForProperties := false;
       strict := true;
       satisfy := rulePredicate "omitNonLinearScaleTypeWithStack" |};
    {| name := "omitNonSumStack";
       description := "Stacked plot should use summative aggregation such as sum, count, or distinct";
       properties := [Property.CHANNEL; Property.MARK; Property.AGGREGATE; Property.AUTOCOUNT];
       allowWildcardForProperties := false;
       strict := false;
       satisfy := rulePredicate "omitNonSumStack" |};
    {| name := "omitTableWithOcclusionIfAutoAddCount";
       description := "Plots without aggregation or autocount where x and y are both discrete should be omitted if autoAddCount is enabled as they often lead to occlusion";
       properties := [Property.CHANNEL; Property.TYPE; Property.TIMEUNIT; Property.BIN;
                      Property.AGGREGATE; Property.AUTOCOUNT];
       allowWildcardForProperties := false;
       strict := false;
       satisfy := rulePredicate "omitTableWithOcclusionIfAutoAddCount" |} ].

(** The body of the [for (const prop of c.properties())] loop that fills
    the index: [index.set(prop, index.get(prop) || [])] and then
    [index.get(prop).push(c)]. *)
Definition indexProperty (c : SpecConstraint)
    (index : PropIndex (list SpecConstraint)) (prop : Property)
    : PropIndex (list SpecConstraint) :=
  let index := <[toKey prop := default [] (index !! toKey prop)]> index in
  <[toKey prop := (default [] (index !! toKey prop) ++ [c])%list]> index.

(** The reducer of [SPEC_CONSTRAINTS.reduce(..., new PropIndex())]. *)
Definition indexConstraint (index : PropIndex (list SpecConstraint))
    (c : SpecConstraint) : PropIndex (list SpecConstraint) :=
  fold_left (indexProperty c) (properties c) index.

Definition buildIndex (catalogue : list SpecConstraint)
    : PropIndex (list SpecConstraint) :=
  fold_left indexConstraint catalogue ∅.

Definition SPEC_CONSTRAINTS_BY_PROPERTY : PropIndex (list SpecConstraint) :=
  buildIndex SPEC_CONSTRAINTS.

(** [index.get(prop) || []] *)
Definition lookupIndex (index : PropIndex (list SpecConstraint)) (prop : Property)
    : list SpecConstraint :=
  default [] (index !! toKey prop).

(** The [for (const c of specConstraints)] loop of [checkSpec]. *)
Fixpoint checkConstraints (specConstraints : list SpecConstraint)
    (wildcard : object) (specM : SpecQueryModel) (schema : Schema)
    (opt : QueryConfig) : M (option string) :=
  match specConstraints with
  | [] => mret None
  | c :: rest =>
      if strict c || truthy (optGet opt (name c)) then
        sat ← satisfyModel c specM schema opt ;
        if negb sat then
          let violatedConstraint := "(spec) " +:+ name c in
          (if truthy (optGet opt "verbose")
           then tell (Logged (violatedConstraint +:+ " failed with "
                              +:+ toShorthand specM +:+ " for "
                              +:+ toStr (field wildcard "name")))
           else mret tt) ;;
          mret (Some violatedConstraint)
        else checkConstraints rest wildcard specM schema opt
      else checkConstraints rest wildcard specM schema opt
  end.

(** [checkSpec] over a given property index; [None] is [null]. *)
Definition checkSpecWith (index : PropIndex (list SpecConstraint))
    (prop : Property) (wildcard : object) (specM : SpecQueryModel)
    (schema : Schema) (opt : QueryConfig) : M (option string) :=
  let specConstraints := lookupIndex index prop in
  checkConstraints specConstraints wildcard specM schema opt.

(** [checkSpec(prop, wildcard, specM, schema, opt)] *)
Definition checkSpec : Property → object → SpecQueryModel → Schema →
    QueryConfig → M (option string) :=
  checkSpecWith SPEC_CONSTRAINTS_BY_PROPERTY.

End ConstraintSpec.

(** ** The predicates of further rules of [SPEC_CONSTRAINTS] *)

(** [for (let i = 0; i < arr.length; i++) { ... }] over a loop body that
    updates local variables: [forIndexed body i arr s] runs the body on the
    elements of [arr], the first of which has index [i]. *)
Fixpoint forIndexed {S A : Type} (body : nat → A → S → S) (i : nat)
    (arr : list A) (s : S) : S :=
  match arr with
  | [] => s
  | a :: rest => forIndexed body (i + 1) rest (body i a s)
  end.

(** [every(arr, f)] of [util] for a callback that reads the index. *)
Fixpoint everyIndexed {A : Type} (f : A → nat → bool) (i : nat) (arr : list A)
    : bool :=
  match arr with
  | [] => true
  | a :: rest => if f a i then everyIndexed f (i + 1) rest else false
  end.

(** The names every object inherits from [Object.prototype] in Node.js;
    each of them reads as a truthy value on an object created as [{}]. *)
Definition OBJECT_PROTOTYPE_NAMES : list string :=
  [ "constructor"; "hasOwnProperty"; "isPrototypeOf"; "propertyIsEnumerable";
    "toLocaleString"; "toString"; "valueOf"; "__proto__"; "__defineGetter__";
    "__defineSetter__"; "__lookupGetter__"; "__lookupSetter__" ].

Section RulePredicates.
Context `{table : PropertyTable} {Schema : Type}.

(** [usedChannel], [fieldUsed] and [fieldEnumerated] are created as [{}]
    and only ever assigned [true] under a key: such a dictionary is the
    set of the keys assigned so far.  Reading [d[key]] is truthy for an
    assigned key, and also for a name the object inherits from
    [Object.prototype], which belongs to the JavaScript runtime and is a
    parameter here ([OBJECT_PROTOTYPE_NAMES] lists the names of Node.js). *)
Context (inheritedName : string → bool).

Definition dictRead (d : gset string) (key : string) : bool :=
  bool_decide (key ∈ d) || inheritedName key.

(** The [every] loop of rule [noRepeatedChannel], [usedChannel] being the
    dictionary of the channels met so far.  A property key is the string
    conversion of the value used as a key. *)
Fixpoint noRepeatedChannelFrom (usedChannel : gset string)
    (encodings : list object) : bool :=
  match encodings with
  | [] => true
  | encQ :: rest =>
      if negb (isWildcard (field encQ "channel")) then
        if dictRead usedChannel (toStr (field encQ "channel")) then false
        else
          noRepeatedChannelFrom ({[toStr (field encQ "channel")]} ∪ usedChannel) rest
      else noRepeatedChannelFrom usedChannel rest
  end.

(** The predicate of rule [noRepeatedChannel]. *)
Definition noRepeatedChannel : SpecConstraintChecker (Schema := Schema) :=
  λ specM _ _, Ok (noRepeatedChannelFrom ∅ (getEncodings specM)).

(** The predicate of rule [alwaysIncludeZeroInScaleWithBarMark]. *)
Definition alwaysIncludeZeroInScaleWithBarMark
    : SpecConstraintChecker (Schema := Schema) :=
  λ specM _ _,
    let mark := getMark specM in
    let encodings := getEncodings specM in
    if eqStr mark Mark.BAR
       && existsb (λ encQ : object,
            isFieldQuery (VObj encQ)
            && (eqStr (field encQ "channel") Channel.X
                || eqStr (field encQ "channel") Channel.Y)
            && eqStr (field encQ "type") VlType.QUANTITATIVE
            && (truthy (field encQ "scale")
                && eqBool (get (field encQ "scale") "zero") false))
            encodings
    then Ok false
    else Ok true.

(** The callback of the [every] of rule [autoAddCount]. *)
Definition autoCountCompatible (encQ : object) : result bool :=
  if isValueQuery (VObj encQ) then Ok false
  else if isAutoCountQuery (VObj encQ) then Ok true
  else
    switchReturn (field encQ "type")
      [ ([VlType.QUANTITATIVE], Ok (truthy (field encQ "bin")));
        ([VlType.TEMPORAL], Ok (truthy (field encQ "timeUnit")));
        ([VlType.ORDINAL; ExpandedType.KEY; VlType.NOMINAL], Ok true) ]
      (Throw "Unsupported Type").

(** The callback of the [some] of rule [autoAddCount]. *)
Definition mayNeedCount (encQ : object) : bool :=
  if (isFieldQuery (VObj encQ) || isAutoCountQuery (VObj encQ))
     && eqStr (field encQ "type") VlType.QUANTITATIVE
  then
    if isDisabledAutoCountQuery (VObj encQ) then false
    else isFieldQuery (VObj encQ)
         && (negb (truthy (field encQ "bin")) || isWildcard (field encQ "bin"))
  else if isFieldQuery (VObj encQ) && eqStr (field encQ "type") VlType.TEMPORAL
  then negb (truthy (field encQ "timeUnit")) || isWildcard (field encQ "timeUnit")
  else false.

(** The predicate of rule [autoAddCount]. *)
Definition autoAddCount : SpecConstraintChecker (Schema := Schema) :=
  λ specM _ _,
    let hasAutoCount :=
      existsb (λ encQ : object, isEnabledAutoCountQuery (VObj encQ))
        (getEncodings specM) in
    if hasAutoCount then everyR autoCountCompatible (getEncodings specM)
    else
      let autoCountEncIndex :=
        default [] (encodingIndicesByProperty (wildcardIndex specM) !! "autoCount") in
      let neverHaveAutoCount :=
        forallb (λ index : nat,
          let encQ := getEncodingQueryByIndex specM index in
          isAutoCountQuery encQ && negb (isWildcard (get encQ "autoCount")))
          autoCountEncIndex in
      if neverHaveAutoCount then Ok (existsb mayNeedCount (getEncodings specM))
      else Ok true.

(** The predicate of rule [omitAggregate]. *)
Definition omitAggregate : SpecConstraintChecker (Schema := Schema) :=
  λ specM _ _, if modelIsAggregate specM then Ok false else Ok true.

(** The predicate of rule [omitBarLineAreaWithOcclusion]. *)
Definition omitBarLineAreaWithOcclusion : SpecConstraintChecker (Schema := Schema) :=
  λ specM _ _,
    if containsValue [Mark.BAR; Mark.LINE; Mark.AREA] (getMark specM)
    then Ok (modelIsAggregate specM)
    else Ok true.

(** The predicate of rule [omitBarTickWithSize]. *)
Definition omitBarTickWithSize : SpecConstraintChecker (Schema := Schema) :=
  λ specM _ opt,
    let mark := getMark specM in
    if containsValue [Mark.TICK; Mark.BAR] mark then
      if channelUsed specM Channel.SIZE then
        if truthy (optGet opt "constraintManuallySpecifiedValue") then Ok false
        else
          let encodings := encodings (specQuery specM) in
          match list_find (λ encQ : object,
                  eqStr (field encQ "channel") Channel.SIZE = true) encodings with
          | Some (i, _) =>
              if hasEncodingProperty (wildcardIndex specM) i Property.CHANNEL
              then Ok false
              else Ok true
          | None => Ok true
          end
      else Ok true
    else Ok true.

(** The four local flags of rule
    [omitNonPositionalOrFacetOverPositionalChannels]. *)
Record PositionalFlags : Type := mkPositionalFlags
  { hasNonPositionalChannelOrFacet : bool;
    hasEnumeratedNonPositionOrFacetChannel : bool;
    hasX : bool;
    hasY : bool }.

(** The body of its [for] loop. *)
Definition positionalStep (specM : SpecQueryModel) (i : nat) (encQ : object)
    (f : PositionalFlags) : PositionalFlags :=
  if isValueQuery (VObj encQ) || isDisabledAutoCountQuery (VObj encQ) then f
  else
    let channel := field encQ "channel" in
    if eqStr channel Channel.X then
      mkPositionalFlags (hasNonPositionalChannelOrFacet f)
        (hasEnumeratedNonPositionOrFacetChannel f) true (hasY f)
    else if eqStr channel Channel.Y then
      mkPositionalFlags (hasNonPositionalChannelOrFacet f)
        (hasEnumeratedNonPositionOrFacetChannel f) (hasX f) true
    else if negb (isWildcard channel) then
      mkPositionalFlags true
        (if hasEncodingProperty (wildcardIndex specM) i Property.CHANNEL then true
         else hasEnumeratedNonPositionOrFacetChannel f)
        (hasX f) (hasY f)
    else f.

(** The predicate of rule [omitNonPositionalOrFacetOverPositionalChannels]. *)
Definition omitNonPositionalOrFacetOverPositionalChannels
    : SpecConstraintChecker (Schema := Schema) :=
  λ specM _ opt,
    let encodings := encodings (specQuery specM) in
    let f := forIndexed (positionalStep specM) 0 encodings
               (mkPositionalFlags false false false false) in
    if hasEnumeratedNonPositionOrFacetChannel f
       || (truthy (optGet opt "constraintManuallySpecifiedValue")
           && hasNonPositionalChannelOrFacet f)
    then Ok (hasX f && hasY f)
    else Ok true.

(** The predicate of rule [omitRaw]. *)
Definition omitRaw : SpecConstraintChecker (Schema := Schema) :=
  λ specM _ _, if negb (modelIsAggregate specM) then Ok false else Ok true.

(** The predicate of rule [omitRawDetail]. *)
Definition omitRawDetail : SpecConstraintChecker (Schema := Schema) :=
  λ specM _ opt,
    if modelIsAggregate specM then Ok true
    else
      Ok (everyIndexed (λ (encQ : object) (index : nat),
            if isValueQuery (VObj encQ) || isDisabledAutoCountQuery (VObj encQ)
            then true
            else if eqStr (field encQ "channel") Channel.DETAIL
                    && (hasEncodingProperty (wildcardIndex specM) index
                          Property.CHANNEL
                        || truthy (optGet opt "constraintManuallySpecifiedValue"))
            then false
            else true)
            0 (encodings (specQuery specM))).

(** The [for] loop of rule [omitRepeatedField], from position [i] on,
    with the two dictionaries as they are when the loop gets there. *)
Fixpoint omitRepeatedFieldFrom (specM : SpecQueryModel) (opt : QueryConfig)
    (i : nat) (encodings : list object) (fieldUsed fieldEnumerated : gset string)
    : bool :=
  match encodings with
  | [] => true
  | encQ :: rest =>
      if isValueQuery (VObj encQ) || isAutoCountQuery (VObj encQ) then
        omitRepeatedFieldFrom specM opt (i + 1) rest fieldUsed fieldEnumerated
      else
        let fieldName :=
          if truthy (field encQ "field") && negb (isWildcard (field encQ "field"))
          then field encQ "field" else VUndefined in
        let fieldName :=
          if isAutoCountQuery (VObj encQ)
             && negb (isWildcard (field encQ "autoCount"))
          then VStr "count_*" else fieldName in
        if truthy fieldName then
          let fieldEnumerated :=
            if hasEncodingProperty (wildcardIndex specM) i Property.FIELD
            then {[toStr fieldName]} ∪ fieldEnumerated else fieldEnumerated in
          if dictRead fieldUsed (toStr fieldName)
             && (dictRead fieldEnumerated (toStr fieldName)
                 || truthy (optGet opt "constraintManuallySpecifiedValue"))
          then false
          else
            omitRepeatedFieldFrom specM opt (i + 1) rest
              ({[toStr fieldName]} ∪ fieldUsed) fieldEnumerated
        else
          omitRepeatedFieldFrom specM opt (i + 1) rest fieldUsed fieldEnumerated
  end.

(** The predicate of rule [omitRepeatedField]. *)
Definition omitRepeatedField : SpecConstraintChecker (Schema := Schema) :=
  λ specM _ opt,
    Ok (omitRepeatedFieldFrom specM opt 0 (encodings (specQuery specM)) ∅ ∅).

(** The predicates embedded above, by the name of their rule; [others]
    answers for the rules whose predicate is not embedded. *)
Definition EMBEDDED_RULES : list (string * SpecConstraintChecker (Schema := Schema)) :=
  [ ("noRepeatedChannel", noRepeatedChannel);
    ("alwaysIncludeZeroInScaleWithBarMark", alwaysIncludeZeroInScaleWithBarMark);
    ("autoAddCount", autoAddCount);
    ("omitAggregate", omitAggregate);
    ("omitBarLineAreaWithOcclusion", omitBarLineAreaWithOcclusion);
    ("omitBarTickWithSize", omitBarTickWithSize);
    ("omitNonPositionalOrFacetOverPositionalChannels",
       omitNonPositionalOrFacetOverPositionalChannels);
    ("omitRaw", omitRaw);
    ("omitRawDetail", omitRawDetail);
    ("omitRepeatedField", omitRepeatedField) ].

Definition rulePredicates (others : string → SpecConstraintChecker (Schema := Schema))
    (ruleName : string) : SpecConstraintChecker (Schema := Schema) :=
  match List.find (λ r : string * SpecConstraintChecker, String.eqb ruleName r.1)
          EMBEDDED_RULES with
  | Some r => r.2
  | None => others ruleName
  end.

(** The reducer of [SPEC_CONSTRAINT_INDEX]: [m[c.name()] = c]. *)
Definition indexByName (catalogue : list (SpecConstraint (Schema := Schema)))
    : gmap string (SpecConstraint (Schema := Schema)) :=
  fold_left (λ m c, <[name c := c]> m) catalogue ∅.

End RulePredicates.

(** [SPEC_CONSTRAINT_INDEX] *)
Definition SPEC_CONSTRAINT_INDEX {Schema : Type} (JSON_stringify : value → string)
    (isMeasure isDimension : value → bool)
    (rulePredicate : string → SpecConstraintChecker (Schema := Schema))
    : gmap string (SpecConstraint (Schema := Schema)) :=
  indexByName (SPEC_CONSTRAINTS JSON_stringify isMeasure isDimension rulePredicate).

(* ===================================================================== *)
(** * 6. Concrete inputs *)
(* ===================================================================== *)

(** [{x: sum(Q), y: N, color: N1}] as an encodings list. *)
Definition stackEncodings : list object :=
  [ [("channel", VStr "x"); ("aggregate", VStr "sum"); ("field", VStr "Q");
     ("type", VStr "quantitative")];
    [("channel", VStr "y"); ("field", VStr "N"); ("type", VStr "nominal")];
    [("channel", VStr "color"); ("field", VStr "N1"); ("type", VStr "nominal")] ].

Definition stackQuery (m : string) : SpecQuery :=
  mkSpecQuery None (VStr m) None stackEncodings None.

(** A bar chart whose only encoding is [x: sum(Q)]. *)
Definition xOnlyQuery : SpecQuery :=
  mkSpecQuery None (VStr "bar") None
    [ [("channel", VStr "x"); ("aggregate", VStr "sum"); ("field", VStr "Q");
       ("type", VStr "quantitative")] ]
    None.

(** The external document [{mark: 'point', encoding: {}, config: null}]. *)
Definition nullConfigSpec : object :=
  [("mark", VStr "point"); ("encoding", VObj []); ("config", VNull)].

(** The document of the first [fromSpec] test. *)
Definition pointSpec : object :=
  [ ("data", VObj [("values", VArr [VObj [("x", VNum 1)]; VObj [("x", VNum 2)]])]);
    ("transform", VArr [VObj [("filter", VStr "datum.x ===2")]]);
    ("mark", VStr "point");
    ("encoding",
      VObj [ ("x", VObj [("field", VStr "x"); ("type", VStr "quantitative");
                         ("axis", VObj [("orient", VStr "top"); ("tickCount", VNum 5)])]);
             ("y", VObj [("field", VStr "x"); ("type", VStr "quantitative");
                         ("scale", VNull)]);
             ("color", VObj [("field", VStr "n"); ("type", VStr "nominal")]) ]);
    ("config", VObj []) ].

(** A wildcard object for the channel, and a query that holds it. *)
Definition channelWildcard : object :=
  [("name", VStr "c"); ("enum", VArr [VStr "x"; VStr "y"])].

Definition channelWildcardQuery : SpecQuery :=
  mkSpecQuery None (VStr "point") None
    [ [("channel", VObj channelWildcard); ("field", VStr "a");
       ("type", VStr "quantitative")] ]
    None.

(** The query of the test of a wildcard top-level property,
    [{mark: 'point', encodings: [{channel: '?', field: 'x', type:
    'quantitative'}]}], and the same query with the concrete channel
    ['x']. *)
Definition channelQuery (channel : string) : SpecQuery :=
  mkSpecQuery None (VStr "point") None
    [ [("channel", VStr channel); ("field", VStr "x");
       ("type", VStr "quantitative")] ]
    None.

Definition shortWildcardQuery : SpecQuery := channelQuery "?".

(** The catalogue with every predicate that is not embedded answering
    [true], no field a measure or a dimension, and a unit schema. *)
Definition demoCatalogue : list (SpecConstraint (Schema := unit)) :=
  SPEC_CONSTRAINTS JSON.stringify (λ _, false) (λ _, false) (λ _ _ _ _, Ok true).

Definition demoIndex : PropIndex (list (SpecConstraint (Schema := unit))) :=
  SPEC_CONSTRAINTS_BY_PROPERTY JSON.stringify (λ _, false) (λ _, false)
    (λ _ _ _ _, Ok true).

(** The index as [checkSpec] builds it from that catalogue. *)
Abbreviation catalogueIndex :=
  (SPEC_CONSTRAINTS_BY_PROPERTY (Schema := unit)
     JSON.stringify (λ _, false) (λ _, false) (λ _ _ _ _, Ok true)).

Definition demoShorthand (specM : SpecQueryModel) : string := "".

(** The rule [hasAllRequiredChannelsForMark] of that catalogue. *)
Definition requiredChannelsRule : SpecConstraint (Schema := unit) :=
  {| name := "hasAllRequiredChannelsForMark";
     description := "All required channels for the specified mark should be specified";
     properties := [Property.CHANNEL; Property.MARK];
     allowWildcardForProperties := false;
     strict := true;
     satisfy := hasAllRequiredChannelsForMark JSON.stringify |}.

(** A model over a query, nothing being enumerated. *)
Definition modelOf (q : SpecQuery) : SpecQueryModel :=
  mkSpecQueryModel q (mkWildcardIndex false ∅).

(** A wildcard mark; a bar chart without encodings; a text mark with and
    without a [text] channel; a mark no rule knows. *)
Definition wildcardMarkModel : SpecQueryModel :=
  modelOf (mkSpecQuery None (VStr "?") None [] None).

Definition emptyBarModel : SpecQueryModel :=
  modelOf (mkSpecQuery None (VStr "bar") None [] None).

(** A bar chart whose only encoding is an auto-count that is explicitly
    disabled and whose channel is the short wildcard:
    [{mark: 'bar', encodings: [{channel: '?', autoCount: false}]}]. *)
Definition disabledCountModel : SpecQueryModel :=
  modelOf (mkSpecQuery None (VStr "bar") None
    [ [("channel", VStr "?"); ("autoCount", VBool false)] ] None).

(** A text chart that binds the [text] channel. *)
Definition boundTextModel : SpecQueryModel :=
  modelOf (mkSpecQuery None (VStr "text") None
    [ [("channel", VStr "text"); ("field", VStr "a")] ] None).

Definition textModel (encs : list object) : SpecQueryModel :=
  modelOf (mkSpecQuery None (VStr "text") None encs None).

Definition geoshapeModel : SpecQueryModel :=
  modelOf (mkSpecQuery None (VStr "geoshape") None [] None).

(** Options that enable the rule [hasAppropriateGraphicTypeForMark]. *)
Definition graphicTypeEnabled : QueryConfig :=
  {[ "hasAppropriateGraphicTypeForMark" := VBool true ]}.

(** [q] with another mark. *)
Definition withMark (q : SpecQuery) (m : value) : SpecQuery :=
  mkSpecQuery (data q) m (transform q) (encodings q) (config q).

(** Some encoding of the query, field-backed or not, binds the channel. *)
Definition bindsChannel (q : SpecQuery) (channel : string) : bool :=
  existsb (λ encQ : object, eqStr (field encQ "channel") channel) (encodings q).


(* ===================================================================== *)
(** * 7. Vocabulary of the properties *)
(* ===================================================================== *)

Section QueryVocabulary.
Context `{table : PropertyTable}.

(** The key is listed (through [toKey]) in the exclusion list. *)
Definition excludedKey (exclude : option (list Property)) (key : string) : Prop :=
  match exclude with
  | Some props => key ∈ toKey <$> props
  | None => False
  end.

(** An object with the two children removed that [hasWildcard] skips. *)
Definition withoutEnumName (props : object) : object :=
  List.filter (λ kv : string * value, negb (contains ["enum"; "name"] kv.1)) props.

(** What [fromSpec] stores for a copied property: [false] for a [null]
    [bin], [scale], [axis] or [legend], the value itself otherwise. *)
Definition normalized (prop : string) (v : value) : value :=
  if contains ["bin"; "scale"; "axis"; "legend"] prop && isNull v
  then VBool false else v.

(** The copy loop of [fromSpec] takes the property over: it is an own key
    of the channel definition, a top-level encoding property, and its
    value is not [undefined]. *)
Definition copies (channelDef : value) (prop : string) : bool :=
  bool_decide (prop ∈ ownKeys channelDef)
  && isEncodingTopLevelProperty prop
  && negb (isUndefined (get channelDef prop)).

(** The encoding as the copy loop leaves it, before the count default. *)
Definition copied (encoding : value) (channel : string) : object :=
  fold_left (copyChannelProp (get encoding channel))
    (ownKeys (get encoding channel)) [("channel", VStr channel)].

(** The count default applies: aggregate ['count'] and no field. *)
Definition countWithoutField (encQ : object) : bool :=
  eqStr (field encQ "aggregate") "count" && negb (truthy (field encQ "field")).

(** The value the copy loop stores under a key, [undefined] when it does
    not take the key over. *)
Definition copiedValue (channelDef : value) (prop : string) : value :=
  if copies channelDef prop then normalized prop (get channelDef prop)
  else VUndefined.

(** The count default applies to a channel definition: the aggregate it
    hands over is ['count'] and it hands over no (truthy) field. *)
Definition countDefault (channelDef : value) : bool :=
  eqStr (copiedValue channelDef "aggregate") "count"
  && negb (truthy (copiedValue channelDef "field")).

End QueryVocabulary.

Section EngineVocabulary.
Context `{table : PropertyTable} {Schema : Type}.
Context (toShorthand : SpecQueryModel → string).

Implicit Types (c : SpecConstraint (Schema := Schema)).
Implicit Types (specM : SpecQueryModel) (schema : Schema) (opt : QueryConfig).

(** The property is the mark, an encoding property, or nested: the three
    kinds [hasAllRequiredPropertiesSpecific] handles. *)
Definition supportedProperty (p : Property) : bool :=
  match p with
  | Flat name => String.eqb name "mark" || isEncodingTopLevelProperty name
  | Nested _ _ => true
  end.

(** The property is currently a wildcard somewhere it applies: the mark,
    for the mark property; for an encoding property, some usable encoding
    that holds a wildcard under it; for a nested property, some usable
    encoding whose parent object exists and holds a wildcard child. *)
Definition wildcardedIn specM (p : Property) : Prop :=
  match p with
  | Flat name =>
      if String.eqb name "mark" then isWildcard (getMark specM) = true
      else ∃ encQ : object,
             encQ ∈ getEncodings specM ∧ isWildcard (field encQ name) = true
  | Nested parent child =>
      ∃ encQ : object,
        encQ ∈ getEncodings specM
        ∧ truthy (field encQ parent) = true
        ∧ isWildcard (get (field encQ parent) child) = true
  end.

(** The rule is active: strict, or enabled under its own name. *)
Definition active opt c : bool := strict c || truthy (optGet opt (name c)).

(** The loop of [checkSpec] goes past the rule: it is not active, or its
    [satisfy] method answers a truthy value. *)
Definition passes c specM schema opt : Prop :=
  active opt c = true → (satisfyModel c specM schema opt).2 = Ok true.

(** The calls the loop makes on a run of rules it goes past. *)
Definition passTrace (pre : list SpecConstraint) specM schema opt : list event :=
  flat_map (λ c, if active opt c then (satisfyModel c specM schema opt).1 else [])
    pre.

(** What [checkSpec] logs for a violated rule. *)
Definition verboseLog c (wildcard : object) specM opt : list event :=
  if truthy (optGet opt "verbose")
  then [Logged (("(spec) " +:+ name c) +:+ " failed with " +:+ toShorthand specM
                +:+ " for " +:+ toStr (field wildcard "name"))]
  else [].

(** The rule an event is a call of. *)
Definition calledRule (e : event) : option string :=
  match e with
  | SatisfyCalled n | PredicateCalled n => Some n
  | Logged _ => None
  end.

(** The names of the rules registered after the comment
    [EXPENSIVE CONSTRAINTS -- check them later!]. *)
Definition EXPENSIVE_TIER : list string :=
  [ "hasAppropriateGraphicTypeForMark"; "omitNonLinearScaleTypeWithStack";
    "omitNonSumStack"; "omitTableWithOcclusionIfAutoAddCount" ].

(** The rule declares a property with this canonical key. *)
Definition declares (key : string) c : Prop := key ∈ toKey <$> properties c.

#[global] Instance declares_dec (key : string) c : Decision (declares key c).
Proof. unfold declares. apply _. Defined.

End EngineVocabulary.

(* ===================================================================== *)
(** * 7a. Vocabulary and inputs of the further properties *)
(* ===================================================================== *)

(** The encoding is field-backed and binds exactly this channel. *)
Definition bindsField (channel : string) (encQ : object) : bool :=
  isFieldQuery (VObj encQ) && eqStr (field encQ "channel") channel.

(** The encoding binds [x] or [y] and is an aggregate there: field-backed
    with a truthy [aggregate], or not field-backed and an auto-count. *)
Definition aggregatesPosition (encQ : object) : bool :=
  (eqStr (field encQ "channel") Channel.X || eqStr (field encQ "channel") Channel.Y)
  && (if isFieldQuery (VObj encQ) then truthy (field encQ "aggregate")
      else isAutoCountQuery (VObj encQ)).

(** The value is a wildcard, or one of its children other than [enum] and
    [name] is: what the two loops of [hasWildcard] look for under a
    property. *)
Definition holdsWildcard (v : value) : Prop :=
  isWildcard v = true
  ∨ ∃ childProp : string,
      childProp ∈ ownKeys v ∧ childProp ≠ "enum" ∧ childProp ≠ "name"
      ∧ isWildcard (get v childProp) = true.

(** [{x: sum(Q), y: N, color: N1}] with the encodings in another order. *)
Definition stackEncodingsReordered : list object :=
  [ [("channel", VStr "color"); ("field", VStr "N1"); ("type", VStr "nominal")];
    [("channel", VStr "x"); ("aggregate", VStr "sum"); ("field", VStr "Q");
     ("type", VStr "quantitative")];
    [("channel", VStr "y"); ("field", VStr "N"); ("type", VStr "nominal")] ].

(** A document whose [x] channel holds a wildcard field. *)
Definition wildcardFieldSpec : object :=
  [ ("mark", VStr "point");
    ("encoding",
      VObj [ ("x", VObj [("field", VStr "?"); ("type", VStr "quantitative")]) ]) ].

Section FurtherEngineVocabulary.
Context `{table : PropertyTable}.

(** The property is one that [hasWildcard] scans: the mark, a top-level
    encoding property, or a child other than [enum] and [name] of a
    top-level encoding property. *)
Definition scannedProperty (p : Property) : bool :=
  match p with
  | Flat name => String.eqb name "mark" || isEncodingTopLevelProperty name
  | Nested parent child =>
      isEncodingTopLevelProperty parent && negb (contains ["enum"; "name"] child)
  end.

End FurtherEngineVocabulary.

(** What [checkSpec] logs when it reports the violation [s]. *)
Definition violationLog (toShorthand : SpecQueryModel → string) (s : string)
    (wildcard : object) (specM : SpecQueryModel) : event :=
  Logged (s +:+ " failed with " +:+ toShorthand specM +:+ " for "
          +:+ toStr (field wildcard "name")).

(** The event is a [console.log]. *)
Definition isLog (e : event) : bool :=
  match e with Logged _ => true | _ => false end.

(** A rule that declares a property of the query itself, which
    [hasAllRequiredPropertiesSpecific] does not handle. *)
Definition transformRule (allow : bool) : SpecConstraint (Schema := unit) :=
  {| name := "usesTransform";
     description := "";
     properties := [Property.MARK; Flat "transform"];
     allowWildcardForProperties := allow;
     strict := true;
     satisfy := λ _ _ _, Ok true |}.

(** A rule whose predicate throws. *)
Definition throwingRule : SpecConstraint (Schema := unit) :=
  {| name := "throws";
     description := "";
     properties := [Property.MARK];
     allowWildcardForProperties := true;
     strict := true;
     satisfy := λ _ _ _, Throw "boom" |}.

(** Options that ask for logging. *)
Definition verboseOptions : QueryConfig := {[ "verbose" := VBool true ]}.

(** The marks for which the two [switch] statements have a [case]. *)
Definition KNOWN_MARKS : list string :=
  [ Mark.AREA; Mark.LINE; Mark.TEXT; Mark.BAR; Mark.CIRCLE; Mark.SQUARE;
    Mark.TICK; Mark.RULE; Mark.RECT; Mark.POINT ].

(** The dictionary keys under which rule [noRepeatedChannel] records the
    channels of a model: the string conversions of the channels of the
    usable encodings, those whose channel is a wildcard left out. *)
Definition channelKeysOf (encodings : list object) : list string :=
  (λ encQ : object, toStr (field encQ "channel"))
    <$> filter (λ encQ : object, isWildcard (field encQ "channel") = false) encodings.

Definition channelKeys (specM : SpecQueryModel) : list string :=
  channelKeysOf (getEncodings specM).

(** [Object.prototype] as Node.js has it. *)
Definition nodeInherited (key : string) : bool := contains OBJECT_PROTOTYPE_NAMES key.

(** A bar chart that binds [x] twice. *)
Definition repeatedXModel : SpecQueryModel :=
  modelOf (mkSpecQuery None (VStr "bar") None
    [ [("channel", VStr "x"); ("field", VStr "a"); ("type", VStr "quantitative")];
      [("channel", VStr "x"); ("field", VStr "b"); ("type", VStr "nominal")] ]
    None).

(** An encoding that rule [alwaysIncludeZeroInScaleWithBarMark] objects to
    on a bar chart: field-backed, on [x] or [y], quantitative, with a scale
    whose [zero] is [false]. *)
Definition zeroExcluded (encQ : object) : bool :=
  isFieldQuery (VObj encQ)
  && (eqStr (field encQ "channel") Channel.X || eqStr (field encQ "channel") Channel.Y)
  && eqStr (field encQ "type") VlType.QUANTITATIVE
  && (truthy (field encQ "scale") && eqBool (get (field encQ "scale") "zero") false).

(** The dictionary key under which rule [omitRepeatedField] records the
    field of an encoding: none for a literal-value or auto-count mapping,
    nor when the field is falsy or a wildcard. *)
Definition fieldKey (encQ : object) : option string :=
  if negb (isValueQuery (VObj encQ) || isAutoCountQuery (VObj encQ))
     && (truthy (field encQ "field") && negb (isWildcard (field encQ "field")))
  then Some (toStr (field encQ "field"))
  else None.

(** The key of the encoding at a position of a list, if it has one. *)
Definition fieldKeyAt (encodings : list object) (i : nat) : option string :=
  match encodings !! i with
  | Some encQ => fieldKey encQ
  | None => None
  end.

(** The encoding takes part in the plot: it is neither a literal value nor
    a disabled auto-count. *)
Definition countedEncoding (encQ : object) : bool :=
  negb (isValueQuery (VObj encQ) || isDisabledAutoCountQuery (VObj encQ)).

(** A counted encoding on a concrete channel other than [x] and [y]. *)
Definition offAxis (encQ : object) : bool :=
  countedEncoding encQ
  && negb (eqStr (field encQ "channel") Channel.X)
  && negb (eqStr (field encQ "channel") Channel.Y)
  && negb (isWildcard (field encQ "channel")).

(** An encoding for which the [switch] of rule [autoAddCount] has no
    [case]: neither a literal value nor an auto-count, and its type is none
    of quantitative, temporal, ordinal, key and nominal. *)
Definition untyped (encQ : object) : bool :=
  negb (isValueQuery (VObj encQ)) && negb (isAutoCountQuery (VObj encQ))
  && negb (containsValue
             [VlType.QUANTITATIVE; VlType.TEMPORAL; VlType.ORDINAL;
              ExpandedType.KEY; VlType.NOMINAL] (field encQ "type")).

(** The query [{x: sum(Q), y: N, color: N1}] of a bar chart, with the
    encodings reordered. *)
Definition reorderedStackQuery : SpecQuery :=
  mkSpecQuery None (VStr "bar") None stackEncodingsReordered None.

(** A bar chart whose quantitative [x] has a scale that excludes zero. *)
Definition zeroFalseBarModel : SpecQueryModel :=
  modelOf (mkSpecQuery None (VStr "bar") None
    [ [("channel", VStr "x"); ("field", VStr "a"); ("type", VStr "quantitative");
       ("scale", VObj [("zero", VBool false)])] ]
    None).

(** A point chart of the single field named [constructor]. *)
Definition constructorFieldModel : SpecQueryModel :=
  modelOf (mkSpecQuery None (VStr "point") None
    [ [("channel", VStr "x"); ("field", VStr "constructor");
       ("type", VStr "nominal")] ]
    None).

(** A field whose type is still a wildcard, next to an enabled
    auto-count. *)
Definition wildcardTypeCountModel : SpecQueryModel :=
  modelOf (mkSpecQuery None (VStr "point") None
    [ [("channel", VStr "x"); ("field", VStr "a"); ("type", VStr "?")];
      [("channel", VStr "y"); ("autoCount", VBool true);
       ("type", VStr "quantitative")] ]
    None).

(** A point chart whose [x] holds a wildcard aggregate. *)
Definition wildcardAggregateModel : SpecQueryModel :=
  modelOf (mkSpecQuery None (VStr "point") None
    [ [("channel", VStr "x"); ("field", VStr "a"); ("type", VStr "quantitative");
       ("aggregate", VStr "?")] ]
    None).

(** Options that enable rule [autoAddCount]; options that enable both
    [omitAggregate] and [omitRaw]. *)
Definition countEnabled : QueryConfig := {[ "autoAddCount" := VBool true ]}.

Definition aggregateAndRawOmitted : QueryConfig :=
  {[ "omitAggregate" := VBool true; "omitRaw" := VBool true ]}.

(** [checkSpec] over the catalogue with the embedded predicates in their
    places, every other predicate answering [true]. *)
Abbreviation demoCheck :=
  (checkSpec (table := specPropertyTable) (Schema := unit) JSON.stringify
     (λ _, false) (λ _, false) demoShorthand
     (rulePredicates nodeInherited (λ _ _ _ _, Ok true))).

(** A model whose mark is still a wildcard object. *)
Definition wildcardObjectMarkModel : SpecQueryModel :=
  modelOf (mkSpecQuery None
    (VObj [("name", VStr "m"); ("enum", VArr [VStr "bar"; VStr "point"])])
    None [] None).

(** JSON text written with single quotes: every single quote of [s]
    stands for a double quote. *)
Fixpoint doubleQuoted (s : string) : string :=
  match s with
  | EmptyString => ""
  | String c rest =>
      String (if Ascii.eqb c (Ascii.ascii_of_nat 39) then Ascii.ascii_of_nat 34 else c)
        (doubleQuoted rest)
  end.

(** A model over a query in which the channel of the encoding at
    position [i] is enumerated. *)
Definition channelEnumeratedAt (i : nat) (q : SpecQuery) : SpecQueryModel :=
  mkSpecQueryModel q (mkWildcardIndex false {[ "channel" := [i] ]}).

(** A bar chart with an enumerated [size] channel next to [x]. *)
Definition sizedBarModel : SpecQueryModel :=
  channelEnumeratedAt 1 (mkSpecQuery None (VStr "bar") None
    [ [("channel", VStr "x"); ("field", VStr "a"); ("type", VStr "quantitative")];
      [("channel", VStr "size"); ("field", VStr "b"); ("type", VStr "quantitative")] ]
    None).

(** A point chart whose only encoding, enumerated, is on [color]; and one
    whose only encoding, enumerated, is on [detail]. *)
Definition colorOnlyModel : SpecQueryModel :=
  channelEnumeratedAt 0 (mkSpecQuery None (VStr "point") None
    [ [("channel", VStr "color"); ("field", VStr "a"); ("type", VStr "nominal")] ]
    None).

Definition detailOnlyModel : SpecQueryModel :=
  channelEnumeratedAt 0 (mkSpecQuery None (VStr "point") None
    [ [("channel", VStr "detail"); ("field", VStr "a"); ("type", VStr "nominal")] ]
    None).

(* ===================================================================== *)
(** * 8. Properties of [src/query/spec.ts] *)
(* ===================================================================== *)

Section StackDetection.

(** C1 (the code departs from the claim).  For the bar chart whose only
    encoding is [x: sum(Q)], [isImplicitStack] answers [true] although no
    encoding binds [y] and none binds [color]: the [case Channel.X] block
    has no [break], so it runs on into the blocks that set [yUsed] and
    [colorUsed]. *)
Theorem isImplicitStack_x_only :
  isImplicitStack xOnlyQuery = true
  ∧ isExplicitStack xOnlyQuery = false
  ∧ bindsChannel xOnlyQuery Channel.Y = false
  ∧ bindsChannel xOnlyQuery Channel.COLOR = false.
Proof. repeat split; vm_compute; reflexivity. Qed.

(** C2 (as the claim states it, refuted).  With the encodings
    [{x: sum(Q), y: N, color: N1}] the answer for mark [point] is not
    [false]. *)
Lemma isImplicitStack_point_not_false :
  ¬ (isImplicitStack (stackQuery Mark.BAR) = true
     ∧ isImplicitStack (stackQuery Mark.POINT) = false).
Proof. vm_compute. intros [_ Hpoint]. discriminate Hpoint. Qed.

(** C2 (amended).  [isImplicitStack] never reads the mark: changing the
    mark of any query leaves its answer unchanged, and for the encodings
    [{x: sum(Q), y: N, color: N1}] the answer is [true] under every mark,
    [bar] and [point] included. *)
Theorem isImplicitStack_ignores_mark :
  (∀ (q : SpecQuery) (m : value),
      isImplicitStack (withMark q m) = isImplicitStack q)
  ∧ (∀ m : string, isImplicitStack (stackQuery m) = true)
  ∧ isImplicitStack (stackQuery Mark.BAR) = true
  ∧ isImplicitStack (stackQuery Mark.POINT) = true.
Proof.
  split; [intros q m; reflexivity |].
  split; [intros m; reflexivity |].
  split; reflexivity.
Qed.

End StackDetection.

Section WildcardPresence.
Context `{table : PropertyTable}.

Lemma notExcluded_spec (exclude : option (list Property)) (key : string) :
  notExcluded (excludeMap exclude) key = true ↔ ¬ excludedKey exclude key.
Proof.
  unfold notExcluded, excludedKey, excludeMap.
  destruct exclude as [props|]; [| rewrite lookup_empty; tauto].
  destruct (list_to_map _ !! key) as [n|] eqn:Hlk.
  - apply elem_of_list_to_map_2 in Hlk.
    apply list_elem_of_fmap in Hlk as (p & Heq & Hp).
    injection Heq as -> ->. split; [discriminate |].
    intros Hno. exfalso. apply Hno. apply list_elem_of_fmap. eauto.
  - apply not_elem_of_list_to_map in Hlk.
    rewrite <- list_fmap_compose in Hlk. split; [| reflexivity].
    intros _ Hin. apply Hlk. exact Hin.
Qed.

Lemma contains_spec (arr : list string) (item : string) :
  contains arr item = true ↔ item ∈ arr.
Proof.
  unfold contains. rewrite existsb_exists. split.
  - intros (x & Hin & Heq). apply String.eqb_eq in Heq as ->.
    by apply list_elem_of_In.
  - intros Hin. exists item. split; [by apply list_elem_of_In |].
    apply String.eqb_refl.
Qed.

Lemma field_withoutEnumName (props : object) (k : string) :
  contains ["enum"; "name"] k = false →
  field (withoutEnumName props) k = field props k.
Proof.
  intros Hk. induction props as [|[k' v] props IH]; [reflexivity |].
  cbn [withoutEnumName List.filter fst field].
  destruct (String.eqb k k') eqn:Hkk.
  - apply String.eqb_eq in Hkk as <-. rewrite Hk. cbn.
    by rewrite String.eqb_refl.
  - destruct (contains _ k'); cbn; [exact IH |]. by rewrite Hkk.
Qed.

Lemma ownKeys_withoutEnumName (props : object) :
  ownKeys (VObj (withoutEnumName props))
  = List.filter (λ k, negb (contains ["enum"; "name"] k)) (ownKeys (VObj props)).
Proof.
  cbn [ownKeys]. induction props as [|[k v] props IH]; [reflexivity |].
  cbn [withoutEnumName List.filter fst fmap list_fmap].
  destruct (contains _ k); cbn; [exact IH |]. f_equal. exact IH.
Qed.

Lemma existsb_filter_guard {A : Type} (g f : A → bool) (l : list A) :
  existsb (λ x, g x && f x) (List.filter g l) = existsb (λ x, g x && f x) l.
Proof.
  induction l as [|a l IH]; [reflexivity |]. cbn.
  destruct (g a) eqn:Hg; cbn; rewrite ?Hg, IH; reflexivity.
Qed.

Lemma existsb_ext_in {A : Type} (f g : A → bool) (l : list A) :
  (∀ x, x ∈ l → f x = g x) → existsb f l = existsb g l.
Proof.
  induction l as [|a l IH]; [reflexivity |]. intros Hfg. cbn.
  rewrite (Hfg a) by apply list_elem_of_here.
  rewrite IH; [reflexivity |]. intros x Hx. apply Hfg. by apply list_elem_of_further.
Qed.

(** The nested scan of an object does not look at its [enum] and [name]
    children. *)
Lemma nestedWildcard_skips (exclude : gmap string Z) (parentProp : string)
    (props : object) :
  nestedWildcard exclude parentProp (VObj props)
  = nestedWildcard exclude parentProp (VObj (withoutEnumName props)).
Proof.
  unfold nestedWildcard. rewrite ownKeys_withoutEnumName.
  set (g := λ k : string, negb (contains ["enum"; "name"] k)).
  transitivity
    (existsb (λ k, g k && (isWildcard (field props k)
                && notExcluded exclude (toKey (Nested parentProp k))))
       (ownKeys (VObj props))).
  { apply existsb_ext_in. intros k Hk. unfold hasOwnProperty.
    rewrite bool_decide_eq_true_2 by exact Hk. reflexivity. }
  rewrite <- existsb_filter_guard. apply existsb_ext_in. intros k Hk.
  apply list_elem_of_In, filter_In in Hk as [Hk Hg].
  unfold hasOwnProperty. rewrite ownKeys_withoutEnumName.
  rewrite bool_decide_eq_true_2
    by (apply list_elem_of_In, filter_In; split; assumption).
  cbn [get]. unfold g in *. cbv beta in Hg.
  destruct (contains ["enum"; "name"] k) eqn:Hc; [discriminate Hg |].
  rewrite field_withoutEnumName by exact Hc. reflexivity.
Qed.

Lemma nestedWildcard_spec (exclude : option (list Property)) (parentProp : string)
    (propObj : value) :
  nestedWildcard (excludeMap exclude) parentProp propObj = true ↔
  ∃ childProp : string,
    childProp ∈ ownKeys propObj
    ∧ childProp ≠ "enum" ∧ childProp ≠ "name"
    ∧ isWildcard (get propObj childProp) = true
    ∧ ¬ excludedKey exclude (parentProp +:+ "." +:+ childProp).
Proof.
  unfold nestedWildcard. rewrite existsb_exists. split.
  - intros (k & Hin & Hk). apply list_elem_of_In in Hin.
    rewrite !andb_true_iff in Hk. destruct Hk as [[_ Hskip] [Hw Hex]].
    exists k. apply notExcluded_spec in Hex. cbn [toKey] in Hex.
    apply negb_true_iff in Hskip.
    repeat split; try assumption.
    + intros ->. discriminate Hskip.
    + intros ->. discriminate Hskip.
  - intros (k & Hin & Hne & Hnn & Hw & Hex). exists k.
    split; [by apply list_elem_of_In |].
    rewrite !andb_true_iff. repeat split.
    + unfold hasOwnProperty. by apply bool_decide_eq_true_2.
    + apply negb_true_iff. destruct (contains _ k) eqn:Hc; [| reflexivity].
      apply contains_spec, list_elem_of_In in Hc.
      destruct Hc as [<- | [<- | []]]; [by destruct Hne | by destruct Hnn].
    + exact Hw.
    + by apply notExcluded_spec.
Qed.

Lemma encodingWildcard_spec (exclude : option (list Property)) (encQ : object) :
  encodingWildcard (excludeMap exclude) encQ = true ↔
  ∃ parentProp : string,
    parentProp ∈ ownKeys (VObj encQ)
    ∧ isEncodingTopLevelProperty parentProp = true
    ∧ ((isWildcard (field encQ parentProp) = true
        ∧ ¬ excludedKey exclude parentProp)
       ∨ ∃ childProp : string,
           childProp ∈ ownKeys (field encQ parentProp)
           ∧ childProp ≠ "enum" ∧ childProp ≠ "name"
           ∧ isWildcard (get (field encQ parentProp) childProp) = true
           ∧ ¬ excludedKey exclude (parentProp +:+ "." +:+ childProp)).
Proof.
  unfold encodingWildcard. rewrite existsb_exists. split.
  - intros (k & Hin & Hk). apply list_elem_of_In in Hin. exists k.
    rewrite !andb_true_iff, orb_true_iff, andb_true_iff in Hk.
    destruct Hk as [[_ Htop] Hk]. split; [exact Hin |]. split; [exact Htop |].
    destruct Hk as [[Hw Hex] | Hnested].
    + left. split; [exact Hw |]. by apply notExcluded_spec.
    + right. by apply nestedWildcard_spec.
  - intros (k & Hin & Htop & Hk). exists k.
    split; [by apply list_elem_of_In |].
    rewrite !andb_true_iff, orb_true_iff, andb_true_iff.
    split; [split; [| exact Htop] |].
    + unfold hasOwnProperty. by apply bool_decide_eq_true_2.
    + destruct Hk as [[Hw Hex] | Hnested].
      * left. split; [exact Hw |]. by apply notExcluded_spec.
      * right. by apply nestedWildcard_spec.
Qed.

(** What [hasWildcard] reports, for every query and exclusion list:
    - the nested scan of a property object gives the same answer on the
      object with its [enum] and [name] children removed;
    - on a wildcard object, whose only children are [enum] and [name],
      the nested scan finds nothing;
    - [hasWildcard] answers [true] exactly when the mark is a wildcard
      and ['mark'] is not excluded, or some encoding holds, under a
      top-level property key, a wildcard whose key is not excluded, or
      a wildcard child other than [enum] and [name] whose
      ['parent.child'] key is not excluded.  The children are the keys
      [for ... in] enumerates, the positions of the characters of a string
      among them. *)
Lemma hasWildcard_scan (specQ : SpecQuery) (exclude : option (list Property)) :
  (∀ (parentProp : string) (propObj : object),
      nestedWildcard (excludeMap exclude) parentProp (VObj propObj)
      = nestedWildcard (excludeMap exclude) parentProp
          (VObj (withoutEnumName propObj)))
  ∧ (∀ (parentProp : string) (w : object),
      (∀ k, k ∈ ownKeys (VObj w) → k = "enum" ∨ k = "name") →
      nestedWildcard (excludeMap exclude) parentProp (VObj w) = false)
  ∧ (hasWildcard specQ exclude = true ↔
     (isWildcard (mark specQ) = true ∧ ¬ excludedKey exclude "mark")
     ∨ ∃ (encQ : object) (parentProp : string),
         encQ ∈ encodings specQ
         ∧ parentProp ∈ ownKeys (VObj encQ)
         ∧ isEncodingTopLevelProperty parentProp = true
         ∧ ((isWildcard (field encQ parentProp) = true
             ∧ ¬ excludedKey exclude parentProp)
            ∨ ∃ childProp : string,
                childProp ∈ ownKeys (field encQ parentProp)
                ∧ childProp ≠ "enum" ∧ childProp ≠ "name"
                ∧ isWildcard (get (field encQ parentProp) childProp) = true
                ∧ ¬ excludedKey exclude (parentProp +:+ "." +:+ childProp))).
Proof.
  split; [intros; apply nestedWildcard_skips |]. split.
  - intros parentProp w Hw.
    destruct (nestedWildcard _ parentProp (VObj w)) eqn:Hscan; [| reflexivity].
    apply nestedWildcard_spec in Hscan as (k & Hin & Hne & Hnn & _).
    destruct (Hw k Hin); contradiction.
  - unfold hasWildcard.
    destruct (isWildcard (mark specQ) && notExcluded (excludeMap exclude) "mark")
      eqn:Hmark.
    + split; [| reflexivity]. intros _. left.
      apply andb_true_iff in Hmark as [Hw Hex].
      split; [exact Hw |]. by apply notExcluded_spec.
    + rewrite existsb_exists. split.
      * intros (encQ & Hin & Henc). right.
        apply encodingWildcard_spec in Henc as (k & Hk). exists encQ, k.
        split; [by apply list_elem_of_In | exact Hk].
      * intros [[Hw Hex] | (encQ & k & Hin & Hk)].
        -- apply notExcluded_spec in Hex. rewrite Hw, Hex in Hmark.
           discriminate Hmark.
        -- exists encQ. split; [by apply list_elem_of_In |].
           apply encodingWildcard_spec. exists k. exact Hk.
Qed.

(** The query with a concrete channel holds no wildcard, under no
    exclusion list. *)
Lemma channelQuery_concrete (exclude : option (list Property)) :
  hasWildcard (channelQuery "x") exclude = false.
Proof.
  destruct (hasWildcard (channelQuery "x") exclude) eqn:Hfound; [| reflexivity].
  apply hasWildcard_scan in Hfound as [[Hmark _] | (encQ & k & Hin & Hk & _ & Hw)].
  { discriminate Hmark. }
  apply list_elem_of_singleton in Hin as ->.
  apply list_elem_of_In in Hk. cbn in Hk.
  destruct Hk as [<- | [<- | [<- | []]]];
    (destruct Hw as [[Hw _] | (child & Hchild & _ & _ & Hw & _)];
       [discriminate Hw |]);
    apply list_elem_of_In in Hchild; vm_compute in Hchild;
    repeat (destruct Hchild as [<- | Hchild]; [discriminate Hw |]);
    destruct Hchild.
Qed.

(** C10 (the code departs from the claim).  In the query
    [{mark: 'point', encodings: [{channel: '?', field: 'x', type:
    'quantitative'}]}] the channel is the only wildcard: with a concrete
    channel the query holds none.  With [channel] excluded [hasWildcard]
    still answers [true]: the nested scan runs [for ... in] over the string
    ['?'], whose only key is ['0'] and whose character under that key is
    the string ['?'] itself, a wildcard, and the key ['channel.0'] is not
    in the exclusion list.  The answer is [false] only once ['channel.0']
    is excluded as well. *)
Theorem hasWildcard_reports_excluded_wildcard :
  isEncodingTopLevelProperty "channel" = true →
  excludedKey (Some [Property.CHANNEL]) "channel"
  ∧ hasWildcard shortWildcardQuery (Some [Property.CHANNEL]) = true
  ∧ ownKeys (VStr "?") = ["0"]
  ∧ get (VStr "?") "0" = VStr "?"
  ∧ ¬ excludedKey (Some [Property.CHANNEL]) "channel.0"
  ∧ (∀ exclude : option (list Property),
       hasWildcard (channelQuery "x") exclude = false)
  ∧ hasWildcard shortWildcardQuery
      (Some [Property.CHANNEL; Nested "channel" "0"]) = false.
Proof.
  intros Htable.
  assert (Hkeys : ownKeys (VStr "?") = ["0"]) by (vm_compute; reflexivity).
  assert (Hchar : get (VStr "?") "0" = VStr "?") by (vm_compute; reflexivity).
  assert (Hfree : ¬ excludedKey (Some [Property.CHANNEL]) "channel.0").
  { intros Hin. apply list_elem_of_singleton in Hin. discriminate Hin. }
  split; [apply list_elem_of_here |]. split.
  { apply hasWildcard_scan. right.
    exists [("channel", VStr "?"); ("field", VStr "x");
            ("type", VStr "quantitative")], "channel".
    split; [apply list_elem_of_here |]. split; [apply list_elem_of_here |].
    split; [exact Htable |]. right. exists "0".
    change (field _ "channel") with (VStr "?"). rewrite Hkeys, Hchar.
    split; [apply list_elem_of_here |]. split; [discriminate |].
    split; [discriminate |]. split; [reflexivity | exact Hfree]. }
  split; [exact Hkeys |]. split; [exact Hchar |]. split; [exact Hfree |].
  split; [exact channelQuery_concrete |].
  destruct (hasWildcard shortWildcardQuery _) eqn:Hfound; [| reflexivity].
  apply hasWildcard_scan in Hfound as [[Hmark _] | (encQ & k & Hin & Hk & _ & Hw)].
  { discriminate Hmark. }
  apply list_elem_of_singleton in Hin as ->.
  apply list_elem_of_In in Hk. cbn in Hk.
  destruct Hk as [<- | [<- | [<- | []]]].
  - destruct Hw as [[_ Hex] | (child & Hchild & _ & _ & _ & Hex)].
    + destruct Hex. apply list_elem_of_here.
    + change (field _ "channel") with (VStr "?") in Hchild.
      rewrite Hkeys in Hchild. apply list_elem_of_singleton in Hchild as ->.
      destruct Hex. apply list_elem_of_further, list_elem_of_here.
  - destruct Hw as [[Hw _] | (child & Hchild & _ & _ & Hw & _)];
      [discriminate Hw |].
    apply list_elem_of_In in Hchild; vm_compute in Hchild.
    repeat (destruct Hchild as [<- | Hchild]; [discriminate Hw |]).
    destruct Hchild.
  - destruct Hw as [[Hw _] | (child & Hchild & _ & _ & Hw & _)];
      [discriminate Hw |].
    apply list_elem_of_In in Hchild; vm_compute in Hchild.
    repeat (destruct Hchild as [<- | Hchild]; [discriminate Hw |]).
    destruct Hchild.
Qed.

End WildcardPresence.

Section FromSpec.
Context `{table : PropertyTable}.

Lemma field_setProp_eq (k : string) (v : value) (o : object) :
  field (setProp k v o) k = v.
Proof.
  induction o as [|[k' v'] o IH]; cbn.
  - by rewrite String.eqb_refl.
  - destruct (String.eqb k k') eqn:Hk; cbn; rewrite ?String.eqb_refl, ?Hk; done.
Qed.

Lemma field_setProp_ne (k k' : string) (v : value) (o : object) :
  k ≠ k' → field (setProp k v o) k' = field o k'.
Proof.
  intros Hne. induction o as [|[k0 v0] o IH]; cbn.
  - destruct (String.eqb k' k) eqn:Hk; [| reflexivity].
    apply String.eqb_eq in Hk. congruence.
  - destruct (String.eqb k k0) eqn:Hk; cbn.
    + apply String.eqb_eq in Hk as <-.
      destruct (String.eqb k' k) eqn:Hk'; [| reflexivity].
      apply String.eqb_eq in Hk'. congruence.
    + destruct (String.eqb k' k0); [reflexivity | exact IH].
Qed.

Lemma ownKeys_setProp (k k' : string) (v : value) (o : object) :
  k' ∈ ownKeys (VObj (setProp k v o)) ↔ k' = k ∨ k' ∈ ownKeys (VObj o).
Proof.
  cbn [ownKeys]. induction o as [|[k0 v0] o IH]; cbn.
  - rewrite list_elem_of_singleton. split; [auto |].
    intros [-> | Hin]; [reflexivity |]. by apply elem_of_nil in Hin.
  - destruct (String.eqb k k0) eqn:Hk; cbn.
    + apply String.eqb_eq in Hk as <-. rewrite !elem_of_cons. tauto.
    + rewrite !elem_of_cons, IH. tauto.
Qed.

Lemma copyChannelProp_eq (channelDef : value) (encQ : object) (prop : string) :
  copyChannelProp channelDef encQ prop
  = if isEncodingTopLevelProperty prop && negb (isUndefined (get channelDef prop))
    then setProp prop (normalized prop (get channelDef prop)) encQ
    else encQ.
Proof.
  unfold copyChannelProp, normalized.
  destruct (isEncodingTopLevelProperty prop && _); [| reflexivity].
  destruct (contains _ prop && isNull _); reflexivity.
Qed.

(** What the copy loop leaves under a key, after running over [props]. *)
Lemma field_copy_loop (channelDef : value) (props : list string) (encQ : object)
    (prop : string) :
  field (fold_left (copyChannelProp channelDef) props encQ) prop
  = if bool_decide (prop ∈ props) && isEncodingTopLevelProperty prop
       && negb (isUndefined (get channelDef prop))
    then normalized prop (get channelDef prop)
    else field encQ prop.
Proof.
  revert encQ. induction props as [|p props IH]; intros encQ; [reflexivity |].
  cbn [fold_left]. rewrite IH, copyChannelProp_eq.
  destruct (decide (prop = p)) as [-> | Hne].
  - rewrite (bool_decide_eq_true_2 (p ∈ p :: props)) by apply list_elem_of_here.
    destruct (isEncodingTopLevelProperty p && negb (isUndefined (get channelDef p)))
      eqn:Hc.
    + rewrite field_setProp_eq. rewrite andb_true_l.
      replace (bool_decide (p ∈ props) && isEncodingTopLevelProperty p
               && negb (isUndefined (get channelDef p)))
        with (bool_decide (p ∈ props)
              && (isEncodingTopLevelProperty p
                  && negb (isUndefined (get channelDef p))))
        by apply andb_assoc.
      rewrite Hc. by destruct (bool_decide (p ∈ props)).
    + rewrite andb_true_l.
      replace (bool_decide (p ∈ props) && isEncodingTopLevelProperty p
               && negb (isUndefined (get channelDef p)))
        with (bool_decide (p ∈ props)
              && (isEncodingTopLevelProperty p
                  && negb (isUndefined (get channelDef p))))
        by apply andb_assoc.
      rewrite Hc. by destruct (bool_decide (p ∈ props)).
  - assert (Hb : bool_decide (prop ∈ p :: props) = bool_decide (prop ∈ props)).
    { apply bool_decide_ext. rewrite elem_of_cons. tauto. }
    rewrite Hb.
    destruct (bool_decide (prop ∈ props) && isEncodingTopLevelProperty prop
              && negb (isUndefined (get channelDef prop))); [reflexivity |].
    destruct (isEncodingTopLevelProperty p && negb (isUndefined (get channelDef p)));
      [| reflexivity].
    apply field_setProp_ne. congruence.
Qed.

Lemma ownKeys_copy_loop (channelDef : value) (props : list string) (encQ : object)
    (k : string) :
  k ∈ ownKeys (VObj (fold_left (copyChannelProp channelDef) props encQ)) ↔
  k ∈ ownKeys (VObj encQ)
  ∨ (k ∈ props ∧ isEncodingTopLevelProperty k = true
     ∧ isUndefined (get channelDef k) = false).
Proof.
  revert encQ. induction props as [|p props IH]; intros encQ.
  - cbn [fold_left]. split; [auto |]. intros [Hk | [Hk _]]; [exact Hk |].
    by apply elem_of_nil in Hk.
  - cbn [fold_left]. rewrite IH, copyChannelProp_eq, elem_of_cons.
    destruct (isEncodingTopLevelProperty p && negb (isUndefined (get channelDef p)))
      eqn:Hc.
    + rewrite ownKeys_setProp. apply andb_true_iff in Hc as [Htop Hdef].
      apply negb_true_iff in Hdef. split.
      * intros [[-> | Hk] | Hk]; [right | left | right]; tauto.
      * intros [Hk | [[-> | Hk] Hrest]]; tauto.
    + split; [tauto |].
      intros [Hk | [[-> | Hk] [Htop Hdef]]]; [tauto | | tauto].
      rewrite Htop, Hdef in Hc. discriminate Hc.
Qed.

Lemma encodingOfChannel_eq (encoding : value) (channel : string) :
  encodingOfChannel encoding channel
  = if countWithoutField (copied encoding channel)
    then setProp "field" (VStr "*") (copied encoding channel)
    else copied encoding channel.
Proof.
  unfold encodingOfChannel, countWithoutField. fold (copied encoding channel).
  unfold isFieldQuery. cbn [isNull isUndefined negb andb get].
  destruct (eqStr (field (copied encoding channel) "aggregate") "count");
    [| by rewrite orb_false_r, andb_false_r].
  rewrite orb_true_r. reflexivity.
Qed.

Lemma field_copied (encoding : value) (channel prop : string) :
  field (copied encoding channel) prop
  = if copies (get encoding channel) prop
    then normalized prop (get (get encoding channel) prop)
    else if String.eqb prop "channel" then VStr channel else VUndefined.
Proof.
  unfold copied. rewrite field_copy_loop. unfold copies.
  destruct (_ && _ && _); [reflexivity |]. cbn [field].
  destruct (String.eqb prop "channel"); reflexivity.
Qed.

Lemma field_copied_other (encoding : value) (channel prop : string) :
  prop ≠ "channel" →
  field (copied encoding channel) prop = copiedValue (get encoding channel) prop.
Proof.
  intros Hne. rewrite field_copied. unfold copiedValue.
  destruct (copies _ prop); [reflexivity |].
  destruct (String.eqb prop "channel") eqn:Hp; [| reflexivity].
  apply String.eqb_eq in Hp. contradiction.
Qed.

Lemma countWithoutField_copied (encoding : value) (channel : string) :
  countWithoutField (copied encoding channel) = countDefault (get encoding channel).
Proof.
  unfold countWithoutField, countDefault.
  rewrite !field_copied_other by discriminate. reflexivity.
Qed.

(** The encoding [fromSpec] builds for one channel of the document. *)
Lemma encodingOfChannel_spec (encoding : value) (channel : string) :
  let channelDef := get encoding channel in
  let encQ := encodingOfChannel encoding channel in
  field encQ "channel"
    = (if copies channelDef "channel"
       then normalized "channel" (get channelDef "channel") else VStr channel)
  ∧ (∀ prop : string, prop ≠ "channel" → prop ≠ "field" →
       field encQ prop = copiedValue channelDef prop)
  ∧ field encQ "field"
    = (if countDefault channelDef then VStr "*" else copiedValue channelDef "field")
  ∧ (∀ k : string, k ∈ ownKeys (VObj encQ) ↔
       k = "channel" ∨ copies channelDef k = true
       ∨ (k = "field" ∧ countDefault channelDef = true)).
Proof.
  intros channelDef encQ. subst encQ. rewrite encodingOfChannel_eq.
  rewrite countWithoutField_copied. fold channelDef.
  assert (Hkeys : ∀ k, k ∈ ownKeys (VObj (copied encoding channel)) ↔
                       k = "channel" ∨ copies channelDef k = true).
  { intros k. unfold copied. rewrite ownKeys_copy_loop. fold channelDef.
    cbn [ownKeys fmap list_fmap fst]. rewrite list_elem_of_singleton.
    unfold copies. rewrite !andb_true_iff, bool_decide_eq_true, negb_true_iff.
    tauto. }
  destruct (countDefault channelDef) eqn:Hcount.
  - repeat split.
    + rewrite field_setProp_ne by discriminate. apply field_copied.
    + intros prop Hc Hf. rewrite field_setProp_ne by congruence.
      by apply field_copied_other.
    + apply field_setProp_eq.
    + rewrite ownKeys_setProp, Hkeys. tauto.
    + rewrite ownKeys_setProp, Hkeys. tauto.
  - repeat split.
    + apply field_copied.
    + intros prop Hc Hf. by apply field_copied_other.
    + apply field_copied_other. discriminate.
    + rewrite Hkeys. tauto.
    + rewrite Hkeys. intros [Hk | [Hk | [_ Hk]]]; [tauto | tauto | discriminate Hk].
Qed.

(** C7 (amended).  [fromSpec] yields a flat query with one encoding per
    channel key of the document, in the order of the keys.  The encoding
    of a channel holds [channel], and every top-level property of the
    channel definition whose value is not [undefined], each with its
    value unchanged except that [null] under [bin], [scale], [axis] or
    [legend] becomes [false]; when the aggregate handed over is ['count']
    and no field is, [field] is ['*']; it holds no other key.  The mark is
    handed over as it is, and [data], [transform] and [config] are in the
    result exactly when the document holds a truthy value for them (an
    absent key and a [null] are both left out), with that value. *)
Theorem fromSpec_spec (spec : object) :
  let specQ := fromSpec spec in
  let encoding := field spec "encoding" in
  (∀ v : value, data specQ = Some v ↔ field spec "data" = v ∧ truthy v = true)
  ∧ (∀ v : value,
       transform specQ = Some v ↔ field spec "transform" = v ∧ truthy v = true)
  ∧ (∀ v : value, config specQ = Some v ↔ field spec "config" = v ∧ truthy v = true)
  ∧ mark specQ = field spec "mark"
  ∧ length (encodings specQ) = length (ownKeys encoding)
  ∧ ∀ (i : nat) (channel : string),
      ownKeys encoding !! i = Some channel →
      ∃ encQ : object,
        encodings specQ !! i = Some encQ
        ∧ field encQ "channel"
          = (if copies (get encoding channel) "channel"
             then normalized "channel" (get (get encoding channel) "channel")
             else VStr channel)
        ∧ (∀ prop : string, prop ≠ "channel" → prop ≠ "field" →
             field encQ prop = copiedValue (get encoding channel) prop)
        ∧ field encQ "field"
          = (if countDefault (get encoding channel) then VStr "*"
             else copiedValue (get encoding channel) "field")
        ∧ (∀ k : string, k ∈ ownKeys (VObj encQ) ↔
             k = "channel" ∨ copies (get encoding channel) k = true
             ∨ (k = "field" ∧ countDefault (get encoding channel) = true)).
Proof.
  intros specQ encoding. subst specQ encoding. unfold fromSpec.
  cbn [data transform config mark encodings].
  assert (Hopt : ∀ (w v : value),
            (if truthy w then Some w else None) = Some v ↔ w = v ∧ truthy v = true).
  { intros w v. destruct (truthy w) eqn:Hw; split.
    - intros [= <-]. auto.
    - intros [<- _]. reflexivity.
    - discriminate.
    - intros [<- Hv]. congruence. }
  split; [intros v; apply Hopt |].
  split; [intros v; apply Hopt |].
  split; [intros v; apply Hopt |].
  split; [reflexivity |].
  split; [apply length_fmap |].
  intros i channel Hi. exists (encodingOfChannel (field spec "encoding") channel).
  split; [by rewrite list_lookup_fmap, Hi |].
  apply encodingOfChannel_spec.
Qed.

End FromSpec.

(** C7 (as the claim states it, refuted).  The document
    [{mark: 'point', encoding: {}, config: null}] has the key [config],
    yet the query [fromSpec] builds from it has none. *)
Lemma fromSpec_drops_null_config :
  ¬ ("config" ∈ ownKeys (VObj nullConfigSpec)
     ↔ is_Some (config (fromSpec (table := specPropertyTable) nullConfigSpec))).
Proof.
  intros [Hpresent _].
  assert (Hin : "config" ∈ ownKeys (VObj nullConfigSpec)).
  { apply list_elem_of_In. vm_compute. tauto. }
  destruct (Hpresent Hin) as [v Hv]. vm_compute in Hv. discriminate Hv.
Qed.

(* ===================================================================== *)
(** * 9. Properties of [src/constraint/spec.ts] *)
(* ===================================================================== *)

Section Engine.
Context `{table : PropertyTable} {Schema : Type}.
Context (toShorthand : SpecQueryModel → string).

Implicit Types (c : SpecConstraint (Schema := Schema)).
Implicit Types (specM : SpecQueryModel) (schema : Schema) (opt : QueryConfig).

Lemma isWildcard_truthy (v : value) : isWildcard v = true → truthy v = true.
Proof.
  destruct v as [| |b|n|s|elems|props]; try (vm_compute; congruence).
  destruct s; [vm_compute; congruence | reflexivity].
Qed.

Lemma everyR_false {A : Type} (f : A → result bool) (arr : list A) :
  (∀ a, a ∈ arr → ∃ b, f a = Ok b) →
  (∃ a, a ∈ arr ∧ f a = Ok false) →
  everyR f arr = Ok false.
Proof.
  induction arr as [|a arr IH]; intros Hok (a0 & Hin & Hfalse).
  - by apply elem_of_nil in Hin.
  - cbn. destruct (Hok a (list_elem_of_here _ _)) as [[|] Hb]; rewrite Hb;
      [| reflexivity].
    apply IH.
    + intros a' Ha'. apply Hok. by apply list_elem_of_further.
    + apply elem_of_cons in Hin as [-> | Hin]; [congruence |]. eauto.
Qed.

Lemma forallb_false_iff {A : Type} (f : A → bool) (l : list A) :
  forallb f l = false ↔ ∃ a, a ∈ l ∧ f a = false.
Proof.
  induction l as [|a l IH]; cbn.
  - split; [discriminate |]. intros (a & Hin & _). by apply elem_of_nil in Hin.
  - rewrite andb_false_iff, IH. split.
    + intros [Ha | (a' & Hin & Ha')].
      * exists a. split; [apply list_elem_of_here | exact Ha].
      * exists a'. split; [by apply list_elem_of_further | exact Ha'].
    + intros (a' & Hin & Ha'). apply elem_of_cons in Hin as [-> | Hin]; eauto.
Qed.

Lemma propertySpecific_supported specM (p : Property) :
  supportedProperty p = true → ∃ b, propertySpecific specM p = Ok b.
Proof.
  destruct p as [name | parent child]; cbn; [| eauto].
  destruct (String.eqb name "mark"); cbn; [eauto |].
  intros ->. cbn. eauto.
Qed.

Lemma propertySpecific_wildcarded specM (p : Property) :
  supportedProperty p = true → wildcardedIn specM p →
  propertySpecific specM p = Ok false.
Proof.
  destruct p as [name | parent child]; cbn.
  - destruct (String.eqb name "mark"); cbn.
    + intros _ ->. reflexivity.
    + intros -> (encQ & Hin & Hw). cbn. f_equal. apply forallb_false_iff.
      exists encQ. split; [exact Hin |].
      by rewrite (isWildcard_truthy _ Hw), Hw.
  - intros _ (encQ & Hin & Hp & Hw). f_equal. apply forallb_false_iff.
    exists encQ. split; [exact Hin |]. by rewrite Hp, Hw.
Qed.

Lemma satisfyModel_skip c specM schema opt :
  allowWildcardForProperties c = false →
  hasAllRequiredPropertiesSpecific c specM = Ok false →
  satisfyModel c specM schema opt = ([SatisfyCalled (name c)], Ok true).
Proof. intros Ha Hs. unfold satisfyModel. rewrite Ha, Hs. reflexivity. Qed.

Lemma satisfyModel_trace c specM schema opt (e : event) :
  e ∈ (satisfyModel c specM schema opt).1 → calledRule e = Some (name c).
Proof.
  unfold satisfyModel, callPredicate.
  destruct (allowWildcardForProperties c); cbn.
  - destruct (satisfy c specM schema opt); cbn;
      rewrite !elem_of_cons; intros [-> | [-> | Hin]]; try reflexivity;
      by apply elem_of_nil in Hin.
  - destruct (hasAllRequiredPropertiesSpecific c specM) as [[|] | msg]; cbn.
    + destruct (satisfy c specM schema opt); cbn;
        rewrite !elem_of_cons; intros [-> | [-> | Hin]]; try reflexivity;
        by apply elem_of_nil in Hin.
    + rewrite !elem_of_cons. intros [-> | Hin]; [reflexivity |].
      by apply elem_of_nil in Hin.
    + rewrite !elem_of_cons. intros [-> | Hin]; [reflexivity |].
      by apply elem_of_nil in Hin.
Qed.

Lemma satisfyModel_head c specM schema opt :
  ∃ t, (satisfyModel c specM schema opt).1 = SatisfyCalled (name c) :: t.
Proof.
  unfold satisfyModel, callPredicate.
  destruct (allowWildcardForProperties c); cbn.
  - destruct (satisfy c specM schema opt); cbn; eauto.
  - destruct (hasAllRequiredPropertiesSpecific c specM) as [[|] | msg]; cbn; eauto.
Qed.

(** One turn of the loop of [checkSpec]. *)
Lemma checkConstraints_cons c (rest : list SpecConstraint) (wildcard : object)
    specM schema opt :
  checkConstraints toShorthand (c :: rest) wildcard specM schema opt
  = if active opt c then
      match satisfyModel c specM schema opt with
      | (t, Ok true) =>
          (t ++ (checkConstraints toShorthand rest wildcard specM schema opt).1,
           (checkConstraints toShorthand rest wildcard specM schema opt).2)
      | (t, Ok false) =>
          (t ++ verboseLog toShorthand c wildcard specM opt, Ok (Some ("(spec) " +:+ name c)))
      | (t, Throw msg) => (t, Throw msg)
      end
    else checkConstraints toShorthand rest wildcard specM schema opt.
Proof.
  cbn [checkConstraints]. unfold active.
  destruct (strict c || truthy (optGet opt (name c))); [| reflexivity].
  destruct (satisfyModel c specM schema opt) as [t [[|] | msg]]; cbn.
  - by destruct (checkConstraints toShorthand rest wildcard specM schema opt).
  - unfold verboseLog. destruct (truthy (optGet opt "verbose")); cbn; reflexivity.
  - reflexivity.
Qed.

(** The loop goes through a run of rules it passes and carries on. *)
Lemma checkConstraints_app (pre rest : list SpecConstraint) (wildcard : object)
    specM schema opt :
  (∀ c, c ∈ pre → passes c specM schema opt) →
  checkConstraints toShorthand (pre ++ rest) wildcard specM schema opt
  = (passTrace pre specM schema opt
       ++ (checkConstraints toShorthand rest wildcard specM schema opt).1,
     (checkConstraints toShorthand rest wildcard specM schema opt).2).
Proof.
  induction pre as [|c pre IH]; intros Hpass.
  - cbn. by destruct (checkConstraints toShorthand rest wildcard specM schema opt).
  - rewrite <- app_comm_cons, checkConstraints_cons. cbn [passTrace flat_map].
    fold (passTrace pre specM schema opt).
    rewrite IH by (intros c' Hc'; apply Hpass; by apply list_elem_of_further).
    destruct (active opt c) eqn:Hact; [| reflexivity].
    pose proof (Hpass c (list_elem_of_here _ _) Hact) as Hsat.
    destruct (satisfyModel c specM schema opt) as [t r]. cbn in Hsat. subst r.
    cbn. by rewrite app_assoc.
Qed.

(** A name [checkSpec] returns is that of an active rule of the list whose
    [satisfy] method answered [false]. *)
Lemma checkConstraints_violation (cs : list SpecConstraint) (wildcard : object)
    specM schema opt (s : string) :
  (checkConstraints toShorthand cs wildcard specM schema opt).2 = Ok (Some s) →
  ∃ c, c ∈ cs ∧ s = "(spec) " +:+ name c ∧ active opt c = true
       ∧ (satisfyModel c specM schema opt).2 = Ok false.
Proof.
  induction cs as [|c cs IH]; [discriminate |].
  rewrite checkConstraints_cons. destruct (active opt c) eqn:Hact.
  - destruct (satisfyModel c specM schema opt) as [t [[|] | msg]] eqn:Hsat;
      cbn [fst snd].
    + intros Hr. destruct (IH Hr) as (c' & Hin & Hc'). exists c'.
      split; [by apply list_elem_of_further | exact Hc'].
    + intros [= <-]. exists c. rewrite Hsat.
      split; [apply list_elem_of_here | auto].
    + discriminate.
  - intros Hr. destruct (IH Hr) as (c' & Hin & Hc'). exists c'.
    split; [by apply list_elem_of_further | exact Hc'].
Qed.

(** Every call of a run of the loop is a call of an active rule of the
    list. *)
Lemma checkConstraints_called (cs : list SpecConstraint) (wildcard : object)
    specM schema opt (e : event) (n : string) :
  e ∈ (checkConstraints toShorthand cs wildcard specM schema opt).1 →
  calledRule e = Some n →
  ∃ c, c ∈ cs ∧ active opt c = true ∧ n = name c.
Proof.
  induction cs as [|c cs IH]; intros He Hn.
  - by apply elem_of_nil in He.
  - rewrite checkConstraints_cons in He.
    assert (Hrest : e ∈ (checkConstraints toShorthand cs wildcard specM schema
                           opt).1 →
                    ∃ c', c' ∈ c :: cs ∧ active opt c' = true ∧ n = name c').
    { intros He'. destruct (IH He' Hn) as (c' & Hin & Hc'). exists c'.
      split; [by apply list_elem_of_further | exact Hc']. }
    destruct (active opt c) eqn:Hact; [| by apply Hrest].
    assert (Hhere : e ∈ (satisfyModel c specM schema opt).1 →
                    ∃ c', c' ∈ c :: cs ∧ active opt c' = true ∧ n = name c').
    { intros He'. apply satisfyModel_trace in He'. exists c.
      split; [apply list_elem_of_here |]. split; [exact Hact | congruence]. }
    destruct (satisfyModel c specM schema opt) as [t [[|] | msg]];
      cbn [fst snd] in *.
    + apply elem_of_app in He as [He | He]; auto.
    + apply elem_of_app in He as [He | He]; [auto |].
      unfold verboseLog in He. destruct (truthy (optGet opt "verbose")).
      * apply list_elem_of_singleton in He as ->. discriminate Hn.
      * by apply elem_of_nil in He.
    + auto.
Qed.

End Engine.

Section IncrementalChecker.
Context `{table : PropertyTable} {Schema : Type}.
Context (toShorthand : SpecQueryModel → string).

Implicit Types (c : SpecConstraint (Schema := Schema)).
Implicit Types (specM : SpecQueryModel) (schema : Schema) (opt : QueryConfig).
Implicit Types (index : PropIndex (list (SpecConstraint (Schema := Schema)))).

Lemma checkSpecWith_eq index (prop : Property) (wildcard : object)
    specM schema opt :
  checkSpecWith toShorthand index prop wildcard specM schema opt
  = checkConstraints toShorthand (lookupIndex index prop) wildcard
      specM schema opt.
Proof. reflexivity. Qed.

Lemma unique_name (cs : list SpecConstraint) c c' :
  NoDup (name <$> cs) → c ∈ cs → c' ∈ cs → name c' = name c → c' = c.
Proof.
  induction cs as [|c0 cs IH]; intros Hnodup Hc Hc' Hname.
  - by apply elem_of_nil in Hc.
  - cbn in Hnodup. apply NoDup_cons in Hnodup as [Hfresh Hnodup].
    apply elem_of_cons in Hc as [-> | Hc]; apply elem_of_cons in Hc' as [-> | Hc'].
    + reflexivity.
    + destruct Hfresh. rewrite <- Hname. by apply list_elem_of_fmap_2.
    + destruct Hfresh. rewrite Hname. by apply list_elem_of_fmap_2.
    + by apply IH.
Qed.

Lemma violation_name_inj (a b : string) :
  "(spec) " +:+ a = "(spec) " +:+ b → a = b.
Proof. cbn. intros Heq. by simplify_eq. Qed.

(** The skip on a wildcard, over any index.  A rule that does not tolerate
    wildcards and declares only properties of the three kinds the check
    handles is passed without a call of its predicate as soon as one of
    them is a wildcard somewhere it applies; the loop, over any index in
    which the rule's name is its own, does not report it. *)
Lemma checkSpecWith_skips_wildcarded c specM schema opt :
  allowWildcardForProperties c = false →
  (∀ p, p ∈ properties c → supportedProperty p = true) →
  (∃ p, p ∈ properties c ∧ wildcardedIn specM p) →
  satisfyModel c specM schema opt = ([SatisfyCalled (name c)], Ok true)
  ∧ ∀ index (prop : Property) (wildcard : object),
      (∀ c', c' ∈ lookupIndex index prop → name c' = name c → c' = c) →
      (checkSpecWith toShorthand index prop wildcard specM schema opt).2
      ≠ Ok (Some ("(spec) " +:+ name c)).
Proof.
  intros Hallow Hsupp (p & Hp & Hwild).
  assert (Hskip : satisfyModel c specM schema opt
                  = ([SatisfyCalled (name c)], Ok true)).
  { apply satisfyModel_skip; [exact Hallow |].
    unfold hasAllRequiredPropertiesSpecific. apply everyR_false.
    - intros q Hq. apply propertySpecific_supported. by apply Hsupp.
    - exists p. split; [exact Hp |].
      apply propertySpecific_wildcarded; [by apply Hsupp | exact Hwild]. }
  split; [exact Hskip |].
  intros index prop wildcard Hown Hret. unfold checkSpecWith in Hret.
  apply checkConstraints_violation in Hret as (c' & Hin & Hname & _ & Hfalse).
  apply violation_name_inj in Hname. symmetry in Hname.
  rewrite (Hown c' Hin Hname), Hskip in Hfalse. discriminate Hfalse.
Qed.

(** Activation, over any index.  Let the loop reach a rule [c] of the
    index entry, every rule before it being passed.  If [c] is strict, or
    the options hold a truthy value under its name, its [satisfy] method is
    called next; otherwise [c] is skipped: the run is the one of the entry
    without [c]. *)
Lemma checkSpecWith_activation index (prop : Property) (wildcard : object)
    specM schema opt (pre : list SpecConstraint) c (rest : list SpecConstraint) :
  lookupIndex index prop = pre ++ c :: rest →
  (∀ c', c' ∈ pre → passes c' specM schema opt) →
  (strict c = true →
     ∃ t, (checkSpecWith toShorthand index prop wildcard specM schema opt).1
          = passTrace pre specM schema opt ++ SatisfyCalled (name c) :: t)
  ∧ (strict c = false → truthy (optGet opt (name c)) = true →
     ∃ t, (checkSpecWith toShorthand index prop wildcard specM schema opt).1
          = passTrace pre specM schema opt ++ SatisfyCalled (name c) :: t)
  ∧ (strict c = false → truthy (optGet opt (name c)) = false →
     checkSpecWith toShorthand index prop wildcard specM schema opt
     = checkConstraints toShorthand (pre ++ rest) wildcard specM schema opt).
Proof.
  intros Hentry Hpass. unfold checkSpecWith. rewrite Hentry.
  rewrite !checkConstraints_app by exact Hpass. rewrite checkConstraints_cons.
  assert (Hcalled : active opt c = true →
    ∃ t, (passTrace pre specM schema opt
          ++ (if active opt c
              then match satisfyModel c specM schema opt with
                   | (t, Ok true) =>
                       (t ++ (checkConstraints toShorthand rest wildcard specM
                                schema opt).1,
                        (checkConstraints toShorthand rest wildcard specM
                           schema opt).2)
                   | (t, Ok false) =>
                       (t ++ verboseLog toShorthand c wildcard specM opt,
                        Ok (Some ("(spec) " +:+ name c)))
                   | (t, Throw msg) => (t, Throw msg)
                   end
              else checkConstraints toShorthand rest wildcard specM schema opt).1)
         = passTrace pre specM schema opt ++ SatisfyCalled (name c) :: t).
  { intros ->. destruct (satisfyModel_head c specM schema opt) as [t Ht].
    destruct (satisfyModel c specM schema opt) as [t0 [[|] | msg]];
      cbn [fst snd] in *; subst t0; cbn; eauto. }
  split; [| split].
  - intros Hstrict. apply Hcalled. unfold active. by rewrite Hstrict.
  - intros _ Hopt. apply Hcalled. unfold active. rewrite Hopt. apply orb_true_r.
  - intros Hstrict Hopt. unfold active. rewrite Hstrict, Hopt. reflexivity.
Qed.

(** The short circuit of [checkSpec], over any index. *)
Lemma checkSpecWith_short_circuit index (prop : Property) (wildcard : object)
    specM schema opt :
  (∀ (pre : list SpecConstraint) c (rest : list SpecConstraint),
      lookupIndex index prop = pre ++ c :: rest →
      (∀ c', c' ∈ pre → passes c' specM schema opt) →
      active opt c = true →
      (satisfyModel c specM schema opt).2 = Ok false →
      checkSpecWith toShorthand index prop wildcard specM schema opt
      = (passTrace pre specM schema opt
           ++ (satisfyModel c specM schema opt).1
           ++ verboseLog toShorthand c wildcard specM opt,
         Ok (Some ("(spec) " +:+ name c)))
      ∧ (∀ e n,
           e ∈ (checkSpecWith toShorthand index prop wildcard specM schema opt).1 →
           calledRule e = Some n → n ∈ name <$> (pre ++ [c]))
      ∧ (∀ rest' : list SpecConstraint,
           checkConstraints toShorthand (pre ++ c :: rest') wildcard specM schema opt
           = checkSpecWith toShorthand index prop wildcard specM schema opt))
  ∧ ((∀ c, c ∈ lookupIndex index prop → passes c specM schema opt) →
     (checkSpecWith toShorthand index prop wildcard specM schema opt).2 = Ok None)
  ∧ (index !! toKey prop = None →
     checkSpecWith toShorthand index prop wildcard specM schema opt = ([], Ok None)).
Proof.
  split; [| split].
  - intros pre c rest Hentry Hpass Hact Hfalse.
    assert (Hrun : ∀ rest' : list SpecConstraint,
              checkConstraints toShorthand (pre ++ c :: rest') wildcard specM
                schema opt
              = (passTrace pre specM schema opt
                   ++ (satisfyModel c specM schema opt).1
                   ++ verboseLog toShorthand c wildcard specM opt,
                 Ok (Some ("(spec) " +:+ name c)))).
    { intros rest'. rewrite checkConstraints_app by exact Hpass.
      rewrite checkConstraints_cons, Hact.
      destruct (satisfyModel c specM schema opt) as [t r]. cbn in Hfalse.
      subst r. reflexivity. }
    unfold checkSpecWith. rewrite Hentry, Hrun.
    split; [reflexivity |]. split; [| intros rest'; apply Hrun].
    cbn [fst]. intros e n He Hn. rewrite fmap_app. cbn [fmap list_fmap].
    rewrite !elem_of_app in He. rewrite elem_of_app.
    destruct He as [He | [He | He]].
    + left. unfold passTrace in He. apply list_elem_of_In, in_flat_map in He.
      destruct He as (c' & Hc' & He). apply list_elem_of_In in Hc'.
      destruct (active opt c'); [| destruct He].
      apply list_elem_of_In, satisfyModel_trace in He.
      rewrite He in Hn. injection Hn as <-. by apply list_elem_of_fmap_2.
    + right. apply satisfyModel_trace in He. rewrite He in Hn.
      injection Hn as <-. apply list_elem_of_here.
    + unfold verboseLog in He. destruct (truthy (optGet opt "verbose")).
      * apply list_elem_of_singleton in He as ->. discriminate Hn.
      * by apply elem_of_nil in He.
  - intros Hpass. unfold checkSpecWith.
    rewrite <- (app_nil_r (lookupIndex index prop)).
    rewrite checkConstraints_app by exact Hpass. reflexivity.
  - intros Hnone. unfold checkSpecWith, lookupIndex. rewrite Hnone. reflexivity.
Qed.

End IncrementalChecker.

Section PropertyIndex.
Context {Schema : Type}.

Implicit Types (c : SpecConstraint (Schema := Schema)).
Implicit Types (index : PropIndex (list (SpecConstraint (Schema := Schema)))).

Lemma indexProperty_lookup c index (p : Property) (key : string) :
  default [] (indexProperty c index p !! key)
  = default [] (index !! key) ++ (if decide (toKey p = key) then [c] else []).
Proof.
  unfold indexProperty. destruct (decide (toKey p = key)) as [<- | Hne].
  - by rewrite !lookup_insert_eq.
  - rewrite !lookup_insert_ne by exact Hne. by rewrite app_nil_r.
Qed.

Lemma indexConstraint_lookup c index (key : string) :
  default [] (indexConstraint index c !! key)
  = default [] (index !! key)
    ++ flat_map (λ p, if decide (toKey p = key) then [c] else []) (properties c).
Proof.
  unfold indexConstraint. generalize (properties c) as props. intros props.
  revert index. induction props as [|p props IH]; intros index; cbn.
  - by rewrite app_nil_r.
  - rewrite IH, indexProperty_lookup. by rewrite <- app_assoc.
Qed.

Lemma fold_indexConstraint_lookup (catalogue : list SpecConstraint) index
    (key : string) :
  default [] (fold_left indexConstraint catalogue index !! key)
  = default [] (index !! key)
    ++ flat_map (λ c, flat_map (λ p, if decide (toKey p = key) then [c] else [])
                        (properties c)) catalogue.
Proof.
  revert index. induction catalogue as [|c catalogue IH]; intros index; cbn.
  - by rewrite app_nil_r.
  - rewrite IH, indexConstraint_lookup. by rewrite <- app_assoc.
Qed.

Lemma declared_once c (key : string) (props : list Property) :
  NoDup (toKey <$> props) →
  flat_map (λ p, if decide (toKey p = key) then [c] else []) props
  = if decide (key ∈ toKey <$> props) then [c] else [].
Proof.
  induction props as [|p props IH]; intros Hnodup; cbn.
  - destruct (decide (key ∈ [])) as [Hin | _]; [| reflexivity].
    by apply elem_of_nil in Hin.
  - apply NoDup_cons in Hnodup as [Hfresh Hnodup]. rewrite (IH Hnodup).
    destruct (decide (toKey p = key)) as [<- | Hne].
    + rewrite (decide_True (P := toKey p ∈ toKey p :: _))
        by apply list_elem_of_here.
      by rewrite decide_False by exact Hfresh.
    + destruct (decide (key ∈ toKey <$> props)) as [Hin | Hnin].
      * by rewrite decide_True by (by apply list_elem_of_further).
      * rewrite decide_False; [reflexivity |].
        rewrite elem_of_cons. intros [-> | Hin]; contradiction.
Qed.

(** The entry of a key holds the rules that declare it, in the order of
    the catalogue. *)
Lemma buildIndex_lookup (catalogue : list SpecConstraint) (p : Property) :
  (∀ c, c ∈ catalogue → NoDup (toKey <$> properties c)) →
  lookupIndex (buildIndex catalogue) p = filter (declares (toKey p)) catalogue.
Proof.
  intros Hnodup. unfold lookupIndex, buildIndex.
  rewrite fold_indexConstraint_lookup, lookup_empty. cbn [default app].
  induction catalogue as [|c catalogue IH]; [reflexivity |]. cbn [flat_map].
  rewrite IH by (intros c' Hc'; apply Hnodup; by apply list_elem_of_further).
  rewrite declared_once by apply Hnodup, list_elem_of_here.
  rewrite filter_cons.
  destruct (decide (toKey p ∈ toKey <$> properties c)) as [Hin | Hnin];
    destruct (decide (declares (toKey p) c)) as [Hd | Hnd];
    try reflexivity; contradiction.
Qed.

End PropertyIndex.

Section Catalogue.
Context `{table : PropertyTable} {Schema : Type}.
Context (JSON_stringify : value → string).
Context (isMeasure isDimension : value → bool).
Context (toShorthand : SpecQueryModel → string).
Context (rulePredicate : string → SpecConstraintChecker (Schema := Schema)).

Implicit Types (specM : SpecQueryModel) (schema : Schema) (opt : QueryConfig).

Local Abbreviation catalogue :=
  (SPEC_CONSTRAINTS JSON_stringify isMeasure isDimension rulePredicate).
Local Abbreviation byProperty :=
  (SPEC_CONSTRAINTS_BY_PROPERTY JSON_stringify isMeasure isDimension rulePredicate).

Lemma catalogue_names_NoDup : NoDup (name <$> catalogue).
Proof. compute_done. Qed.

Lemma catalogue_NoDup : NoDup catalogue.
Proof. apply (NoDup_fmap_1 name), catalogue_names_NoDup. Qed.

Lemma catalogue_properties_NoDup c :
  c ∈ catalogue → NoDup (toKey <$> properties c).
Proof.
  revert c. apply Forall_forall. unfold SPEC_CONSTRAINTS.
  repeat (apply Forall_cons; split; [compute_done |]).
  apply Forall_nil_2.
Qed.

(** Every property a rule of the catalogue declares is the mark, nested, or
    one of the encoding properties the catalogue names; a property table
    that knows these names supports every rule. *)
Lemma catalogue_properties_supported c (p : Property) :
  Forall (λ n, isEncodingTopLevelProperty n = true)
    ["channel"; "scale"; "type"; "bin"; "timeUnit"; "autoCount"; "aggregate";
     "field"] →
  c ∈ catalogue → p ∈ properties c → supportedProperty p = true.
Proof.
  intros Htable Hc Hp.
  assert (Hnames : forallb (λ c : SpecConstraint, forallb (λ p,
            match p with
            | Flat n =>
                contains ["mark"; "channel"; "scale"; "type"; "bin"; "timeUnit";
                          "autoCount"; "aggregate"; "field"] n
            | Nested _ _ => true
            end) (properties c)) catalogue = true) by (vm_compute; reflexivity).
  rewrite forallb_forall in Hnames.
  specialize (Hnames c (proj1 (list_elem_of_In _ _) Hc)).
  rewrite forallb_forall in Hnames.
  specialize (Hnames p (proj1 (list_elem_of_In _ _) Hp)).
  destruct p as [n | parent child]; [| reflexivity]. cbn.
  apply contains_spec, elem_of_cons in Hnames as [-> | Hn]; [reflexivity |].
  rewrite Forall_forall in Htable. rewrite (Htable n Hn). apply orb_true_r.
Qed.

Lemma catalogue_lookup (p : Property) :
  lookupIndex byProperty p = filter (declares (toKey p)) catalogue.
Proof. apply buildIndex_lookup, catalogue_properties_NoDup. Qed.

Lemma checkSpec_unfold :
  checkSpec JSON_stringify isMeasure isDimension toShorthand rulePredicate
  = checkSpecWith toShorthand byProperty.
Proof. reflexivity. Qed.

(** C6.  In the property index built from the catalogue, the entry of
    every property is the list of the rules that declare it, in
    registration order; hence a rule is in the entry of each property it
    declares, and no entry holds a rule twice.  The lookup of a property
    that no rule declares yields the empty list, and [checkSpec] on such
    a property makes no call and returns [null]. *)
Theorem property_index_complete :
  (∀ p : Property,
      lookupIndex byProperty p = filter (declares (toKey p)) catalogue)
  ∧ (∀ c (p : Property),
      c ∈ catalogue → p ∈ properties c →
      c ∈ lookupIndex byProperty p ∧ NoDup (lookupIndex byProperty p))
  ∧ (∀ (p : Property) (wildcard : object) specM schema opt,
      (∀ c, c ∈ catalogue → ¬ declares (toKey p) c) →
      lookupIndex byProperty p = []
      ∧ checkSpec JSON_stringify isMeasure isDimension toShorthand rulePredicate
          p wildcard specM schema opt = ([], Ok None)).
Proof.
  split; [exact catalogue_lookup |]. split.
  - intros c p Hc Hp. rewrite catalogue_lookup. split.
    + apply list_elem_of_filter. split; [| exact Hc].
      unfold declares. by apply list_elem_of_fmap_2.
    + apply NoDup_filter, catalogue_NoDup.
  - intros p wildcard specM schema opt Hnone.
    assert (Hempty : lookupIndex byProperty p = []).
    { rewrite catalogue_lookup.
      destruct (filter (declares (toKey p)) catalogue) as [|c l] eqn:Hf;
        [reflexivity |].
      assert (Hc : c ∈ filter (declares (toKey p)) catalogue)
        by (rewrite Hf; apply list_elem_of_here).
      apply list_elem_of_filter in Hc as [Hd Hc]. by destruct (Hnone c Hc). }
    split; [exact Hempty |].
    rewrite checkSpec_unfold, checkSpecWith_eq, Hempty. reflexivity.
Qed.

(** The first eighteen rules of the catalogue are the cheap ones, the last
    four the expensive ones. *)
Lemma catalogue_tiers :
  Forall (λ c, name c ∉ EXPENSIVE_TIER) (take 18 catalogue)
  ∧ Forall (λ c, name c ∈ EXPENSIVE_TIER) (drop 18 catalogue).
Proof. split; compute_done. Qed.

(** In every entry of the index the cheap rules come before the expensive
    ones. *)
Lemma entry_tiers (p : Property) (r1 r2 : SpecConstraint) :
  r1 ∈ lookupIndex byProperty p → r2 ∈ lookupIndex byProperty p →
  name r1 ∉ EXPENSIVE_TIER → name r2 ∈ EXPENSIVE_TIER →
  ∃ pre mid rest : list SpecConstraint,
    lookupIndex byProperty p = pre ++ r1 :: mid ++ r2 :: rest.
Proof.
  destruct catalogue_tiers as [Hcheap Hexpensive].
  rewrite Forall_forall in Hcheap, Hexpensive.
  pose proof (catalogue_lookup p) as Hentry.
  rewrite <- (take_drop 18 catalogue), filter_app in Hentry. rewrite Hentry.
  intros H1 H2 Hr1 Hr2. apply elem_of_app in H1, H2.
  destruct H1 as [H1 | H1].
  2: { apply list_elem_of_filter in H1 as [_ H1]. by destruct (Hr1 (Hexpensive _ H1)). }
  destruct H2 as [H2 | H2].
  1: { apply list_elem_of_filter in H2 as [_ H2]. by destruct (Hcheap _ H2). }
  apply list_elem_of_split in H1 as (pre & mid1 & ->).
  apply list_elem_of_split in H2 as (mid2 & rest & ->).
  exists pre, (mid1 ++ mid2), rest. by rewrite <- !app_assoc.
Qed.

Lemma entry_catalogue (p : Property) (c : SpecConstraint) :
  c ∈ lookupIndex byProperty p → c ∈ catalogue.
Proof.
  rewrite catalogue_lookup. intros Hc.
  by apply list_elem_of_filter in Hc as [_ Hc].
Qed.

Lemma entry_NoDup (p : Property) : NoDup (lookupIndex byProperty p).
Proof. rewrite catalogue_lookup. apply NoDup_filter, catalogue_NoDup. Qed.

(** In an entry of the index no other rule bears the name of a rule. *)
Lemma entry_name_fresh (p : Property) (pre : list SpecConstraint)
    (c : SpecConstraint) (rest : list SpecConstraint) (c' : SpecConstraint) :
  lookupIndex byProperty p = pre ++ c :: rest →
  c' ∈ pre ++ rest → name c' ≠ name c.
Proof.
  intros Hentry Hc' Hname.
  pose proof (entry_NoDup p) as Hnodup. rewrite Hentry in Hnodup.
  assert (Heq : c' = c).
  { apply (unique_name catalogue); [apply catalogue_names_NoDup | | | exact Hname].
    - apply (entry_catalogue p). rewrite Hentry.
      apply elem_of_app. right. apply list_elem_of_here.
    - apply (entry_catalogue p). rewrite Hentry.
      apply elem_of_app in Hc' as [Hc' | Hc']; apply elem_of_app;
        [by left | right; by apply list_elem_of_further]. }
  subst c'. apply NoDup_app in Hnodup as (_ & Hpre & Hrest).
  apply NoDup_cons in Hrest as [Hfresh _].
  apply elem_of_app in Hc' as [Hc' | Hc'].
  - apply (Hpre c Hc'), list_elem_of_here.
  - by apply Hfresh.
Qed.

(** C3 (amended).  Let a rule not tolerate wildcards
    ([allowWildcardForProperties] is [false]) and declare only properties
    of the three kinds the check handles (mark, encoding, nested).  If
    one of them is currently a wildcard somewhere it applies (the mark;
    a usable encoding, one that [getEncodings] returns, holding a wildcard
    under the property; a usable encoding whose parent object exists and
    holds a wildcard child), then the [satisfy] method answers [true] and
    its trace shows no call of the predicate; the loop of [checkSpec],
    over any index in which the rule's name is its own, does not return
    that name; and when the rule is one of the catalogue, [checkSpec] does
    not return its name, whatever the property checked. *)
Theorem satisfy_skips_wildcarded (c : SpecConstraint) specM schema opt :
  allowWildcardForProperties c = false →
  (∀ p, p ∈ properties c → supportedProperty p = true) →
  (∃ p, p ∈ properties c ∧ wildcardedIn specM p) →
  satisfyModel c specM schema opt = ([SatisfyCalled (name c)], Ok true)
  ∧ (∀ (index : PropIndex (list SpecConstraint)) (prop : Property)
       (wildcard : object),
       (∀ c', c' ∈ lookupIndex index prop → name c' = name c → c' = c) →
       (checkSpecWith toShorthand index prop wildcard specM schema opt).2
       ≠ Ok (Some ("(spec) " +:+ name c)))
  ∧ (c ∈ catalogue →
     ∀ (prop : Property) (wildcard : object),
       (checkSpec JSON_stringify isMeasure isDimension toShorthand rulePredicate
          prop wildcard specM schema opt).2
       ≠ Ok (Some ("(spec) " +:+ name c))).
Proof.
  intros Hallow Hsupp Hwild.
  destruct (checkSpecWith_skips_wildcarded toShorthand c specM schema opt Hallow
              Hsupp Hwild) as [Hskip Hcheck].
  split; [exact Hskip |]. split; [exact Hcheck |].
  intros Hc prop wildcard. rewrite checkSpec_unfold. apply Hcheck.
  intros c' Hc' Hname.
  apply (unique_name catalogue); [apply catalogue_names_NoDup | exact Hc | |
                                  exact Hname].
  by apply (entry_catalogue prop).
Qed.

(** C4.  Let [checkSpec] reach a rule [c] of the entry that the index
    built from the catalogue holds for the property, every rule before it
    being passed.  If [c] is strict, its [satisfy] method is called next,
    whatever the options hold under its name (no entry, a falsy one, a
    truthy one).  If [c] is not strict, its [satisfy] method is called next
    when the options hold a truthy value under its own name; otherwise [c]
    is skipped and treated as satisfied: the run of [checkSpec] is the one
    over the entry without [c], and no call it makes is a call of [c]. *)
Theorem strict_always_active (prop : Property) (wildcard : object)
    specM schema opt (pre : list SpecConstraint) (c : SpecConstraint)
    (rest : list SpecConstraint) :
  lookupIndex byProperty prop = pre ++ c :: rest →
  (∀ c', c' ∈ pre → passes c' specM schema opt) →
  (strict c = true →
     ∃ t, (checkSpec JSON_stringify isMeasure isDimension toShorthand rulePredicate
             prop wildcard specM schema opt).1
          = passTrace pre specM schema opt ++ SatisfyCalled (name c) :: t)
  ∧ (strict c = false → truthy (optGet opt (name c)) = true →
     ∃ t, (checkSpec JSON_stringify isMeasure isDimension toShorthand rulePredicate
             prop wildcard specM schema opt).1
          = passTrace pre specM schema opt ++ SatisfyCalled (name c) :: t)
  ∧ (strict c = false → truthy (optGet opt (name c)) = false →
     checkSpec JSON_stringify isMeasure isDimension toShorthand rulePredicate
       prop wildcard specM schema opt
     = checkConstraints toShorthand (pre ++ rest) wildcard specM schema opt
     ∧ ∀ e : event,
         e ∈ (checkSpec JSON_stringify isMeasure isDimension toShorthand
                rulePredicate prop wildcard specM schema opt).1 →
         calledRule e ≠ Some (name c)).
Proof.
  intros Hentry Hpass. rewrite checkSpec_unfold.
  destruct (checkSpecWith_activation toShorthand byProperty prop wildcard specM
              schema opt pre c rest Hentry Hpass)
    as (Hstrict & Henabled & Hskipped).
  split; [exact Hstrict |]. split; [exact Henabled |].
  intros Hs Hopt. specialize (Hskipped Hs Hopt).
  split; [exact Hskipped |].
  rewrite Hskipped. intros e He Hn.
  apply (checkConstraints_called _ _ _ _ _ _ _ _ He) in Hn
    as (c' & Hc' & _ & Hname).
  by apply (entry_name_fresh prop pre c rest c' Hentry Hc').
Qed.

(** C5.  [checkSpec] walks the index entry of the property in order.
    At the first active rule [c] whose [satisfy] method answers [false],
    every rule before it being passed, it returns ['(spec) '] followed by
    the name of [c]; the calls it made are those of the rules before [c]
    and of [c] itself, so no rule after [c] has its predicate called, and
    the run is the same whatever follows [c] in the entry.  When every
    rule of the entry is passed the result is [null], and so it is, with
    no call made, when the index has no entry for the property.  In the
    index built from the catalogue every cheap rule of an entry comes
    before every expensive one, so that an expensive rule follows the
    cheap rule that is reported. *)
Theorem first_violation_short_circuit
    (index : PropIndex (list (SpecConstraint (Schema := Schema))))
    (prop : Property) (wildcard : object) specM schema opt :
  (∀ (pre : list SpecConstraint) (c : SpecConstraint) (rest : list SpecConstraint),
      lookupIndex index prop = pre ++ c :: rest →
      (∀ c', c' ∈ pre → passes c' specM schema opt) →
      active opt c = true →
      (satisfyModel c specM schema opt).2 = Ok false →
      checkSpecWith toShorthand index prop wildcard specM schema opt
      = (passTrace pre specM schema opt
           ++ (satisfyModel c specM schema opt).1
           ++ verboseLog toShorthand c wildcard specM opt,
         Ok (Some ("(spec) " +:+ name c)))
      ∧ (∀ e n,
           e ∈ (checkSpecWith toShorthand index prop wildcard specM schema opt).1 →
           calledRule e = Some n → n ∈ name <$> (pre ++ [c]))
      ∧ (∀ rest' : list SpecConstraint,
           checkConstraints toShorthand (pre ++ c :: rest') wildcard specM schema opt
           = checkSpecWith toShorthand index prop wildcard specM schema opt))
  ∧ ((∀ c, c ∈ lookupIndex index prop → passes c specM schema opt) →
     (checkSpecWith toShorthand index prop wildcard specM schema opt).2 = Ok None)
  ∧ (index !! toKey prop = None →
     checkSpecWith toShorthand index prop wildcard specM schema opt = ([], Ok None))
  ∧ checkSpec JSON_stringify isMeasure isDimension toShorthand rulePredicate
    = checkSpecWith toShorthand byProperty
  ∧ (∀ r1 r2 : SpecConstraint,
       r1 ∈ lookupIndex byProperty prop → r2 ∈ lookupIndex byProperty prop →
       name r1 ∉ EXPENSIVE_TIER → name r2 ∈ EXPENSIVE_TIER →
       ∃ pre mid rest : list SpecConstraint,
         lookupIndex byProperty prop = pre ++ r1 :: mid ++ r2 :: rest).
Proof.
  destruct (checkSpecWith_short_circuit toShorthand index prop wildcard specM
              schema opt) as (Hfirst & Hall & Hnone).
  split; [exact Hfirst |]. split; [exact Hall |]. split; [exact Hnone |].
  split; [exact checkSpec_unfold |]. intros r1 r2. apply entry_tiers.
Qed.

End Catalogue.

Section MarkRules.
Context {Schema : Type}.
Context (JSON_stringify : value → string).
Context (isMeasure isDimension : value → bool).

Implicit Types (specM : SpecQueryModel) (schema : Schema) (opt : QueryConfig).

Lemma channelUsed_spec specM (channel : string) :
  channelUsed specM channel = true ↔
  ∃ encQ : object,
    encQ ∈ encodings (specQuery specM)
    ∧ isDisabledAutoCountQuery (VObj encQ) = false
    ∧ field encQ "channel" = VStr channel.
Proof.
  unfold channelUsed, getEncodings. rewrite existsb_exists. split.
  - intros (encQ & Hin & Hch). exists encQ.
    apply list_elem_of_In, list_elem_of_filter in Hin as [Hen Hin].
    repeat split; try assumption.
    destruct (field encQ "channel"); try discriminate Hch.
    cbn in Hch. apply String.eqb_eq in Hch. by subst.
  - intros (encQ & Hin & Hen & Hch). exists encQ. split.
    + apply list_elem_of_In, list_elem_of_filter. by split.
    + rewrite Hch. cbn. apply String.eqb_refl.
Qed.

(** C8.  On a model whose mark is the concrete mark [m], rule
    [hasAllRequiredChannelsForMark] answers as follows: for [area] and
    [line], whether both [x] and [y] are used; for [text], whether [text]
    is used; for [bar], [circle], [square], [tick], [rule] and [rect],
    whether [x] or [y] is used; for [point], whether [x] or [y] is used
    or no channel is enumerated anywhere in the model.  A channel is used
    when a usable encoding of the query binds exactly it. *)
Theorem required_channels_per_mark specM schema opt (m : string) :
  getMark specM = VStr m →
  (m = Mark.AREA ∨ m = Mark.LINE →
     hasAllRequiredChannelsForMark JSON_stringify specM schema opt
     = Ok (channelUsed specM Channel.X && channelUsed specM Channel.Y))
  ∧ (m = Mark.TEXT →
     hasAllRequiredChannelsForMark JSON_stringify specM schema opt
     = Ok (channelUsed specM Channel.TEXT))
  ∧ (m ∈ [Mark.BAR; Mark.CIRCLE; Mark.SQUARE; Mark.TICK; Mark.RULE; Mark.RECT] →
     hasAllRequiredChannelsForMark JSON_stringify specM schema opt
     = Ok (channelUsed specM Channel.X || channelUsed specM Channel.Y))
  ∧ (m = Mark.POINT →
     hasAllRequiredChannelsForMark JSON_stringify specM schema opt
     = Ok (negb (hasProperty (wildcardIndex specM) Property.CHANNEL)
           || channelUsed specM Channel.X || channelUsed specM Channel.Y))
  ∧ (∀ channel : string,
       channelUsed specM channel = true ↔
       ∃ encQ : object,
         encQ ∈ encodings (specQuery specM)
         ∧ isDisabledAutoCountQuery (VObj encQ) = false
         ∧ field encQ "channel" = VStr channel).
Proof.
  intros Hmark. unfold hasAllRequiredChannelsForMark. rewrite Hmark.
  split; [| split; [| split; [| split]]].
  - intros [-> | ->]; reflexivity.
  - intros ->. reflexivity.
  - intros Hm. apply list_elem_of_In in Hm. cbn in Hm.
    destruct Hm as [<- | [<- | [<- | [<- | [<- | [<- | []]]]]]]; reflexivity.
  - intros ->. reflexivity.
  - apply channelUsed_spec.
Qed.

(** The marks the two [switch] statements have a [case] for. *)
Lemma switchReturn_no_case {A : Type} (m : string)
    (cases : list (list string * A)) (otherwise : A) :
  (∀ c, c ∈ cases → m ∉ c.1) →
  switchReturn (VStr m) cases otherwise = otherwise.
Proof.
  intros Hno. unfold switchReturn.
  destruct (List.find _ cases) as [c |] eqn:Hfind; [| reflexivity].
  apply find_some in Hfind as [Hin Hc]. apply list_elem_of_In in Hin.
  exfalso. apply (Hno c Hin). unfold containsValue in Hc.
  apply existsb_exists in Hc as (lit & Hlit & Heq). cbn in Heq.
  apply String.eqb_eq in Heq as ->. by apply list_elem_of_In.
Qed.

(** C9.  When the mark of the model is a concrete mark that has no
    [case] in the [switch] of the rule (the ten marks [area], [line],
    [text], [bar], [circle], [square], [tick], [rule], [rect], [point]
    have one), the predicates of [hasAllRequiredChannelsForMark] and of
    [hasAppropriateGraphicTypeForMark] throw an error whose message ends
    with the mark (serialised by [JSON.stringify] in the first); neither
    returns a truth value. *)
Theorem unknown_mark_throws specM schema opt (m : string) :
  getMark specM = VStr m →
  m ∉ [Mark.AREA; Mark.LINE; Mark.TEXT; Mark.BAR; Mark.CIRCLE; Mark.SQUARE;
       Mark.TICK; Mark.RULE; Mark.RECT; Mark.POINT] →
  hasAllRequiredChannelsForMark JSON_stringify specM schema opt
  = Throw ("hasAllRequiredChannelsForMark not implemented for mark"
           +:+ JSON_stringify (VStr m))
  ∧ hasAppropriateGraphicTypeForMark isMeasure isDimension specM schema opt
    = Throw ("hasAllRequiredChannelsForMark not implemented for mark" +:+ m)
  ∧ (∀ b : bool,
       hasAllRequiredChannelsForMark JSON_stringify specM schema opt ≠ Ok b
       ∧ hasAppropriateGraphicTypeForMark isMeasure isDimension specM schema opt
         ≠ Ok b).
Proof.
  intros Hmark Hm.
  assert (Hno : ∀ lits : list string,
            (∀ lit, lit ∈ lits →
               lit ∈ [Mark.AREA; Mark.LINE; Mark.TEXT; Mark.BAR; Mark.CIRCLE;
                      Mark.SQUARE; Mark.TICK; Mark.RULE; Mark.RECT; Mark.POINT]) →
            m ∉ lits).
  { intros lits Hsub Hin. apply Hm, Hsub, Hin. }
  assert (H1 : hasAllRequiredChannelsForMark JSON_stringify specM schema opt
               = Throw ("hasAllRequiredChannelsForMark not implemented for mark"
                        +:+ JSON_stringify (VStr m))).
  { unfold hasAllRequiredChannelsForMark. rewrite Hmark.
    apply switchReturn_no_case. intros c Hc. apply Hno. intros lit Hlit.
    apply list_elem_of_In in Hc. cbn in Hc.
    destruct Hc as [<- | [<- | [<- | [<- | []]]]];
      apply list_elem_of_In in Hlit; apply list_elem_of_In; cbn in *; tauto. }
  assert (H2 : hasAppropriateGraphicTypeForMark isMeasure isDimension specM
                 schema opt
               = Throw ("hasAllRequiredChannelsForMark not implemented for mark"
                        +:+ m)).
  { unfold hasAppropriateGraphicTypeForMark. rewrite Hmark.
    apply switchReturn_no_case. intros c Hc. apply Hno. intros lit Hlit.
    apply list_elem_of_In in Hc. cbn [In] in Hc.
    destruct Hc as [<- | [<- | [<- | [<- | [<- | []]]]]];
      apply list_elem_of_In in Hlit; apply list_elem_of_In; cbn in *; tauto. }
  split; [exact H1 |]. split; [exact H2 |].
  intros b. rewrite H1, H2. split; discriminate.
Qed.

End MarkRules.

(* ===================================================================== *)
(** * 10. The properties at concrete inputs *)
(* ===================================================================== *)

(** The wildcard-presence theorem on a query whose channel is a wildcard
    object: with [channel] excluded nothing is reported, without exclusion
    the top-level test reports it. *)
Lemma hasWildcard_scan_witness :
  (∀ k, k ∈ ownKeys (VObj channelWildcard) → k = "enum" ∨ k = "name")
  ∧ nestedWildcard (excludeMap (Some [Flat "channel"])) "channel"
      (VObj channelWildcard) = false
  ∧ hasWildcard (table := specPropertyTable) channelWildcardQuery
      (Some [Flat "channel"]) = false
  ∧ isWildcard (field [("channel", VObj channelWildcard)] "channel") = true.
Proof.
  assert (Hkeys : ∀ k, k ∈ ownKeys (VObj channelWildcard) → k = "enum" ∨ k = "name").
  { intros k Hk. apply list_elem_of_In in Hk. cbn in Hk.
    destruct Hk as [<- | [<- | []]]; [right | left]; reflexivity. }
  destruct (hasWildcard_scan (table := specPropertyTable) channelWildcardQuery
              (Some [Flat "channel"])) as (_ & Hobject & Hreport).
  split; [exact Hkeys |].
  split; [exact (Hobject "channel" channelWildcard Hkeys) |].
  split; reflexivity.
Defined.

(** With the property table of the design document: the channel of the
    query is the short wildcard, [channel] is excluded, and [hasWildcard]
    answers [true]. *)
Lemma hasWildcard_reports_excluded_wildcard_witness :
  isEncodingTopLevelProperty (PropertyTable := specPropertyTable) "channel" = true
  ∧ isWildcard (VStr "?") = true
  ∧ hasWildcard (table := specPropertyTable) shortWildcardQuery
      (Some [Property.CHANNEL]) = true
  ∧ hasWildcard (table := specPropertyTable) shortWildcardQuery
      (Some [Property.CHANNEL; Nested "channel" "0"]) = false.
Proof.
  destruct (hasWildcard_reports_excluded_wildcard (table := specPropertyTable)
              eq_refl) as (_ & Hreported & _ & _ & _ & _ & Hsilent).
  split; [reflexivity |]. split; [reflexivity |].
  split; [exact Hreported | exact Hsilent].
Defined.

(** The [fromSpec] theorem on the document of the first test: the second
    encoding is that of [y], and its [null] scale has become [false]. *)
Lemma fromSpec_spec_witness :
  ownKeys (field pointSpec "encoding") !! 1 = Some "y"
  ∧ ∃ encQ : object,
      encodings (fromSpec (table := specPropertyTable) pointSpec) !! 1 = Some encQ
      ∧ field encQ "channel" = VStr "y"
      ∧ field encQ "scale" = VBool false
      ∧ field encQ "type" = VStr "quantitative".
Proof.
  assert (Hy : ownKeys (field pointSpec "encoding") !! 1 = Some "y")
    by (vm_compute; reflexivity).
  split; [exact Hy |].
  destruct (fromSpec_spec (table := specPropertyTable) pointSpec)
    as (_ & _ & _ & _ & _ & Hencodings).
  destruct (Hencodings 1 "y" Hy) as (encQ & Hi & Hchannel & Hprops & _).
  exists encQ. split; [exact Hi |].
  split; [rewrite Hchannel; vm_compute; reflexivity |].
  split.
  - rewrite (Hprops "scale") by discriminate. vm_compute. reflexivity.
  - rewrite (Hprops "type") by discriminate. vm_compute. reflexivity.
Defined.

(** C3 (as the claim states it, refuted).  In
    [{mark: 'bar', encodings: [{channel: '?', autoCount: false}]}] the
    rule [hasAllRequiredChannelsForMark] does not tolerate wildcards and
    declares the channel, and the channel is present and a wildcard in an
    encoding of the query; yet that encoding is a disabled auto-count,
    which [getEncodings] leaves out, so the [satisfy] method calls the
    predicate, which answers [false], and [checkSpec] returns the name of
    the rule. *)
Lemma satisfy_reads_usable_encodings_only :
  allowWildcardForProperties requiredChannelsRule = false
  ∧ Property.CHANNEL ∈ properties requiredChannelsRule
  ∧ (∃ encQ : object,
       encQ ∈ encodings (specQuery disabledCountModel)
       ∧ hasOwnProperty (VObj encQ) "channel" = true
       ∧ isWildcard (field encQ "channel") = true)
  ∧ getEncodings disabledCountModel = []
  ∧ satisfyModel (table := specPropertyTable) requiredChannelsRule
      disabledCountModel tt ∅
    = ([ SatisfyCalled "hasAllRequiredChannelsForMark";
         PredicateCalled "hasAllRequiredChannelsForMark" ], Ok false)
  ∧ (checkSpec (table := specPropertyTable) JSON.stringify (λ _, false)
       (λ _, false) demoShorthand (λ _ _ _ _, Ok true) Property.MARK []
       disabledCountModel tt ∅).2
    = Ok (Some "(spec) hasAllRequiredChannelsForMark").
Proof.
  split; [reflexivity |]. split; [apply list_elem_of_here |].
  split.
  { exists [("channel", VStr "?"); ("autoCount", VBool false)].
    split; [apply list_elem_of_here |]. split; reflexivity. }
  split; [reflexivity |]. split; vm_compute; reflexivity.
Qed.

(** The skip on a wildcard: the mark of the model is ['?'], the rule
    [hasAllRequiredChannelsForMark] is passed without a call of its
    predicate, and [checkSpec] on the mark does not report it. *)
Lemma satisfy_skips_wildcarded_witness :
  allowWildcardForProperties requiredChannelsRule = false
  ∧ wildcardedIn wildcardMarkModel Property.MARK
  ∧ satisfyModel (table := specPropertyTable) requiredChannelsRule
      wildcardMarkModel tt ∅
    = ([SatisfyCalled "hasAllRequiredChannelsForMark"], Ok true)
  ∧ (checkSpec (table := specPropertyTable) JSON.stringify (λ _, false)
       (λ _, false) demoShorthand (λ _ _ _ _, Ok true) Property.MARK []
       wildcardMarkModel tt ∅).2
    ≠ Ok (Some "(spec) hasAllRequiredChannelsForMark").
Proof.
  assert (Hsupported : ∀ p, p ∈ properties requiredChannelsRule →
                            supportedProperty (table := specPropertyTable) p = true).
  { intros p Hp. apply list_elem_of_In in Hp. cbn in Hp.
    destruct Hp as [<- | [<- | []]]; reflexivity. }
  assert (Hwild : ∃ p, p ∈ properties requiredChannelsRule
                       ∧ wildcardedIn wildcardMarkModel p).
  { exists Property.MARK. split; [| reflexivity].
    apply list_elem_of_In. cbn. tauto. }
  assert (Hrule : requiredChannelsRule ∈ demoCatalogue).
  { apply (list_elem_of_lookup_2 _ 4). reflexivity. }
  destruct (satisfy_skips_wildcarded (table := specPropertyTable) JSON.stringify
              (λ _, false) (λ _, false) demoShorthand (λ _ _ _ _, Ok true)
              requiredChannelsRule wildcardMarkModel tt ∅ eq_refl Hsupported Hwild)
    as (Hskip & _ & Hcheck).
  split; [reflexivity |]. split; [reflexivity |]. split; [exact Hskip |].
  exact (Hcheck Hrule Property.MARK []).
Defined.

(** The activation theorem on the entry of the mark.  For a bar chart
    without encodings the strict rule [hasAllRequiredChannelsForMark] comes
    third and [checkSpec] calls it although the options are empty.  For a
    text chart that binds [text] the first three rules are passed, and the
    fourth, [omitBarLineAreaWithOcclusion], which is not strict, is
    skipped under the empty options: no call of the run is a call of it. *)
Lemma strict_always_active_witness :
  strict requiredChannelsRule = true
  ∧ optGet (∅ : QueryConfig) (name requiredChannelsRule) = VUndefined
  ∧ (∃ t, (checkSpec (table := specPropertyTable) JSON.stringify (λ _, false)
             (λ _, false) demoShorthand (λ _ _ _ _, Ok true) Property.MARK []
             emptyBarModel tt ∅).1
          = [ SatisfyCalled "alwaysIncludeZeroInScaleWithBarMark";
              PredicateCalled "alwaysIncludeZeroInScaleWithBarMark";
              SatisfyCalled "channelPermittedByMarkType";
              PredicateCalled "channelPermittedByMarkType";
              SatisfyCalled "hasAllRequiredChannelsForMark" ] ++ t)
  ∧ (name <$> lookupIndex demoIndex Property.MARK) !! 3
    = Some "omitBarLineAreaWithOcclusion"
  ∧ (strict <$> lookupIndex demoIndex Property.MARK) !! 3 = Some false
  ∧ ∀ e : event,
      e ∈ (checkSpec (table := specPropertyTable) JSON.stringify (λ _, false)
             (λ _, false) demoShorthand (λ _ _ _ _, Ok true) Property.MARK []
             boundTextModel tt ∅).1 →
      calledRule e ≠ Some "omitBarLineAreaWithOcclusion".
Proof.
  split; [reflexivity |]. split; [reflexivity |].
  assert (Hpass : ∀ c', c' ∈ take 2 (lookupIndex demoIndex Property.MARK) →
                        passes (table := specPropertyTable) c' emptyBarModel tt ∅).
  { intros c' Hc' _. apply list_elem_of_In in Hc'. vm_compute in Hc'.
    destruct Hc' as [<- | [<- | []]]; reflexivity. }
  destruct (strict_always_active (table := specPropertyTable) JSON.stringify
              (λ _, false) (λ _, false) demoShorthand (λ _ _ _ _, Ok true)
              Property.MARK [] emptyBarModel tt ∅
              (take 2 (lookupIndex demoIndex Property.MARK)) requiredChannelsRule
              (drop 3 (lookupIndex demoIndex Property.MARK)) eq_refl Hpass)
    as (Hstrict & _ & _).
  split.
  { destruct (Hstrict eq_refl) as [t Ht]. exists t. rewrite Ht. reflexivity. }
  split; [vm_compute; reflexivity |]. split; [vm_compute; reflexivity |].
  destruct (lookupIndex catalogueIndex Property.MARK !! 3) as [c |] eqn:Hc.
  2: { vm_compute in Hc. discriminate Hc. }
  assert (Hpass' : ∀ c', c' ∈ take 3 (lookupIndex catalogueIndex Property.MARK) →
                         passes (table := specPropertyTable) c' boundTextModel tt ∅).
  { assert (Hall : forallb (λ c' : SpecConstraint,
                match (satisfyModel (table := specPropertyTable) c' boundTextModel
                         tt ∅).2 with
                | Ok true => true
                | _ => false
                end) (take 3 (lookupIndex catalogueIndex Property.MARK)) = true)
      by (vm_compute; reflexivity).
    rewrite forallb_forall in Hall. intros c' Hc' _.
    apply list_elem_of_In, Hall in Hc'.
    by destruct (satisfyModel c' boundTextModel tt ∅).2 as [[|] | msg]. }
  assert (Hentry : lookupIndex catalogueIndex Property.MARK
                   = take 3 (lookupIndex catalogueIndex Property.MARK)
                     ++ c :: drop 4 (lookupIndex catalogueIndex Property.MARK)).
  { symmetry. by apply take_drop_middle. }
  assert (Hname : name c = "omitBarLineAreaWithOcclusion").
  { apply (f_equal (fmap name)) in Hc. vm_compute in Hc. by injection Hc. }
  assert (Hlax : strict c = false).
  { apply (f_equal (fmap strict)) in Hc. vm_compute in Hc. by injection Hc. }
  destruct (strict_always_active (table := specPropertyTable) JSON.stringify
              (λ _, false) (λ _, false) demoShorthand (λ _ _ _ _, Ok true)
              Property.MARK [] boundTextModel tt ∅
              (take 3 (lookupIndex catalogueIndex Property.MARK)) c
              (drop 4 (lookupIndex catalogueIndex Property.MARK)) Hentry Hpass')
    as (_ & _ & Hskipped).
  assert (Hopt : truthy (optGet (∅ : QueryConfig) (name c)) = false).
  { unfold optGet. by rewrite lookup_empty. }
  destruct (Hskipped Hlax Hopt) as [_ Hnocall].
  intros e He. rewrite <- Hname. by apply Hnocall.
Defined.

(** The short circuit on the entry of the mark, for a bar chart without
    encodings and with the expensive rule enabled: the cheap rule
    [hasAllRequiredChannelsForMark] is reported, and the predicate of
    [hasAppropriateGraphicTypeForMark], which would answer [false] too, is
    not called. *)
Lemma first_violation_short_circuit_witness :
  hasAppropriateGraphicTypeForMark (λ _, false) (λ _, false) emptyBarModel tt
    graphicTypeEnabled = Ok false
  ∧ (checkSpecWith (table := specPropertyTable) demoShorthand demoIndex Property.MARK []
       emptyBarModel tt graphicTypeEnabled).2
    = Ok (Some "(spec) hasAllRequiredChannelsForMark")
  ∧ PredicateCalled "hasAppropriateGraphicTypeForMark"
    ∉ (checkSpecWith (table := specPropertyTable) demoShorthand demoIndex Property.MARK []
         emptyBarModel tt graphicTypeEnabled).1.
Proof.
  split; [reflexivity |].
  assert (Hpass : ∀ c', c' ∈ take 2 (lookupIndex demoIndex Property.MARK) →
                        passes (table := specPropertyTable) c' emptyBarModel tt
                          graphicTypeEnabled).
  { intros c' Hc' _. apply list_elem_of_In in Hc'. vm_compute in Hc'.
    destruct Hc' as [<- | [<- | []]]; reflexivity. }
  destruct (first_violation_short_circuit (table := specPropertyTable)
              JSON.stringify (λ _, false) (λ _, false) demoShorthand
              (λ _ _ _ _, Ok true) demoIndex Property.MARK [] emptyBarModel tt
              graphicTypeEnabled)
    as (Hfirst & _).
  destruct (Hfirst (take 2 (lookupIndex demoIndex Property.MARK)) requiredChannelsRule
              (drop 3 (lookupIndex demoIndex Property.MARK)) eq_refl Hpass eq_refl
              eq_refl) as (Hrun & Hcalls & _).
  split; [by rewrite Hrun |].
  intros Hin. specialize (Hcalls _ _ Hin eq_refl).
  apply list_elem_of_In in Hcalls. vm_compute in Hcalls.
  repeat (destruct Hcalls as [Hcalls | Hcalls]; [discriminate Hcalls |]).
  destruct Hcalls.
Defined.

(** The index theorem on the catalogue: the rule
    [hasAllRequiredChannelsForMark] is in the entry of [channel], which
    holds no rule twice, and [checkSpec] on [transform], which no rule
    declares, returns [null]. *)
Lemma property_index_complete_witness :
  requiredChannelsRule ∈ demoCatalogue
  ∧ Property.CHANNEL ∈ properties requiredChannelsRule
  ∧ requiredChannelsRule ∈ lookupIndex demoIndex Property.CHANNEL
  ∧ NoDup (lookupIndex demoIndex Property.CHANNEL)
  ∧ lookupIndex demoIndex (Flat "transform") = []
  ∧ checkSpec (table := specPropertyTable) JSON.stringify (λ _, false) (λ _, false)
      demoShorthand (λ _ _ _ _, Ok true) (Flat "transform") [] emptyBarModel tt ∅
    = ([], Ok None).
Proof.
  assert (Hrule : requiredChannelsRule ∈ demoCatalogue).
  { apply (list_elem_of_lookup_2 _ 4). reflexivity. }
  assert (Hprop : Property.CHANNEL ∈ properties requiredChannelsRule).
  { apply list_elem_of_here. }
  assert (Hnone : ∀ c, c ∈ demoCatalogue → ¬ declares "transform" c).
  { apply Forall_forall. compute_done. }
  destruct (property_index_complete (table := specPropertyTable) (Schema := unit)
              JSON.stringify
              (λ _, false) (λ _, false) demoShorthand (λ _ _ _ _, Ok true))
    as (_ & Honce & Habsent).
  destruct (Honce requiredChannelsRule Property.CHANNEL Hrule Hprop) as [Hin Hnodup].
  destruct (Habsent (Flat "transform") [] emptyBarModel tt ∅ Hnone)
    as [Hempty Hcheck].
  repeat split; assumption.
Defined.

(** The required-channel theorem on the text mark: violated without a
    [text] channel, satisfied with one. *)
Lemma required_channels_per_mark_witness :
  getMark (textModel []) = VStr Mark.TEXT
  ∧ hasAllRequiredChannelsForMark (Schema := unit) JSON.stringify (textModel []) tt ∅
    = Ok false
  ∧ hasAllRequiredChannelsForMark (Schema := unit) JSON.stringify
      (textModel [[("channel", VStr "text"); ("field", VStr "a")]]) tt ∅
    = Ok true.
Proof.
  split; [reflexivity |]. split.
  - destruct (required_channels_per_mark (Schema := unit) JSON.stringify
                (textModel []) tt ∅ Mark.TEXT eq_refl) as (_ & Htext & _).
    rewrite (Htext eq_refl). reflexivity.
  - destruct (required_channels_per_mark (Schema := unit) JSON.stringify
                (textModel [[("channel", VStr "text"); ("field", VStr "a")]])
                tt ∅ Mark.TEXT eq_refl) as (_ & Htext & _).
    rewrite (Htext eq_refl). reflexivity.
Defined.

(** The unknown-mark theorem on the mark [geoshape]. *)
Lemma unknown_mark_throws_witness :
  getMark geoshapeModel = VStr "geoshape"
  ∧ hasAllRequiredChannelsForMark (Schema := unit) JSON.stringify geoshapeModel tt ∅
    = Throw ("hasAllRequiredChannelsForMark not implemented for mark"
             +:+ JSON.stringify (VStr "geoshape"))
  ∧ hasAppropriateGraphicTypeForMark (Schema := unit) (λ _, false) (λ _, false)
      geoshapeModel tt ∅
    = Throw "hasAllRequiredChannelsForMark not implemented for markgeoshape".
Proof.
  assert (Hunknown : "geoshape" ∉ [Mark.AREA; Mark.LINE; Mark.TEXT; Mark.BAR;
                                   Mark.CIRCLE; Mark.SQUARE; Mark.TICK; Mark.RULE;
                                   Mark.RECT; Mark.POINT]).
  { intros Hin. apply list_elem_of_In in Hin. cbn in Hin.
    repeat (destruct Hin as [Hin | Hin]; [discriminate Hin |]). destruct Hin. }
  destruct (unknown_mark_throws (Schema := unit) JSON.stringify (λ _, false)
              (λ _, false) geoshapeModel tt ∅ "geoshape" eq_refl Hunknown)
    as (Hrequired & Hgraphic & _).
  split; [reflexivity |]. split; [exact Hrequired | exact Hgraphic].
Defined.

(* ===================================================================== *)
(** * 11. Further properties of [src/query/spec.ts] *)
(* ===================================================================== *)

Section StackFacts.

(** One turn of the loop of [isImplicitStack], the [switch] without
    [break] spelled out. *)
Lemma stackStep_flags (f : StackFlags) (encQ : object) :
  stackStep f encQ
  = mkStackFlags
      (xUsed f || bindsField Channel.X encQ)
      (yUsed f || bindsField Channel.X encQ || bindsField Channel.Y encQ)
      (xOrYAggregateOrAutoCount f || aggregatesPosition encQ)
      (colorUsed f || bindsField Channel.X encQ || bindsField Channel.Y encQ
       || bindsField Channel.COLOR encQ).
Proof.
  unfold stackStep, bindsField, aggregatesPosition, channelCases.
  destruct f as [x y a c].
  destruct (isFieldQuery (VObj encQ)); cbn [andb].
  - cbn [switchFallthrough fold_left snd].
    destruct (eqStr (field encQ "channel") Channel.X);
      destruct (eqStr (field encQ "channel") Channel.Y);
      destruct (eqStr (field encQ "channel") Channel.COLOR);
      destruct (truthy (field encQ "aggregate"));
      cbn; rewrite ?orb_true_r, ?orb_false_r; reflexivity.
  - rewrite !orb_false_r.
    destruct (eqStr (field encQ "channel") Channel.X);
      destruct (eqStr (field encQ "channel") Channel.Y);
      destruct (isAutoCountQuery (VObj encQ));
      cbn; rewrite ?orb_true_r, ?orb_false_r; reflexivity.
Qed.

Lemma stackLoop_flags (l : list object) (f : StackFlags) :
  fold_left stackStep l f
  = mkStackFlags
      (xUsed f || existsb (bindsField Channel.X) l)
      (yUsed f || existsb (bindsField Channel.X) l || existsb (bindsField Channel.Y) l)
      (xOrYAggregateOrAutoCount f || existsb aggregatesPosition l)
      (colorUsed f || existsb (bindsField Channel.X) l
       || existsb (bindsField Channel.Y) l || existsb (bindsField Channel.COLOR) l).
Proof.
  revert f. induction l as [|encQ l IH]; intros f.
  - destruct f. cbn. by rewrite !orb_false_r.
  - cbn [fold_left existsb]. rewrite IH, stackStep_flags.
    cbn [xUsed yUsed xOrYAggregateOrAutoCount colorUsed]. f_equal.
    + by rewrite orb_assoc.
    + destruct (yUsed f), (bindsField Channel.X encQ), (bindsField Channel.Y encQ),
        (existsb (bindsField Channel.X) l), (existsb (bindsField Channel.Y) l);
        reflexivity.
    + by rewrite orb_assoc.
    + destruct (colorUsed f), (bindsField Channel.X encQ), (bindsField Channel.Y encQ),
        (bindsField Channel.COLOR encQ),
        (existsb (bindsField Channel.X) l), (existsb (bindsField Channel.Y) l),
        (existsb (bindsField Channel.COLOR) l); reflexivity.
Qed.

Lemma existsb_elem_of {A : Type} (f : A → bool) (l : list A) :
  existsb f l = true ↔ ∃ a, a ∈ l ∧ f a = true.
Proof.
  rewrite existsb_exists. split; intros (a & Hin & Ha); exists a;
    (split; [by apply list_elem_of_In | exact Ha]).
Qed.

Lemma existsb_Permutation {A : Type} (f : A → bool) (l l' : list A) :
  l ≡ₚ l' → existsb f l = existsb f l'.
Proof.
  induction 1 as [| x l l' _ IH | x y l | l l' l'' _ IH1 _ IH2]; cbn.
  - reflexivity.
  - by rewrite IH.
  - by destruct (f x), (f y).
  - by rewrite IH1.
Qed.

(** X1.  What [isImplicitStack] computes, for every query: it answers
    [true] exactly when no encoding stacks explicitly, some field-backed
    encoding binds [x], and some encoding on [x] or [y] is an aggregate
    (field-backed with a truthy [aggregate], or an auto-count that is not
    field-backed).  Neither a [y] nor a [color] encoding is needed: the
    [case Channel.X] block runs on into the blocks that set [yUsed] and
    [colorUsed]. *)
Theorem isImplicitStack_spec (q : SpecQuery) :
  isImplicitStack q = true ↔
  isExplicitStack q = false
  ∧ (∃ encQ : object, encQ ∈ encodings q ∧ bindsField Channel.X encQ = true)
  ∧ (∃ encQ : object, encQ ∈ encodings q ∧ aggregatesPosition encQ = true).
Proof.
  unfold isImplicitStack. destruct (isExplicitStack q).
  - split; [discriminate | intros [? _]; discriminate].
  - rewrite stackLoop_flags.
    cbn [xUsed yUsed xOrYAggregateOrAutoCount colorUsed orb].
    rewrite <- !existsb_elem_of.
    destruct (existsb (bindsField Channel.X) (encodings q)),
      (existsb aggregatesPosition (encodings q)); cbn; intuition congruence.
Qed.

(** X2.  The order of the encodings does not matter to the detectors of
    [src/query/spec.ts]: two queries whose encoding lists are permutations
    of each other get the same answer from [isAggregate],
    [isExplicitStack], [isImplicitStack] and [isStack], and, when they
    also have the same mark, from [hasWildcard] under every exclusion
    list. *)
Theorem detectors_ignore_encoding_order `{table : PropertyTable}
    (q q' : SpecQuery) :
  encodings q ≡ₚ encodings q' →
  isAggregate q = isAggregate q'
  ∧ isExplicitStack q = isExplicitStack q'
  ∧ isImplicitStack q = isImplicitStack q'
  ∧ isStack q = isStack q'
  ∧ (mark q = mark q' →
     ∀ exclude : option (list Property),
       hasWildcard q exclude = hasWildcard q' exclude).
Proof.
  intros Hperm.
  assert (Hagg : isAggregate q = isAggregate q')
    by (unfold isAggregate; by apply existsb_Permutation).
  assert (Hexp : isExplicitStack q = isExplicitStack q')
    by (unfold isExplicitStack; by apply existsb_Permutation).
  assert (Himp : isImplicitStack q = isImplicitStack q').
  { unfold isImplicitStack. rewrite Hexp, !stackLoop_flags.
    cbn [xUsed yUsed xOrYAggregateOrAutoCount colorUsed].
    by rewrite !(existsb_Permutation _ _ _ Hperm). }
  split; [exact Hagg |]. split; [exact Hexp |]. split; [exact Himp |].
  split; [unfold isStack; by rewrite Hexp, Himp |].
  intros Hmark exclude. unfold hasWildcard.
  by rewrite Hmark, (existsb_Permutation _ _ _ Hperm).
Qed.

End StackFacts.

Section WildcardFacts.
Context `{table : PropertyTable}.

(** [hasWildcard], read as a search. *)
Lemma hasWildcard_found (specQ : SpecQuery) (exclude : option (list Property)) :
  hasWildcard specQ exclude = true ↔
  (isWildcard (mark specQ) = true ∧ ¬ excludedKey exclude "mark")
  ∨ ∃ encQ : object,
      encQ ∈ encodings specQ ∧ encodingWildcard (excludeMap exclude) encQ = true.
Proof.
  unfold hasWildcard.
  destruct (isWildcard (mark specQ) && notExcluded (excludeMap exclude) "mark")
    eqn:Hmark.
  - split; [| reflexivity]. intros _. left.
    apply andb_true_iff in Hmark as [Hw Hex].
    split; [exact Hw |]. by apply notExcluded_spec.
  - rewrite existsb_elem_of. split; [by right |].
    intros [[Hw Hex] | Henc]; [| exact Henc].
    apply notExcluded_spec in Hex. rewrite Hw, Hex in Hmark. discriminate Hmark.
Qed.

(** X3.  Excluding more never finds more.  An empty exclusion list is the
    same as none; and when every key that one list excludes is also
    excluded by a second list, a wildcard that [hasWildcard] finds under
    the second list is found under the first.  In particular whatever is
    found under some exclusion list is found without any. *)
Theorem hasWildcard_exclusion_antitone (specQ : SpecQuery) :
  hasWildcard specQ (Some []) = hasWildcard specQ None
  ∧ (∀ exclude exclude' : option (list Property),
       (∀ key : string, excludedKey exclude key → excludedKey exclude' key) →
       hasWildcard specQ exclude' = true → hasWildcard specQ exclude = true)
  ∧ (∀ exclude : option (list Property),
       hasWildcard specQ exclude = true → hasWildcard specQ None = true).
Proof.
  assert (Hanti : ∀ exclude exclude' : option (list Property),
            (∀ key : string, excludedKey exclude key → excludedKey exclude' key) →
            hasWildcard specQ exclude' = true → hasWildcard specQ exclude = true).
  { intros exclude exclude' Hsub Hfound.
    apply hasWildcard_found. apply hasWildcard_found in Hfound.
    destruct Hfound as [[Hw Hex] | (encQ & Hin & Henc)].
    - left. split; [exact Hw |]. intros Hk. apply Hex, Hsub, Hk.
    - right. exists encQ. split; [exact Hin |].
      apply encodingWildcard_spec. apply encodingWildcard_spec in Henc.
      destruct Henc as (k & Hk & Htop & Hfind). exists k.
      split; [exact Hk |]. split; [exact Htop |].
      destruct Hfind as [[Hw Hex] | (child & Hc & Hne & Hnn & Hw & Hex)].
      + left. split; [exact Hw |]. intros He. apply Hex, Hsub, He.
      + right. exists child. repeat split; try assumption.
        intros He. apply Hex, Hsub, He. }
  split; [reflexivity |]. split; [exact Hanti |].
  intros exclude. apply Hanti. intros key [].
Qed.

End WildcardFacts.

Section FromSpecFacts.
Context `{table : PropertyTable}.

Lemma normalized_defined (prop : string) (v : value) :
  v ≠ VUndefined → normalized prop v ≠ VUndefined.
Proof.
  intros Hv. unfold normalized.
  destruct (contains _ prop && isNull v); [discriminate | exact Hv].
Qed.

Lemma copies_defined (channelDef : value) (prop : string) :
  copies channelDef prop = true → get channelDef prop ≠ VUndefined.
Proof.
  unfold copies. rewrite !andb_true_iff, negb_true_iff. intros [_ Hdef] Heq.
  rewrite Heq in Hdef. discriminate Hdef.
Qed.

Lemma copiedValue_not_null (channelDef : value) (prop : string) :
  contains ["bin"; "scale"; "axis"; "legend"] prop = true →
  copiedValue channelDef prop ≠ VNull.
Proof.
  intros Hp. unfold copiedValue, normalized. rewrite Hp.
  destruct (copies channelDef prop); [| discriminate].
  destruct (get channelDef prop); cbn; discriminate.
Qed.

(** X4.  What every encoding that [fromSpec] builds satisfies, whatever
    the document: it has the key [channel]; none of its keys holds
    [undefined]; it holds no [null] under [bin], [scale], [axis] or
    [legend]; and if it is field-backed (a truthy field, or the aggregate
    ['count']) it carries a truthy field, so that after [fromSpec] a
    count aggregate never stands without a field. *)
Theorem fromSpec_encodings_wellformed (spec : object) :
  Forall (λ encQ : object,
      "channel" ∈ ownKeys (VObj encQ)
      ∧ (∀ k : string, k ∈ ownKeys (VObj encQ) → field encQ k ≠ VUndefined)
      ∧ (∀ prop : string,
           prop ∈ ["bin"; "scale"; "axis"; "legend"] → field encQ prop ≠ VNull)
      ∧ (isFieldQuery (VObj encQ) = true → truthy (field encQ "field") = true))
    (encodings (fromSpec spec)).
Proof.
  apply Forall_forall. intros encQ Hin. cbn [fromSpec encodings] in Hin.
  apply list_elem_of_fmap in Hin as (channel & -> & _).
  set (encoding := field spec "encoding").
  destruct (encodingOfChannel_spec encoding channel)
    as (Hchannel & Hother & Hfield & Hkeys).
  cbv zeta in Hchannel, Hother, Hfield, Hkeys.
  set (channelDef := get encoding channel) in *.
  set (encQ := encodingOfChannel encoding channel) in *.
  split; [apply Hkeys; by left |]. split; [| split].
  - intros k Hk. apply Hkeys in Hk.
    destruct (decide (k = "channel")) as [-> | Hnc].
    { rewrite Hchannel. destruct (copies channelDef "channel") eqn:Hc;
        [| discriminate].
      by apply normalized_defined, copies_defined. }
    destruct (decide (k = "field")) as [-> | Hnf].
    { rewrite Hfield. destruct (countDefault channelDef) eqn:Hcount;
        [discriminate |].
      destruct Hk as [Hk | [Hk | [_ Hk]]]; [done | | discriminate Hk].
      unfold copiedValue. rewrite Hk.
      by apply normalized_defined, copies_defined. }
    rewrite (Hother k Hnc Hnf).
    destruct Hk as [Hk | [Hk | [Hk _]]]; [done | | done].
    unfold copiedValue. rewrite Hk. by apply normalized_defined, copies_defined.
  - intros prop Hprop. rewrite Hother.
    + apply copiedValue_not_null. by apply contains_spec.
    + intros ->. apply list_elem_of_In in Hprop. cbn in Hprop.
      repeat (destruct Hprop as [Hprop | Hprop]; [discriminate Hprop |]).
      destruct Hprop.
    + intros ->. apply list_elem_of_In in Hprop. cbn in Hprop.
      repeat (destruct Hprop as [Hprop | Hprop]; [discriminate Hprop |]).
      destruct Hprop.
  - unfold isFieldQuery. cbn [isNull isUndefined negb andb get].
    rewrite Hfield, (Hother "aggregate") by discriminate.
    unfold countDefault.
    destruct (eqStr (copiedValue channelDef "aggregate") "count");
      destruct (truthy (copiedValue channelDef "field")) eqn:Hf; cbn;
      rewrite ?Hf; intros H; try reflexivity; discriminate H.
Qed.

Lemma isWildcard_falsy (v : value) : truthy v = false → ¬ holdsWildcard v.
Proof.
  intros Hv [Hw | (child & Hin & _)].
  - apply isWildcard_truthy in Hw. congruence.
  - destruct v as [| |b|n|s|elems|props]; cbn in Hin, Hv;
      try (by apply elem_of_nil in Hin); try discriminate Hv.
    destruct s; [by apply elem_of_nil in Hin | discriminate Hv].
Qed.

Lemma holdsWildcard_normalized (prop : string) (v : value) :
  holdsWildcard (normalized prop v) ↔ holdsWildcard v.
Proof.
  unfold normalized. destruct (contains _ prop && isNull v) eqn:Hc; [| tauto].
  apply andb_true_iff in Hc as [_ Hnull]. destruct v; try discriminate Hnull.
  split; intros H; exfalso; revert H; by apply isWildcard_falsy.
Qed.

Lemma holdsWildcard_star : ¬ holdsWildcard (VStr "*").
Proof.
  intros [Hw | (child & Hin & _ & _ & Hw)]; [discriminate Hw |].
  apply list_elem_of_In in Hin. cbn in Hin. destruct Hin as [<- | []].
  discriminate Hw.
Qed.

(** X5.  [fromSpec] neither loses nor invents a wildcard.  With no
    exclusion, [hasWildcard] answers [true] on the query built from a
    document exactly when the mark of the document is a wildcard, or some
    channel definition hands over a property (an own top-level property
    whose value is not [undefined]) that is a wildcard or has a wildcard
    child other than [enum] and [name], or the name of a channel itself
    reads as one, the channel definition handing over no [channel] of its
    own. *)
Theorem fromSpec_preserves_wildcards (spec : object) :
  hasWildcard (fromSpec spec) None = true ↔
  isWildcard (field spec "mark") = true
  ∨ ∃ channel : string,
      channel ∈ ownKeys (field spec "encoding")
      ∧ ((∃ prop : string,
            copies (get (field spec "encoding") channel) prop = true
            ∧ holdsWildcard (get (get (field spec "encoding") channel) prop))
         ∨ (isEncodingTopLevelProperty "channel" = true
            ∧ copies (get (field spec "encoding") channel) "channel" = false
            ∧ holdsWildcard (VStr channel))).
Proof.
  set (encoding := field spec "encoding").
  assert (Henc : ∀ channel : string,
            encodingWildcard (excludeMap None) (encodingOfChannel encoding channel)
              = true ↔
            (∃ prop : string,
               copies (get encoding channel) prop = true
               ∧ holdsWildcard (get (get encoding channel) prop))
            ∨ (isEncodingTopLevelProperty "channel" = true
               ∧ copies (get encoding channel) "channel" = false
               ∧ holdsWildcard (VStr channel))).
  { intros channel.
    destruct (encodingOfChannel_spec encoding channel)
      as (Hchannel & Hother & Hfield & Hkeys).
    cbv zeta in Hchannel, Hother, Hfield, Hkeys.
    set (channelDef := get encoding channel) in *.
    set (encQ := encodingOfChannel encoding channel) in *.
    assert (Hvalue : ∀ k : string, k ∈ ownKeys (VObj encQ) →
              (holdsWildcard (field encQ k) ↔
               (copies channelDef k = true ∧ holdsWildcard (get channelDef k))
               ∨ (k = "channel" ∧ copies channelDef "channel" = false
                  ∧ holdsWildcard (VStr channel)))).
    { intros k Hk. apply Hkeys in Hk.
      destruct (decide (k = "channel")) as [-> | Hnc].
      { rewrite Hchannel. destruct (copies channelDef "channel") eqn:Hc.
        - rewrite holdsWildcard_normalized. split; [tauto |].
          intros [[_ H] | (_ & Hf & _)]; [exact H | discriminate Hf].
        - split; [tauto |]. intros [[Hf _] | (_ & _ & H)];
            [discriminate Hf | exact H]. }
      destruct (decide (k = "field")) as [-> | Hnf].
      { rewrite Hfield. unfold copiedValue.
        destruct (countDefault channelDef) eqn:Hcount.
        - split; [intros H; by destruct holdsWildcard_star |].
          intros [[Hc H] | (Hf & _)]; [| discriminate Hf].
          unfold countDefault, copiedValue in Hcount. rewrite Hc in Hcount.
          apply andb_true_iff in Hcount as [_ Hfalsy].
          apply negb_true_iff in Hfalsy.
          apply (proj2 (holdsWildcard_normalized "field" _)) in H.
          by destruct (isWildcard_falsy _ Hfalsy).
        - destruct (copies channelDef "field") eqn:Hc.
          + rewrite holdsWildcard_normalized. split; [tauto |].
            intros [[_ H] | (Hf & _)]; [exact H | discriminate Hf].
          + split; [intros H; by destruct (isWildcard_falsy VUndefined) |].
            intros [[Hf _] | (Hf & _)]; discriminate Hf. }
      rewrite (Hother k Hnc Hnf). unfold copiedValue.
      destruct (copies channelDef k) eqn:Hc.
      - rewrite holdsWildcard_normalized. split; [tauto |].
        intros [[_ H] | (Hf & _)]; [exact H | contradiction].
      - split; [intros H; by destruct (isWildcard_falsy VUndefined) |].
        intros [[Hf _] | (Hf & _)]; [discriminate Hf | contradiction]. }
    rewrite encodingWildcard_spec. split.
    - intros (k & Hk & Htop & Hfind).
      assert (Hholds : holdsWildcard (field encQ k)).
      { destruct Hfind as [[Hw _] | (child & Hc & Hne & Hnn & Hw & _)];
          [by left | right; eauto]. }
      apply (Hvalue k Hk) in Hholds as [[Hc H] | (-> & Hc & H)].
      + left. eauto.
      + right. auto.
    - intros [(prop & Hc & H) | (Htop & Hc & H)].
      + assert (Hk : prop ∈ ownKeys (VObj encQ)) by (apply Hkeys; auto).
        exists prop. split; [exact Hk |]. split.
        { unfold copies in Hc. rewrite !andb_true_iff in Hc. tauto. }
        assert (Hholds : holdsWildcard (field encQ prop))
          by (apply (Hvalue prop Hk); auto).
        destruct Hholds as [Hw | (child & Hin & Hne & Hnn & Hw)].
        * left. split; [exact Hw | intros []].
        * right. exists child. repeat split; try assumption. intros [].
      + assert (Hk : "channel" ∈ ownKeys (VObj encQ)) by (apply Hkeys; auto).
        exists "channel". split; [exact Hk |]. split; [exact Htop |].
        assert (Hholds : holdsWildcard (field encQ "channel"))
          by (apply (Hvalue "channel" Hk); auto).
        destruct Hholds as [Hw | (child & Hin & Hne & Hnn & Hw)].
        * left. split; [exact Hw | intros []].
        * right. exists child. repeat split; try assumption. intros []. }
  rewrite hasWildcard_found. cbn [fromSpec mark encodings excludedKey].
  fold encoding. split.
  - intros [[Hw _] | (encQ & Hin & Hfound)]; [by left | right].
    apply list_elem_of_fmap in Hin as (channel & -> & Hin).
    exists channel. split; [exact Hin |]. by apply Henc.
  - intros [Hw | (channel & Hin & Hfound)]; [left; tauto | right].
    exists (encodingOfChannel encoding channel).
    split; [by apply list_elem_of_fmap_2 |]. by apply Henc.
Qed.

End FromSpecFacts.

(* ===================================================================== *)
(** * 12. Further properties of [src/constraint/spec.ts]: the engine *)
(* ===================================================================== *)

Section EngineFacts.
Context `{table : PropertyTable} {Schema : Type}.
Context (toShorthand : SpecQueryModel → string).

Implicit Types (c : SpecConstraint (Schema := Schema)).
Implicit Types (specM : SpecQueryModel) (schema : Schema) (opt : QueryConfig).
Implicit Types (index : PropIndex (list (SpecConstraint (Schema := Schema)))).

Lemma propertySpecific_false_iff specM (p : Property) :
  supportedProperty p = true →
  propertySpecific specM p = Ok false ↔ wildcardedIn specM p.
Proof.
  intros Hsupp. split; [| by apply propertySpecific_wildcarded].
  destruct p as [n | parent child]; cbn in *.
  - destruct (String.eqb n "mark"); cbn in *.
    + intros [= Hw]. by apply negb_false_iff in Hw.
    + rewrite Hsupp. cbn. intros [= Hall].
      apply forallb_false_iff in Hall as (encQ & Hin & Hw). exists encQ.
      split; [exact Hin |]. destruct (truthy (field encQ n)); [| discriminate Hw].
      by apply negb_false_iff in Hw.
  - intros [= Hall]. apply forallb_false_iff in Hall as (encQ & Hin & Hw).
    exists encQ. split; [exact Hin |].
    destruct (truthy (field encQ parent)); [| discriminate Hw].
    split; [reflexivity |]. by apply negb_false_iff in Hw.
Qed.

Lemma propertySpecific_true_iff specM (p : Property) :
  supportedProperty p = true →
  propertySpecific specM p = Ok true ↔ ¬ wildcardedIn specM p.
Proof.
  intros Hsupp. rewrite <- (propertySpecific_false_iff specM p Hsupp).
  destruct (propertySpecific_supported specM p Hsupp) as [[|] ->];
    split; congruence.
Qed.

Lemma everyR_true_iff {A : Type} (f : A → result bool) (arr : list A) :
  everyR f arr = Ok true ↔ ∀ a, a ∈ arr → f a = Ok true.
Proof.
  induction arr as [|a arr IH]; cbn.
  - split; [| reflexivity]. intros _ a Hin. by apply elem_of_nil in Hin.
  - split.
    + destruct (f a) as [[|] | msg] eqn:Ha; try discriminate.
      intros Hrest a' Ha'. apply elem_of_cons in Ha' as [-> | Ha']; [exact Ha |].
      by apply IH.
    + intros Hall. rewrite (Hall a) by apply list_elem_of_here.
      apply IH. intros a' Ha'. apply Hall. by apply list_elem_of_further.
Qed.

(** [every] stops at the first element whose callback does not answer
    [true], and answers what that callback did. *)
Lemma everyR_first {A : Type} (f : A → result bool) (pre : list A) (a : A)
    (rest : list A) :
  (∀ a', a' ∈ pre → f a' = Ok true) → f a ≠ Ok true →
  everyR f (pre ++ a :: rest) = f a.
Proof.
  intros Hpre Ha. induction pre as [|a0 pre IH]; cbn.
  - destruct (f a) as [[|] | msg]; [congruence | reflexivity | reflexivity].
  - rewrite (Hpre a0) by apply list_elem_of_here.
    apply IH. intros a' Ha'. apply Hpre. by apply list_elem_of_further.
Qed.

Lemma satisfyModel_called c specM schema opt :
  allowWildcardForProperties c = true
  ∨ hasAllRequiredPropertiesSpecific c specM = Ok true →
  satisfyModel c specM schema opt
  = ([SatisfyCalled (name c); PredicateCalled (name c)], satisfy c specM schema opt).
Proof.
  unfold satisfyModel, callPredicate.
  intros [-> | Hs]; cbn.
  - by destruct (satisfy c specM schema opt).
  - destruct (allowWildcardForProperties c); cbn; rewrite ?Hs; cbn;
      by destruct (satisfy c specM schema opt).
Qed.

Lemma specific_true_iff c specM :
  (∀ p, p ∈ properties c → supportedProperty p = true) →
  hasAllRequiredPropertiesSpecific c specM = Ok true ↔
  ∀ p, p ∈ properties c → ¬ wildcardedIn specM p.
Proof.
  intros Hsupp. unfold hasAllRequiredPropertiesSpecific. rewrite everyR_true_iff.
  split; intros Hall p Hp; apply propertySpecific_true_iff; auto.
Qed.

Lemma everyR_false_elem {A : Type} (f : A → result bool) (arr : list A) :
  everyR f arr = Ok false → ∃ a, a ∈ arr ∧ f a = Ok false.
Proof.
  induction arr as [|a arr IH]; cbn; [discriminate |].
  destruct (f a) as [[|] | msg] eqn:Ha; [| | discriminate].
  - intros Hrest. destruct (IH Hrest) as (a' & Hin & Ha'). exists a'.
    split; [by apply list_elem_of_further | exact Ha'].
  - intros _. exists a. split; [apply list_elem_of_here | exact Ha].
Qed.

Lemma propertySpecific_false_wildcarded specM (p : Property) :
  propertySpecific specM p = Ok false → wildcardedIn specM p.
Proof.
  destruct p as [n | parent child]; cbn.
  - destruct (String.eqb n "mark"); cbn.
    + intros [= Hw]. by apply negb_false_iff in Hw.
    + destruct (isEncodingTopLevelProperty n); cbn; [| discriminate].
      intros [= Hall]. apply forallb_false_iff in Hall as (encQ & Hin & Hw).
      exists encQ. split; [exact Hin |].
      destruct (truthy (field encQ n)); [| discriminate Hw].
      by apply negb_false_iff in Hw.
  - intros [= Hall]. apply forallb_false_iff in Hall as (encQ & Hin & Hw).
    exists encQ. split; [exact Hin |].
    destruct (truthy (field encQ parent)); [| discriminate Hw].
    split; [reflexivity |]. by apply negb_false_iff in Hw.
Qed.

Lemma specific_false_wildcarded c specM :
  hasAllRequiredPropertiesSpecific c specM = Ok false →
  ∃ p, p ∈ properties c ∧ wildcardedIn specM p.
Proof.
  intros Hs. apply everyR_false_elem in Hs as (p & Hp & Hw). exists p.
  split; [exact Hp |]. by apply propertySpecific_false_wildcarded.
Qed.

Lemma specific_false_iff c specM :
  (∀ p, p ∈ properties c → supportedProperty p = true) →
  hasAllRequiredPropertiesSpecific c specM = Ok false ↔
  ∃ p, p ∈ properties c ∧ wildcardedIn specM p.
Proof.
  intros Hsupp. split; [apply specific_false_wildcarded |].
  intros (p & Hp & Hw). apply everyR_false.
  - intros q Hq. apply propertySpecific_supported. auto.
  - exists p. split; [exact Hp |]. apply propertySpecific_wildcarded; auto.
Qed.

Lemma specific_total c specM :
  (∀ p, p ∈ properties c → supportedProperty p = true) →
  ∃ b : bool, hasAllRequiredPropertiesSpecific c specM = Ok b.
Proof.
  unfold hasAllRequiredPropertiesSpecific. generalize (properties c) as props.
  induction props as [|p props IH]; intros Hsupp; cbn; [eauto |].
  destruct (propertySpecific_supported specM p) as [[|] ->];
    [apply Hsupp, list_elem_of_here | | eauto].
  apply IH. intros q Hq. apply Hsupp. by apply list_elem_of_further.
Qed.

Lemma predicate_called c specM schema opt :
  PredicateCalled (name c) ∈ (satisfyModel c specM schema opt).1 →
  allowWildcardForProperties c = true
  ∨ hasAllRequiredPropertiesSpecific c specM = Ok true.
Proof.
  unfold satisfyModel, callPredicate.
  destruct (allowWildcardForProperties c); [by left |]. cbn.
  destruct (hasAllRequiredPropertiesSpecific c specM) as [[|] | msg]; cbn.
  - by right.
  - rewrite list_elem_of_singleton. discriminate.
  - rewrite list_elem_of_singleton. discriminate.
Qed.

(** X6.  When [SpecConstraintModel.satisfy] skips a rule.  For a rule
    whose declared properties are of the kinds the check handles (mark,
    encoding, nested): [hasAllRequiredPropertiesSpecific] answers [true]
    exactly when none of the declared properties is a wildcard anywhere
    it applies, and [false] exactly when one is; and the predicate of the
    rule is called exactly when the rule tolerates wildcards or none of
    its properties is a wildcard, in which case what [satisfy] answers is
    what the predicate answers. *)
Theorem predicate_called_iff_specific c specM schema opt :
  (∀ p, p ∈ properties c → supportedProperty p = true) →
  (hasAllRequiredPropertiesSpecific c specM = Ok true ↔
     ∀ p, p ∈ properties c → ¬ wildcardedIn specM p)
  ∧ (hasAllRequiredPropertiesSpecific c specM = Ok false ↔
       ∃ p, p ∈ properties c ∧ wildcardedIn specM p)
  ∧ (PredicateCalled (name c) ∈ (satisfyModel c specM schema opt).1 ↔
       allowWildcardForProperties c = true
       ∨ ∀ p, p ∈ properties c → ¬ wildcardedIn specM p)
  ∧ (PredicateCalled (name c) ∈ (satisfyModel c specM schema opt).1 →
       (satisfyModel c specM schema opt).2 = satisfy c specM schema opt).
Proof.
  intros Hsupp.
  split; [by apply specific_true_iff |]. split; [by apply specific_false_iff |].
  split; [split |].
  - intros Hin. destruct (predicate_called _ _ _ _ Hin) as [Ha | Hs];
      [by left | right]. by apply specific_true_iff.
  - intros Hcase. rewrite satisfyModel_called.
    + cbn. apply list_elem_of_further, list_elem_of_here.
    + destruct Hcase as [Ha | Hnone]; [by left | right].
      by apply specific_true_iff.
  - intros Hin. by rewrite (satisfyModel_called _ _ _ _ (predicate_called _ _ _ _ Hin)).
Qed.

(** X7.  A rule that declares a flat property which is neither the mark
    nor an encoding property.  If every property declared before it is
    handled, then: when none of those is a wildcard,
    [hasAllRequiredPropertiesSpecific] throws ['UNIMPLEMENTED'], and so do
    [satisfy] and the loop of [checkSpec] for a rule that does not tolerate
    wildcards, without the predicate being called; when one of those is a
    wildcard, the unhandled property is never reached and the answer is
    [false]; and a rule that tolerates wildcards is unaffected, its
    predicate being called. *)
Theorem unhandled_property_throws c specM schema opt
    (pre rest : list Property) (n : string) :
  properties c = pre ++ Flat n :: rest →
  n ≠ "mark" → isEncodingTopLevelProperty n = false →
  (∀ p, p ∈ pre → supportedProperty p = true) →
  ((∀ p, p ∈ pre → ¬ wildcardedIn specM p) →
     hasAllRequiredPropertiesSpecific c specM = Throw "UNIMPLEMENTED"
     ∧ (allowWildcardForProperties c = false →
        satisfyModel c specM schema opt
        = ([SatisfyCalled (name c)], Throw "UNIMPLEMENTED")
        ∧ ∀ (others : list SpecConstraint) (wildcard : object),
            active opt c = true →
            checkConstraints toShorthand (c :: others) wildcard specM schema opt
            = ([SatisfyCalled (name c)], Throw "UNIMPLEMENTED")))
  ∧ ((∃ p, p ∈ pre ∧ wildcardedIn specM p) →
     hasAllRequiredPropertiesSpecific c specM = Ok false)
  ∧ (allowWildcardForProperties c = true →
     satisfyModel c specM schema opt
     = ([SatisfyCalled (name c); PredicateCalled (name c)],
        satisfy c specM schema opt)).
Proof.
  intros Hprops Hmark Htop Hsupp.
  assert (Hn : propertySpecific specM (Flat n) = Throw "UNIMPLEMENTED").
  { cbn. apply String.eqb_neq in Hmark. rewrite Hmark, Htop. reflexivity. }
  split; [| split].
  - intros Hnone.
    assert (Hs : hasAllRequiredPropertiesSpecific c specM = Throw "UNIMPLEMENTED").
    { unfold hasAllRequiredPropertiesSpecific. rewrite Hprops, everyR_first.
      - exact Hn.
      - intros p Hp. apply propertySpecific_true_iff; auto.
      - rewrite Hn. discriminate. }
    split; [exact Hs |]. intros Hallow.
    assert (Hsat : satisfyModel c specM schema opt
                   = ([SatisfyCalled (name c)], Throw "UNIMPLEMENTED")).
    { unfold satisfyModel. rewrite Hallow, Hs. reflexivity. }
    split; [exact Hsat |]. intros others wildcard Hact.
    by rewrite checkConstraints_cons, Hact, Hsat.
  - intros (p & Hp & Hw). unfold hasAllRequiredPropertiesSpecific.
    rewrite Hprops. apply list_elem_of_split in Hp as (pre1 & pre2 & ->).
    rewrite <- app_assoc. cbn [app].
    assert (Hfirst : ∃ (l1 : list Property) (q : Property) (l2 : list Property),
              pre1 ++ p :: pre2 = l1 ++ q :: l2
              ∧ (∀ p', p' ∈ l1 → propertySpecific specM p' = Ok true)
              ∧ propertySpecific specM q = Ok false).
    { assert (Hsupp1 : ∀ p', p' ∈ pre1 → supportedProperty p' = true).
      { intros p' Hp'. apply Hsupp. apply elem_of_app. by left. }
      clear Hprops. induction pre1 as [|q pre1 IH].
      - exists [], p, pre2. split; [reflexivity |]. split.
        + intros p' Hp'. by apply elem_of_nil in Hp'.
        + apply propertySpecific_wildcarded; [| exact Hw].
          apply Hsupp. apply list_elem_of_here.
      - destruct (propertySpecific_supported specM q) as [[|] Hq].
        + apply Hsupp1, list_elem_of_here.
        + destruct IH as (l1 & q' & l2 & Heq & Hl1 & Hq').
          * intros p' Hp'. apply Hsupp. cbn. by apply list_elem_of_further.
          * intros p' Hp'. apply Hsupp1. by apply list_elem_of_further.
          * exists (q :: l1), q', l2. cbn. rewrite Heq. split; [reflexivity |].
            split; [| exact Hq'].
            intros p' Hp'. apply elem_of_cons in Hp' as [-> | Hp']; auto.
        + exists [], q, (pre1 ++ p :: pre2). split; [reflexivity |].
          split; [| exact Hq]. intros p' Hp'. by apply elem_of_nil in Hp'. }
    destruct Hfirst as (l1 & q & l2 & Heq & Hl1 & Hq).
    replace (pre1 ++ p :: pre2 ++ Flat n :: rest)
      with (l1 ++ q :: (l2 ++ Flat n :: rest)).
    + rewrite everyR_first; [exact Hq | exact Hl1 |]. rewrite Hq. discriminate.
    + rewrite app_comm_cons, app_assoc, <- Heq, <- app_assoc. reflexivity.
  - intros Hallow. apply satisfyModel_called. by left.
Qed.

Lemma field_defined_key (o : object) (k : string) :
  field o k ≠ VUndefined → k ∈ ownKeys (VObj o).
Proof.
  cbn [ownKeys]. induction o as [|[k' v'] o IH]; cbn; [congruence |].
  destruct (String.eqb k k') eqn:Hk.
  - apply String.eqb_eq in Hk as ->. intros _. apply list_elem_of_here.
  - intros H. apply list_elem_of_further. by apply IH.
Qed.

Lemma isWildcard_get_key (v : value) (k : string) :
  isWildcard (get v k) = true → k ∈ ownKeys v.
Proof.
  destruct v as [| |b|n|s|elems|props]; cbn [get ownKeys];
    try (intros H; discriminate H).
  - unfold indexOfKey, indexKeys.
    destruct (list_find _ (seq 0 (String.length s))) as [[i j]|] eqn:Hfind; cbn.
    + intros _. apply list_find_Some in Hfind as (Hi & <- & _).
      apply list_elem_of_fmap. exists j. split; [reflexivity |].
      by apply list_elem_of_lookup_2 in Hi.
    + destruct (String.eqb k "length"); intros H; discriminate H.
  - unfold indexOfKey, indexKeys.
    destruct (list_find _ (seq 0 (length elems))) as [[i j]|] eqn:Hfind; cbn.
    + intros _. apply list_find_Some in Hfind as (Hi & <- & _).
      apply list_elem_of_fmap. exists j. split; [reflexivity |].
      by apply list_elem_of_lookup_2 in Hi.
    + destruct (String.eqb k "length"); intros H; discriminate H.
  - intros Hw. apply field_defined_key. intros Heq. rewrite Heq in Hw.
    discriminate Hw.
Qed.

(** X8.  On a query in which [hasWildcard] finds nothing, no rule is
    skipped.  For a rule whose declared properties are among those
    [hasWildcard] scans (the mark, top-level encoding properties, and
    their children other than [enum] and [name]): if [hasWildcard]
    answers [false] without exclusion on the query of the model, then
    [hasAllRequiredPropertiesSpecific] answers [true], and [satisfy] calls
    the predicate and answers what it answers. *)
Theorem concrete_query_never_skips c specM schema opt :
  (∀ p, p ∈ properties c → scannedProperty p = true) →
  hasWildcard (specQuery specM) None = false →
  hasAllRequiredPropertiesSpecific c specM = Ok true
  ∧ satisfyModel c specM schema opt
    = ([SatisfyCalled (name c); PredicateCalled (name c)],
       satisfy c specM schema opt).
Proof.
  intros Hscan Hnone.
  assert (Hs : hasAllRequiredPropertiesSpecific c specM = Ok true).
  { unfold hasAllRequiredPropertiesSpecific. apply everyR_true_iff.
    intros p Hp. specialize (Hscan p Hp).
    assert (Hsupp : supportedProperty p = true).
    { destruct p as [n | parent child]; [exact Hscan | reflexivity]. }
    apply propertySpecific_true_iff; [exact Hsupp |]. intros Hw.
    assert (Hfound : hasWildcard (specQuery specM) None = true);
      [| congruence].
    apply hasWildcard_found.
    destruct p as [n | parent child]; cbn in Hw, Hscan.
    - destruct (String.eqb n "mark") eqn:Hn.
      + left. split; [exact Hw | intros []].
      + right. destruct Hw as (encQ & Hin & Hwild). exists encQ.
        apply list_elem_of_filter in Hin as [_ Hin]. split; [exact Hin |].
        apply encodingWildcard_spec. exists n.
        split; [by apply (isWildcard_get_key (VObj encQ)) |].
        split; [exact Hscan |]. left. split; [exact Hwild | intros []].
    - right. destruct Hw as (encQ & Hin & Hparent & Hwild). exists encQ.
      apply list_elem_of_filter in Hin as [_ Hin]. split; [exact Hin |].
      apply andb_true_iff in Hscan as [Htop Hchild].
      apply negb_true_iff in Hchild.
      apply encodingWildcard_spec. exists parent. split.
      { apply field_defined_key. intros Heq. rewrite Heq in Hparent.
        discriminate Hparent. }
      split; [exact Htop |]. right. exists child.
      split; [by apply isWildcard_get_key |].
      split; [intros ->; discriminate Hchild |].
      split; [intros ->; discriminate Hchild |].
      split; [exact Hwild | intros []]. }
  split; [exact Hs |]. apply satisfyModel_called. by right.
Qed.

End EngineFacts.

Section LoopFacts.
Context `{table : PropertyTable} {Schema : Type}.
Context (toShorthand : SpecQueryModel → string).

Implicit Types (c : SpecConstraint (Schema := Schema)).
Implicit Types (specM : SpecQueryModel) (schema : Schema) (opt : QueryConfig).
Implicit Types (index : PropIndex (list (SpecConstraint (Schema := Schema)))).

Lemma checkConstraints_null (cs : list SpecConstraint) (wildcard : object)
    specM schema opt :
  (checkConstraints toShorthand cs wildcard specM schema opt).2 = Ok None →
  ∀ c, c ∈ cs → passes c specM schema opt.
Proof.
  induction cs as [|c0 cs IH]; intros Hnull c Hc.
  - by apply elem_of_nil in Hc.
  - rewrite checkConstraints_cons in Hnull. unfold passes.
    destruct (active opt c0) eqn:Hact.
    + destruct (satisfyModel c0 specM schema opt) as [t [[|] | msg]] eqn:Hsat;
        cbn [fst snd] in Hnull; try discriminate Hnull.
      apply elem_of_cons in Hc as [-> | Hc]; [by rewrite Hsat | by apply IH].
    + apply elem_of_cons in Hc as [-> | Hc]; [congruence | by apply IH].
Qed.

(** X9.  When [checkSpec] answers [null].  Over any index, the result is
    [null] exactly when every rule of the entry of the property is passed
    (it is not active, or its [satisfy] method answers [true]); the calls
    made are then those of the active rules of the entry, each in turn,
    and nothing is logged. *)
Theorem checkSpec_null_iff index (prop : Property) (wildcard : object)
    specM schema opt :
  ((checkSpecWith toShorthand index prop wildcard specM schema opt).2 = Ok None ↔
     ∀ c, c ∈ lookupIndex index prop → passes c specM schema opt)
  ∧ ((checkSpecWith toShorthand index prop wildcard specM schema opt).2 = Ok None →
     (checkSpecWith toShorthand index prop wildcard specM schema opt).1
     = passTrace (lookupIndex index prop) specM schema opt
     ∧ ∀ e, e ∈ (checkSpecWith toShorthand index prop wildcard specM schema opt).1 →
            isLog e = false).
Proof.
  rewrite checkSpecWith_eq.
  assert (Hrun : (∀ c, c ∈ lookupIndex index prop → passes c specM schema opt) →
            checkConstraints toShorthand (lookupIndex index prop) wildcard specM
              schema opt
            = (passTrace (lookupIndex index prop) specM schema opt, Ok None)).
  { intros Hpass. rewrite <- (app_nil_r (lookupIndex index prop)) at 1.
    rewrite checkConstraints_app by exact Hpass. cbn. by rewrite app_nil_r. }
  split; [split |].
  - apply checkConstraints_null.
  - intros Hpass. by rewrite Hrun.
  - intros Hnull. rewrite Hrun by (by apply (checkConstraints_null _ wildcard)).
    split; [reflexivity |]. cbn [fst]. intros e He.
    apply list_elem_of_In, in_flat_map in He as (c & _ & He).
    destruct (active opt c); [| destruct He].
    apply list_elem_of_In, satisfyModel_trace in He. by destruct e.
Qed.

(** X10.  Rules that are not active leave no trace: the loop of
    [checkSpec] over a list of rules makes the same calls and gives the same
    result as over the active rules of the list alone; and under options
    that hold no truthy value for the name of any rule of the list, as over
    its strict rules alone. *)
Theorem inactive_rules_leave_no_trace (cs : list SpecConstraint)
    (wildcard : object) specM schema opt :
  checkConstraints toShorthand cs wildcard specM schema opt
  = checkConstraints toShorthand (filter (λ c, active opt c = true) cs) wildcard
      specM schema opt
  ∧ ((∀ c, c ∈ cs → truthy (optGet opt (name c)) = false) →
     checkConstraints toShorthand cs wildcard specM schema opt
     = checkConstraints toShorthand (filter (λ c, strict c = true) cs) wildcard
         specM schema opt).
Proof.
  split.
  - induction cs as [|c cs IH]; [reflexivity |].
    rewrite filter_cons. destruct (decide (active opt c = true)) as [Hact | Hact].
    + rewrite !checkConstraints_cons, Hact, <- IH. reflexivity.
    + rewrite checkConstraints_cons. apply not_true_is_false in Hact.
      by rewrite Hact.
  - induction cs as [|c cs IH]; intros Hopt; [reflexivity |].
    assert (Hc : active opt c = strict c).
    { unfold active. rewrite (Hopt c) by apply list_elem_of_here.
      apply orb_false_r. }
    rewrite filter_cons.
    destruct (decide (strict c = true)) as [Hs | Hs].
    + rewrite !checkConstraints_cons, Hc, Hs.
      rewrite <- IH by (intros c' Hc'; apply Hopt; by apply list_elem_of_further).
      reflexivity.
    + rewrite checkConstraints_cons, Hc. apply not_true_is_false in Hs.
      rewrite Hs. apply IH. intros c' Hc'. apply Hopt.
      by apply list_elem_of_further.
Qed.

Lemma checkConstraints_throw (cs : list SpecConstraint) (wildcard : object)
    specM schema opt (msg : string) :
  (checkConstraints toShorthand cs wildcard specM schema opt).2 = Throw msg →
  ∃ (pre : list SpecConstraint) c (rest : list SpecConstraint),
    cs = pre ++ c :: rest
    ∧ (∀ c', c' ∈ pre → passes c' specM schema opt)
    ∧ active opt c = true
    ∧ (satisfyModel c specM schema opt).2 = Throw msg.
Proof.
  induction cs as [|c0 cs IH]; [discriminate |].
  rewrite checkConstraints_cons. intros Hthrow.
  assert (Hrest : (checkConstraints toShorthand cs wildcard specM schema opt).2
                  = Throw msg → passes c0 specM schema opt →
            ∃ (pre : list SpecConstraint) c (rest : list SpecConstraint),
              c0 :: cs = pre ++ c :: rest
              ∧ (∀ c', c' ∈ pre → passes c' specM schema opt)
              ∧ active opt c = true
              ∧ (satisfyModel c specM schema opt).2 = Throw msg).
  { intros Hr Hpass. destruct (IH Hr) as (pre & c & rest & -> & Hpre & Hc).
    exists (c0 :: pre), c, rest. split; [reflexivity |]. split; [| exact Hc].
    intros c' Hc'. apply elem_of_cons in Hc' as [-> | Hc']; auto. }
  destruct (active opt c0) eqn:Hact.
  - destruct (satisfyModel c0 specM schema opt) as [t [[|] | msg']] eqn:Hsat;
      cbn [fst snd] in Hthrow.
    + apply Hrest; [exact Hthrow |]. intros _. by rewrite Hsat.
    + discriminate Hthrow.
    + injection Hthrow as ->. exists [], c0, cs. split; [reflexivity |].
      split; [intros c' Hc'; by apply elem_of_nil in Hc' |].
      split; [exact Hact | by rewrite Hsat].
  - apply Hrest; [exact Hthrow |]. intros Hact'. congruence.
Qed.

Lemma satisfyModel_throw c specM schema opt (msg : string) :
  (satisfyModel c specM schema opt).2 = Throw msg →
  (allowWildcardForProperties c = false
   ∧ hasAllRequiredPropertiesSpecific c specM = Throw msg)
  ∨ satisfy c specM schema opt = Throw msg.
Proof.
  unfold satisfyModel, callPredicate.
  destruct (allowWildcardForProperties c); cbn.
  - destruct (satisfy c specM schema opt); cbn; [discriminate |].
    intros [= ->]. by right.
  - destruct (hasAllRequiredPropertiesSpecific c specM) as [[|] | msg']; cbn.
    + destruct (satisfy c specM schema opt); cbn; [discriminate |].
      intros [= ->]. by right.
    + discriminate.
    + intros [= ->]. by left.
Qed.

Lemma satisfyModel_no_log c specM schema opt (e : event) :
  e ∈ (satisfyModel c specM schema opt).1 → isLog e = false.
Proof. intros He. apply satisfyModel_trace in He. by destruct e. Qed.

Lemma passTrace_no_log (pre : list SpecConstraint) specM schema opt (e : event) :
  e ∈ passTrace pre specM schema opt → isLog e = false.
Proof.
  intros He. apply list_elem_of_In, in_flat_map in He as (c & _ & He).
  destruct (active opt c); [| destruct He].
  apply list_elem_of_In in He. by apply satisfyModel_no_log in He.
Qed.

(** X11.  When [checkSpec] throws.  Over any index, the run ends in an
    error exactly when the entry of the property holds an active rule whose
    [satisfy] method throws that error, every rule before it being passed:
    the error of such a rule always ends the run, and no run ends in an
    error otherwise.  At such a rule the calls made are those of the rules
    before it and of the rule itself, no later rule is called and nothing
    is logged; and the error is either the one
    [hasAllRequiredPropertiesSpecific] throws, for a rule that does not
    tolerate wildcards, or the one the predicate of the rule throws. *)
Theorem checkSpec_throws_iff index (prop : Property) (wildcard : object)
    specM schema opt (msg : string) :
  ((checkSpecWith toShorthand index prop wildcard specM schema opt).2 = Throw msg ↔
     ∃ (pre : list SpecConstraint) c (rest : list SpecConstraint),
       lookupIndex index prop = pre ++ c :: rest
       ∧ (∀ c', c' ∈ pre → passes c' specM schema opt)
       ∧ active opt c = true
       ∧ (satisfyModel c specM schema opt).2 = Throw msg)
  ∧ (∀ (pre : list SpecConstraint) c (rest : list SpecConstraint),
       lookupIndex index prop = pre ++ c :: rest →
       (∀ c', c' ∈ pre → passes c' specM schema opt) →
       active opt c = true →
       (satisfyModel c specM schema opt).2 = Throw msg →
       checkSpecWith toShorthand index prop wildcard specM schema opt
       = (passTrace pre specM schema opt ++ (satisfyModel c specM schema opt).1,
          Throw msg)
       ∧ (∀ e, e ∈ (checkSpecWith toShorthand index prop wildcard specM schema
                      opt).1 → isLog e = false)
       ∧ ((allowWildcardForProperties c = false
           ∧ hasAllRequiredPropertiesSpecific c specM = Throw msg)
          ∨ satisfy c specM schema opt = Throw msg)).
Proof.
  rewrite checkSpecWith_eq.
  assert (Hrun : ∀ (pre : list SpecConstraint) c (rest : list SpecConstraint),
            lookupIndex index prop = pre ++ c :: rest →
            (∀ c', c' ∈ pre → passes c' specM schema opt) →
            active opt c = true →
            (satisfyModel c specM schema opt).2 = Throw msg →
            checkConstraints toShorthand (lookupIndex index prop) wildcard
              specM schema opt
            = (passTrace pre specM schema opt
                 ++ (satisfyModel c specM schema opt).1, Throw msg)).
  { intros pre c rest Hentry Hpre Hact Hc.
    rewrite Hentry, checkConstraints_app by exact Hpre.
    rewrite checkConstraints_cons, Hact.
    destruct (satisfyModel c specM schema opt) as [t r]. cbn in Hc. by subst r. }
  split; [split |].
  - apply checkConstraints_throw.
  - intros (pre & c & rest & Hentry & Hpre & Hact & Hc).
    by rewrite (Hrun pre c rest Hentry Hpre Hact Hc).
  - intros pre c rest Hentry Hpre Hact Hc.
    rewrite (Hrun pre c rest Hentry Hpre Hact Hc).
    split; [reflexivity |]. split; [| by apply satisfyModel_throw].
    cbn [fst]. intros e He. apply elem_of_app in He as [He | He].
    + by apply passTrace_no_log in He.
    + by apply satisfyModel_no_log in He.
Qed.

(** X12.  What [checkSpec] logs.  The loop logs at most once: when it
    reports a violation under options whose [verbose] is truthy, the log
    is the last event of the run, it names the violation, the shorthand of
    the model and the name of the wildcard, and nothing is logged before
    it; and whenever something is logged, [verbose] is truthy and a
    violation is reported, which the log names. *)
Theorem verbose_log_iff_violation (cs : list SpecConstraint) (wildcard : object)
    specM schema opt :
  (∀ s : string,
      (checkConstraints toShorthand cs wildcard specM schema opt).2 = Ok (Some s) →
      truthy (optGet opt "verbose") = true →
      ∃ t : list event,
        (checkConstraints toShorthand cs wildcard specM schema opt).1
        = t ++ [violationLog toShorthand s wildcard specM]
        ∧ ∀ e, e ∈ t → isLog e = false)
  ∧ (∀ e : event,
       e ∈ (checkConstraints toShorthand cs wildcard specM schema opt).1 →
       isLog e = true →
       truthy (optGet opt "verbose") = true
       ∧ ∃ s : string,
           (checkConstraints toShorthand cs wildcard specM schema opt).2
           = Ok (Some s)
           ∧ e = violationLog toShorthand s wildcard specM).
Proof.
  induction cs as [|c cs [IH1 IH2]].
  - split; [discriminate |]. intros e He. by apply elem_of_nil in He.
  - rewrite checkConstraints_cons. destruct (active opt c); [| by split].
    pose proof (satisfyModel_no_log c specM schema opt) as Hnolog.
    destruct (satisfyModel c specM schema opt) as [t [[|] | msg]];
      cbn [fst snd] in *.
    + split.
      * intros s Hs Hv. destruct (IH1 s Hs Hv) as (t' & -> & Ht').
        exists (t ++ t'). split; [by rewrite app_assoc |].
        intros e He. apply elem_of_app in He as [He | He]; auto.
      * intros e He Hlog. apply elem_of_app in He as [He | He]; [| by apply IH2].
        rewrite (Hnolog e He) in Hlog. discriminate Hlog.
    + unfold verboseLog. split.
      * intros s [= <-] Hv. rewrite Hv. exists t. split; [reflexivity | exact Hnolog].
      * intros e He Hlog. apply elem_of_app in He as [He | He].
        { rewrite (Hnolog e He) in Hlog. discriminate Hlog. }
        destruct (truthy (optGet opt "verbose")); [| by apply elem_of_nil in He].
        apply list_elem_of_singleton in He as ->. split; [reflexivity |].
        eexists. split; reflexivity.
    + split; [discriminate |]. intros e He Hlog.
      rewrite (Hnolog e He) in Hlog. discriminate Hlog.
Qed.

Lemma satisfyModel_false c specM schema opt :
  (satisfyModel c specM schema opt).2 = Ok false →
  satisfy c specM schema opt = Ok false
  ∧ (allowWildcardForProperties c = true
     ∨ hasAllRequiredPropertiesSpecific c specM = Ok true).
Proof.
  unfold satisfyModel, callPredicate.
  destruct (allowWildcardForProperties c); cbn.
  - destruct (satisfy c specM schema opt) as [[|] | msg]; cbn; try discriminate.
    auto.
  - destruct (hasAllRequiredPropertiesSpecific c specM) as [[|] | msg']; cbn;
      try discriminate.
    destruct (satisfy c specM schema opt) as [[|] | msg]; cbn; try discriminate.
    auto.
Qed.

End LoopFacts.

Section IndexFacts.
Context {Schema : Type}.

Implicit Types (c : SpecConstraint (Schema := Schema)).
Implicit Types (index : PropIndex (list (SpecConstraint (Schema := Schema)))).

Lemma buildIndex_entry (catalogue : list SpecConstraint) (key : string) :
  default [] (buildIndex catalogue !! key)
  = flat_map (λ c, flat_map (λ p, if decide (toKey p = key) then [c] else [])
                     (properties c)) catalogue.
Proof.
  unfold buildIndex. by rewrite fold_indexConstraint_lookup, lookup_empty.
Qed.

Lemma declared_times c (key : string) (props : list Property) :
  flat_map (λ p, if decide (toKey p = key) then [c] else []) props
  = (λ _, c) <$> filter (λ p, toKey p = key) props.
Proof.
  induction props as [|p props IH]; [reflexivity |]. cbn [flat_map].
  rewrite filter_cons, IH. by destruct (decide (toKey p = key)).
Qed.

(** X13.  How the property index grows.  The entry of a property holds
    each rule of the catalogue once for every time the rule declares the
    property, in the order of the catalogue; hence the index of two
    catalogues registered one after the other has, for every property,
    the entry of the first followed by the entry of the second. *)
Theorem buildIndex_app (catalogue catalogue' : list (SpecConstraint (Schema := Schema)))
    (p : Property) :
  lookupIndex (buildIndex catalogue) p
  = flat_map (λ c, (λ _, c) <$> filter (λ q, toKey q = toKey p) (properties c))
      catalogue
  ∧ lookupIndex (buildIndex (catalogue ++ catalogue')) p
    = lookupIndex (buildIndex catalogue) p ++ lookupIndex (buildIndex catalogue') p.
Proof.
  unfold lookupIndex. rewrite !buildIndex_entry. split.
  - apply flat_map_ext. intros c. apply declared_times.
  - apply flat_map_app.
Qed.

Lemma indexProperty_is_Some c index (p : Property) (key : string) :
  is_Some (indexProperty c index p !! key) ↔ is_Some (index !! key) ∨ toKey p = key.
Proof.
  unfold indexProperty. destruct (decide (toKey p = key)) as [<- | Hne].
  - rewrite lookup_insert_eq. split; [by right | eauto].
  - rewrite !lookup_insert_ne by exact Hne. tauto.
Qed.

Lemma indexConstraint_is_Some c index (key : string) :
  is_Some (indexConstraint index c !! key) ↔ is_Some (index !! key) ∨ declares key c.
Proof.
  unfold indexConstraint, declares. generalize (properties c) as props.
  intros props. revert index. induction props as [|p props IH]; intros index; cbn.
  - rewrite elem_of_nil. tauto.
  - rewrite IH, indexProperty_is_Some, elem_of_cons.
    split; [intros [[H | H] | H]; auto | intros [H | [H | H]]; auto].
Qed.

Lemma buildIndex_is_Some (catalogue : list SpecConstraint) index (key : string) :
  is_Some (fold_left indexConstraint catalogue index !! key) ↔
  is_Some (index !! key) ∨ ∃ c, c ∈ catalogue ∧ declares key c.
Proof.
  revert index. induction catalogue as [|c catalogue IH]; intros index; cbn.
  - split; [by left |]. intros [H | (c & Hc & _)]; [exact H |].
    by apply elem_of_nil in Hc.
  - rewrite IH, indexConstraint_is_Some. split.
    + intros [[H | H] | (c' & Hc' & Hd)]; [by left | right | right].
      * exists c. split; [apply list_elem_of_here | exact H].
      * exists c'. split; [by apply list_elem_of_further | exact Hd].
    + intros [H | (c' & Hc' & Hd)]; [by left; left |].
      apply elem_of_cons in Hc' as [-> | Hc']; [by left; right |].
      right. eauto.
Qed.

(** X14.  Which keys the property index has.  Whatever the catalogue,
    its index has an entry under a key exactly when some rule declares a
    property with that key; an entry is never empty, and it holds only
    rules of the catalogue that declare the key.  So [index.get(prop)]
    is [undefined], and [checkSpec] falls back on the empty list, exactly
    for the properties that no rule declares. *)
Theorem buildIndex_entries (catalogue : list (SpecConstraint (Schema := Schema)))
    (key : string) :
  (is_Some (buildIndex catalogue !! key) ↔ ∃ c, c ∈ catalogue ∧ declares key c)
  ∧ (buildIndex catalogue !! key = None ↔ ∀ c, c ∈ catalogue → ¬ declares key c)
  ∧ (∀ entry : list SpecConstraint,
       buildIndex catalogue !! key = Some entry →
       entry ≠ [] ∧ ∀ c, c ∈ entry → c ∈ catalogue ∧ declares key c).
Proof.
  assert (Hsome : is_Some (buildIndex catalogue !! key) ↔
                  ∃ c, c ∈ catalogue ∧ declares key c).
  { unfold buildIndex. rewrite buildIndex_is_Some, lookup_empty.
    split; [intros [[x Hx] | H]; [discriminate Hx | exact H] | by right]. }
  assert (Hmem : ∀ c, c ∈ default [] (buildIndex catalogue !! key) ↔
                      c ∈ catalogue ∧ declares key c).
  { intros c. rewrite buildIndex_entry. rewrite list_elem_of_In, in_flat_map.
    split.
    - intros (c' & Hc' & Hin). apply in_flat_map in Hin as (p & Hp & Hin).
      destruct (decide (toKey p = key)) as [<- | _]; [| destruct Hin].
      destruct Hin as [<- | []]. split; [by apply list_elem_of_In |].
      unfold declares. apply list_elem_of_fmap_2. by apply list_elem_of_In.
    - intros [Hc Hd]. exists c. split; [by apply list_elem_of_In |].
      unfold declares in Hd. apply list_elem_of_fmap in Hd as (p & -> & Hp).
      apply in_flat_map. exists p. split; [by apply list_elem_of_In |].
      rewrite decide_True by reflexivity. by left. }
  split; [exact Hsome |]. split.
  - rewrite eq_None_not_Some, Hsome. split.
    + intros Hno c Hc Hd. apply Hno. eauto.
    + intros Hno (c & Hc & Hd). by apply (Hno c).
  - intros entry Hentry. split.
    + destruct (proj1 Hsome (mk_is_Some _ _ Hentry)) as (c & Hc & Hd).
      intros ->. assert (Hin : c ∈ default [] (buildIndex catalogue !! key))
        by (by apply Hmem).
      rewrite Hentry in Hin. by apply elem_of_nil in Hin.
    + intros c Hc. apply Hmem. by rewrite Hentry.
Qed.

Lemma indexByName_fold (catalogue : list (SpecConstraint (Schema := Schema)))
    (m : gmap string SpecConstraint) (n : string) :
  fold_left (λ m c, <[name c := c]> m) catalogue m !! n
  = match last (filter (λ c, name c = n) catalogue) with
    | Some c => Some c
    | None => m !! n
    end.
Proof.
  revert m. induction catalogue as [|c catalogue IH]; intros m; [reflexivity |].
  cbn [fold_left]. rewrite IH, filter_cons.
  destruct (decide (name c = n)) as [<- | Hne].
  - destruct (filter _ catalogue) as [|c' l] eqn:Hf; cbn.
    + by rewrite lookup_insert_eq.
    + rewrite last_cons. by destruct (last l).
  - destruct (last _); [reflexivity |]. by rewrite lookup_insert_ne.
Qed.

End IndexFacts.

Section CatalogueFacts.
Context `{table : PropertyTable} {Schema : Type}.
Context (JSON_stringify : value → string).
Context (isMeasure isDimension : value → bool).
Context (toShorthand : SpecQueryModel → string).
Context (rulePredicate : string → SpecConstraintChecker (Schema := Schema)).

Implicit Types (specM : SpecQueryModel) (schema : Schema) (opt : QueryConfig).

Local Abbreviation catalogue :=
  (SPEC_CONSTRAINTS JSON_stringify isMeasure isDimension rulePredicate).
Local Abbreviation byProperty :=
  (SPEC_CONSTRAINTS_BY_PROPERTY JSON_stringify isMeasure isDimension rulePredicate).
Local Abbreviation byName :=
  (SPEC_CONSTRAINT_INDEX JSON_stringify isMeasure isDimension rulePredicate).

(** X15.  What a violation that [checkSpec] reports means.  When
    [checkSpec] returns a name, it is ['(spec) '] followed by the name of
    exactly one rule of the catalogue; that rule declares the property
    asked for, it is active under the options (strict, or enabled under
    its name), its predicate answered [false] on the model, and it was
    not skipped: it tolerates wildcards, or
    [hasAllRequiredPropertiesSpecific] answered [true] for it. *)
Theorem checkSpec_reports_real_violations (prop : Property) (wildcard : object)
    specM schema opt (s : string) :
  (checkSpec JSON_stringify isMeasure isDimension toShorthand rulePredicate
     prop wildcard specM schema opt).2 = Ok (Some s) →
  ∃ c : SpecConstraint,
    c ∈ catalogue
    ∧ declares (toKey prop) c
    ∧ s = "(spec) " +:+ name c
    ∧ (∀ c' : SpecConstraint, c' ∈ catalogue → s = "(spec) " +:+ name c' → c' = c)
    ∧ active opt c = true
    ∧ satisfy c specM schema opt = Ok false
    ∧ (allowWildcardForProperties c = true
       ∨ hasAllRequiredPropertiesSpecific c specM = Ok true).
Proof.
  rewrite checkSpec_unfold, checkSpecWith_eq, catalogue_lookup. intros Hret.
  apply checkConstraints_violation in Hret as (c & Hin & -> & Hact & Hfalse).
  apply list_elem_of_filter in Hin as [Hd Hin].
  apply satisfyModel_false in Hfalse as [Hpred Hasked].
  exists c. repeat split; try assumption.
  intros c' Hc' Hname. apply violation_name_inj in Hname.
  apply (unique_name catalogue); auto using catalogue_names_NoDup.
Qed.

Lemma filter_unique_name (cs : list (SpecConstraint (Schema := Schema)))
    (c : SpecConstraint) :
  NoDup (name <$> cs) → c ∈ cs → filter (λ c', name c' = name c) cs = [c].
Proof.
  induction cs as [|c0 cs IH]; intros Hnodup Hc.
  - by apply elem_of_nil in Hc.
  - cbn in Hnodup. apply NoDup_cons in Hnodup as [Hfresh Hnodup].
    rewrite filter_cons. apply elem_of_cons in Hc as [-> | Hc].
    + rewrite decide_True by reflexivity. f_equal.
      destruct (filter _ cs) as [|c' l] eqn:Hf; [reflexivity |].
      assert (Hc' : c' ∈ filter (λ c', name c' = name c0) cs)
        by (rewrite Hf; apply list_elem_of_here).
      apply list_elem_of_filter in Hc' as [Hname Hc']. destruct Hfresh.
      rewrite <- Hname. by apply list_elem_of_fmap_2.
    + rewrite decide_False; [by apply IH |].
      intros Hname. destruct Hfresh. rewrite Hname. by apply list_elem_of_fmap_2.
Qed.

(** X16.  [SPEC_CONSTRAINT_INDEX], the dictionary of the rules by name.
    The reducer overwrites: for any list of rules, the own property that
    the dictionary has under a name is the last rule of the list with this
    name, and it has none under a name no rule has.  In the catalogue no
    two rules have the same name, so that [SPEC_CONSTRAINT_INDEX] holds
    every rule of the catalogue under its own name, none being shadowed,
    and its own properties are these rules only. *)
Theorem constraint_index_by_name :
  (∀ (rules : list (SpecConstraint (Schema := Schema))) (n : string),
      indexByName rules !! n = last (filter (λ c, name c = n) rules))
  ∧ (∀ c : SpecConstraint, c ∈ catalogue → byName !! name c = Some c)
  ∧ (∀ (n : string) (c : SpecConstraint),
       byName !! n = Some c → c ∈ catalogue ∧ name c = n).
Proof.
  assert (Hlast : ∀ (rules : list (SpecConstraint (Schema := Schema))) (n : string),
            indexByName rules !! n = last (filter (λ c, name c = n) rules)).
  { intros rules n. unfold indexByName. rewrite indexByName_fold, lookup_empty.
    by destruct (last _). }
  split; [exact Hlast |]. split.
  - intros c Hc. unfold SPEC_CONSTRAINT_INDEX.
    rewrite Hlast, filter_unique_name; auto using catalogue_names_NoDup.
  - intros n c. unfold SPEC_CONSTRAINT_INDEX. rewrite Hlast. intros Hc.
    apply last_Some_elem_of, list_elem_of_filter in Hc. tauto.
Qed.

End CatalogueFacts.

Section MarkSwitches.
Context {Schema : Type}.
Context (JSON_stringify : value → string).
Context (isMeasure isDimension : value → bool).

Implicit Types (specM : SpecQueryModel) (schema : Schema) (opt : QueryConfig).

Lemma switchReturn_otherwise {A : Type} (v : value)
    (cases : list (list string * A)) (otherwise : A) :
  (∀ c, c ∈ cases → containsValue c.1 v = false) →
  switchReturn v cases otherwise = otherwise.
Proof.
  intros Hno. unfold switchReturn.
  destruct (List.find _ cases) as [c |] eqn:Hfind; [| reflexivity].
  apply find_some in Hfind as [Hin Hc]. apply list_elem_of_In in Hin.
  rewrite (Hno c Hin) in Hc. discriminate Hc.
Qed.

Lemma containsValue_elem_of (arr : list string) (v : value) :
  containsValue arr v = true ↔ ∃ lit, lit ∈ arr ∧ v = VStr lit.
Proof.
  unfold containsValue. rewrite existsb_elem_of. split.
  - intros (lit & Hin & Heq). exists lit. split; [exact Hin |].
    destruct v; try discriminate Heq. cbn in Heq.
    apply String.eqb_eq in Heq. by subst.
  - intros (lit & Hin & ->). exists lit. split; [exact Hin |].
    cbn. apply String.eqb_refl.
Qed.

Lemma containsValue_sub (arr arr' : list string) (v : value) :
  arr ⊆ arr' → containsValue arr' v = false → containsValue arr v = false.
Proof.
  intros Hsub Hno. destruct (containsValue arr v) eqn:Hyes; [| reflexivity].
  apply containsValue_elem_of in Hyes as (lit & Hin & ->).
  rewrite <- Hno. symmetry. apply containsValue_elem_of. eauto.
Qed.

(** X17.  The two [switch] statements on the mark handle the same
    marks.  When the mark of the model is one of the ten marks with a
    [case], the predicates of [hasAllRequiredChannelsForMark] and of
    [hasAppropriateGraphicTypeForMark] both return a truth value; for
    every other mark value, a string or not (a wildcard object,
    [undefined]), both throw, the first naming the mark through
    [JSON.stringify] and the second through string conversion. *)
Theorem mark_switches_agree specM schema opt :
  (containsValue KNOWN_MARKS (getMark specM) = true →
     (∃ b : bool, hasAllRequiredChannelsForMark JSON_stringify specM schema opt = Ok b)
     ∧ (∃ b : bool,
          hasAppropriateGraphicTypeForMark isMeasure isDimension specM schema opt
          = Ok b))
  ∧ (containsValue KNOWN_MARKS (getMark specM) = false →
     hasAllRequiredChannelsForMark JSON_stringify specM schema opt
     = Throw ("hasAllRequiredChannelsForMark not implemented for mark"
              +:+ JSON_stringify (getMark specM))
     ∧ hasAppropriateGraphicTypeForMark isMeasure isDimension specM schema opt
       = Throw ("hasAllRequiredChannelsForMark not implemented for mark"
                +:+ toStr (getMark specM))).
Proof.
  split.
  - intros Hknown. apply containsValue_elem_of in Hknown as (m & Hm & Hmark).
    unfold hasAllRequiredChannelsForMark, hasAppropriateGraphicTypeForMark.
    rewrite Hmark. apply list_elem_of_In in Hm. cbn in Hm.
    destruct Hm as [<- | [<- | [<- | [<- | [<- | [<- | [<- | [<- | [<- | [<- | []]]]]]]]]]];
      (split; [eexists; reflexivity |]);
      unfold switchReturn; cbn [List.find fst snd containsValue existsb eqStr
        String.eqb Ascii.eqb Bool.eqb orb Mark.AREA Mark.LINE Mark.TEXT Mark.BAR
        Mark.CIRCLE Mark.SQUARE Mark.TICK Mark.RULE Mark.RECT Mark.POINT];
      repeat match goal with
             | |- context [if ?b then _ else _] => destruct b
             end; eexists; reflexivity.
  - intros Hunknown.
    unfold hasAllRequiredChannelsForMark, hasAppropriateGraphicTypeForMark.
    split; apply switchReturn_otherwise; intros c Hc;
      apply (containsValue_sub _ KNOWN_MARKS); try exact Hunknown;
      apply list_elem_of_In in Hc; cbn [In] in Hc.
    + destruct Hc as [<- | [<- | [<- | [<- | []]]]]; cbn [fst];
        intros x Hx; apply list_elem_of_In in Hx; apply list_elem_of_In;
        cbn in *; tauto.
    + destruct Hc as [<- | [<- | [<- | [<- | [<- | []]]]]]; cbn [fst];
        intros x Hx; apply list_elem_of_In in Hx; apply list_elem_of_In;
        cbn in *; tauto.
Qed.

End MarkSwitches.

(* ===================================================================== *)
(** * 13. Further properties of [src/constraint/spec.ts]: the rules *)
(* ===================================================================== *)

Section ChannelRules.
Context `{table : PropertyTable} {Schema : Type}.
Context (inheritedName : string → bool).

Implicit Types (specM : SpecQueryModel) (schema : Schema) (opt : QueryConfig).

Lemma noRepeatedChannelFrom_iff (usedChannel : gset string)
    (encodings : list object) :
  noRepeatedChannelFrom inheritedName usedChannel encodings = true ↔
  NoDup (channelKeysOf encodings)
  ∧ ∀ k, k ∈ channelKeysOf encodings →
         (k ∉ usedChannel) ∧ inheritedName k = false.
Proof.
  revert usedChannel. unfold channelKeysOf.
  induction encodings as [|encQ rest IH]; intros usedChannel.
  - cbn. split; [| reflexivity]. intros _. split; [apply NoDup_nil_2 |].
    intros k Hk. by apply elem_of_nil in Hk.
  - cbn [noRepeatedChannelFrom]. rewrite filter_cons.
    destruct (isWildcard (field encQ "channel")) eqn:Hw; cbn [negb].
    + rewrite decide_False by discriminate. apply IH.
    + rewrite decide_True by reflexivity. cbn [fmap list_fmap].
      set (k0 := toStr (field encQ "channel")). unfold dictRead.
      destruct (decide (k0 ∈ usedChannel)) as [Hused | Hfresh].
      * rewrite bool_decide_eq_true_2 by exact Hused. cbn.
        split; [discriminate |]. intros [_ Hall].
        destruct (Hall k0 (list_elem_of_here _ _)) as [Hno _]. contradiction.
      * rewrite bool_decide_eq_false_2 by exact Hfresh. cbn.
        destruct (inheritedName k0) eqn:Hinh.
        { split; [discriminate |]. intros [_ Hall].
          destruct (Hall k0 (list_elem_of_here _ _)) as [_ Hno]. congruence. }
        rewrite IH, NoDup_cons. split.
        -- intros [Hnodup Hall]. split; [split; [| exact Hnodup] |].
           ++ intros Hin. destruct (Hall k0 Hin) as [Hno _]. apply Hno.
              apply elem_of_union. left. by apply elem_of_singleton.
           ++ intros k Hk. apply elem_of_cons in Hk as [-> | Hk]; [by split |].
              destruct (Hall k Hk) as [Hno Hk']. split; [| exact Hk'].
              intros Hu. apply Hno. apply elem_of_union. by right.
        -- intros [[Hk0 Hnodup] Hall]. split; [exact Hnodup |].
           intros k Hk. destruct (Hall k (list_elem_of_further _ _ _ Hk)) as [Hno Hk'].
           split; [| exact Hk']. intros Hu.
           apply elem_of_union in Hu as [Hu | Hu]; [| contradiction].
           apply elem_of_singleton in Hu. congruence.
Qed.

Lemma noRepeatedChannel_accepts specM schema opt :
  noRepeatedChannel inheritedName specM schema opt = Ok true ↔
  NoDup (channelKeys specM) ∧ ∀ k, k ∈ channelKeys specM → inheritedName k = false.
Proof.
  unfold noRepeatedChannel, channelKeys. split.
  - intros [= Hloop]. apply noRepeatedChannelFrom_iff in Hloop as [Hnodup Hall].
    split; [exact Hnodup |]. intros k Hk. by destruct (Hall k Hk).
  - intros [Hnodup Hall]. f_equal. apply noRepeatedChannelFrom_iff.
    split; [exact Hnodup |]. intros k Hk. split; [| by apply Hall].
    apply not_elem_of_empty.
Qed.

(** X18.  What rule [noRepeatedChannel] accepts.  Its predicate answers
    [true] exactly when the usable encodings whose channel is not a
    wildcard have pairwise distinct channels (compared as dictionary
    keys) and none of these keys is a name that every object inherits
    from [Object.prototype]; otherwise it answers [false], and it never
    throws. *)
Theorem noRepeatedChannel_distinct_channels specM schema opt :
  (noRepeatedChannel inheritedName specM schema opt = Ok true ↔
     NoDup (channelKeys specM)
     ∧ ∀ k, k ∈ channelKeys specM → inheritedName k = false)
  ∧ (noRepeatedChannel inheritedName specM schema opt = Ok false ↔
     ¬ (NoDup (channelKeys specM)
        ∧ ∀ k, k ∈ channelKeys specM → inheritedName k = false)).
Proof.
  split; [apply noRepeatedChannel_accepts |].
  rewrite <- (noRepeatedChannel_accepts specM schema opt).
  unfold noRepeatedChannel.
  destruct (noRepeatedChannelFrom _ _ _); split; congruence.
Qed.

Lemma fmap_filter_sublist {A B : Type} (f : A → B) (g : B → A) (P : B → Prop)
    `{∀ b, Decision (P b)} (l : list A) :
  (∀ a, a ∈ l → g (f a) = a) → sublist (g <$> filter P (f <$> l)) l.
Proof.
  induction l as [|a l IH]; intros Hg; [constructor |].
  cbn [fmap list_fmap]. rewrite filter_cons.
  assert (Hrest : sublist (g <$> filter P (f <$> l)) l).
  { apply IH. intros a' Ha'. apply Hg. by apply list_elem_of_further. }
  destruct (decide (P (f a))).
  - cbn [fmap list_fmap]. rewrite (Hg a) by apply list_elem_of_here.
    by apply sublist_skip.
  - by apply sublist_cons.
Qed.

(** X19.  A document never produces a repeated channel.  When the keys
    of the [encoding] object of a document are pairwise distinct, none of
    them is a name inherited from [Object.prototype], and no channel
    definition hands over a [channel] property of its own, the query that
    [fromSpec] builds satisfies rule [noRepeatedChannel], whatever the
    wildcard index of the model. *)
Theorem fromSpec_no_repeated_channel (spec : object) (wi : WildcardIndex)
    schema opt :
  NoDup (ownKeys (field spec "encoding")) →
  (∀ channel : string, channel ∈ ownKeys (field spec "encoding") →
     inheritedName channel = false
     ∧ copies (get (field spec "encoding") channel) "channel" = false) →
  noRepeatedChannel inheritedName (mkSpecQueryModel (fromSpec spec) wi) schema opt
  = Ok true.
Proof.
  intros Hnodup Hkeys. set (encoding := field spec "encoding") in *.
  assert (Hsub : sublist (channelKeys (mkSpecQueryModel (fromSpec spec) wi))
                   (ownKeys encoding)).
  { unfold channelKeys, channelKeysOf, getEncodings.
    cbn [specQuery fromSpec encodings]. fold encoding.
    rewrite list_filter_filter.
    apply (fmap_filter_sublist (encodingOfChannel encoding)
             (λ encQ, toStr (field encQ "channel"))).
    intros channel Hin.
    destruct (encodingOfChannel_spec encoding channel) as (Hchannel & _).
    cbv zeta in Hchannel. rewrite Hchannel.
    destruct (Hkeys channel Hin) as [_ ->]. reflexivity. }
  apply noRepeatedChannel_accepts. split.
  - eapply sublist_NoDup; eauto.
  - intros k Hk. apply Hkeys. eapply elem_of_sublist; eauto.
Qed.

End ChannelRules.

Section FieldRule.
Context {Schema : Type}.
Context (inheritedName : string → bool).

Implicit Types (specM : SpecQueryModel) (schema : Schema) (opt : QueryConfig).

(** One turn of the loop of [omitRepeatedField].  The assignment of
    ['count_*'] is never reached: an auto-count mapping has already been
    skipped by the [continue] above it. *)
Lemma omitRepeatedFieldFrom_cons specM opt (i : nat) (encQ : object)
    (rest : list object) (fieldUsed fieldEnumerated : gset string) :
  omitRepeatedFieldFrom inheritedName specM opt i (encQ :: rest)
    fieldUsed fieldEnumerated
  = match fieldKey encQ with
    | None =>
        omitRepeatedFieldFrom inheritedName specM opt (i + 1) rest
          fieldUsed fieldEnumerated
    | Some k =>
        let fieldEnumerated' :=
          if hasEncodingProperty (wildcardIndex specM) i Property.FIELD
          then {[k]} ∪ fieldEnumerated else fieldEnumerated in
        if dictRead inheritedName fieldUsed k
           && (dictRead inheritedName fieldEnumerated' k
               || truthy (optGet opt "constraintManuallySpecifiedValue"))
        then false
        else
          omitRepeatedFieldFrom inheritedName specM opt (i + 1) rest
            ({[k]} ∪ fieldUsed) fieldEnumerated'
    end.
Proof.
  cbn [omitRepeatedFieldFrom]. unfold fieldKey.
  destruct (isValueQuery (VObj encQ)); [reflexivity |].
  destruct (isAutoCountQuery (VObj encQ)); [reflexivity |]. cbn [orb negb andb].
  destruct (truthy (field encQ "field")) eqn:Ht; [| reflexivity].
  destruct (isWildcard (field encQ "field")); [reflexivity |].
  cbn [negb andb]. by rewrite Ht.
Qed.

Lemma fieldKeyAt_cons (encQ : object) (rest : list object) (j : nat) :
  fieldKeyAt (encQ :: rest) (S j) = fieldKeyAt rest j.
Proof. reflexivity. Qed.

Lemma dictRead_true (d : gset string) (k : string) :
  dictRead inheritedName d k = true ↔ k ∈ d ∨ inheritedName k = true.
Proof.
  unfold dictRead. by rewrite orb_true_iff, bool_decide_eq_true.
Qed.

Lemma omitRepeatedFieldFrom_false specM opt (i0 : nat) (l : list object)
    (fieldUsed fieldEnumerated : gset string) :
  omitRepeatedFieldFrom inheritedName specM opt i0 l fieldUsed fieldEnumerated
  = false ↔
  ∃ (j : nat) (k : string),
    fieldKeyAt l j = Some k
    ∧ (inheritedName k = true ∨ k ∈ fieldUsed
       ∨ ∃ i : nat, (i < j)%nat ∧ fieldKeyAt l i = Some k)
    ∧ (inheritedName k = true
       ∨ truthy (optGet opt "constraintManuallySpecifiedValue") = true
       ∨ k ∈ fieldEnumerated
       ∨ ∃ m : nat, (m ≤ j)%nat ∧ fieldKeyAt l m = Some k
              ∧ hasEncodingProperty (wildcardIndex specM) (i0 + m) Property.FIELD
                = true).
Proof.
  revert i0 fieldUsed fieldEnumerated.
  induction l as [|encQ rest IH]; intros i0 U E.
  - cbn. split; [discriminate |]. intros (j & k & Hk & _). discriminate Hk.
  - rewrite omitRepeatedFieldFrom_cons.
    destruct (fieldKey encQ) as [k0|] eqn:Hkey.
    + cbv zeta.
      set (E' := if hasEncodingProperty (wildcardIndex specM) i0 Property.FIELD
                 then {[k0]} ∪ E else E).
      assert (HE' : ∀ k, k ∈ E' ↔
                k ∈ E ∨ (k = k0 ∧ hasEncodingProperty (wildcardIndex specM) i0
                                     Property.FIELD = true)).
      { intros k. unfold E'.
        destruct (hasEncodingProperty (wildcardIndex specM) i0 Property.FIELD).
        - rewrite elem_of_union, elem_of_singleton. tauto.
        - split; [tauto | intros [H | [_ H]]; [exact H | discriminate H]]. }
      destruct (dictRead inheritedName U k0
                && (dictRead inheritedName E' k0
                    || truthy (optGet opt "constraintManuallySpecifiedValue")))
        eqn:Hcond.
      * split; [| reflexivity]. intros _. exists 0, k0.
        apply andb_true_iff in Hcond as [HU HE].
        apply dictRead_true in HU. apply orb_true_iff in HE.
        rewrite dictRead_true, HE' in HE.
        split; [exact Hkey |]. split; [tauto |].
        destruct HE as [[[HE | [_ HE]] | HE] | HE]; [tauto | | tauto | tauto].
        right. right. right. exists 0. rewrite Nat.add_0_r.
        split; [lia |]. split; [exact Hkey | exact HE].
      * rewrite IH. split.
        -- intros (j & k & Hk & HA & HB). exists (S j), k.
           split; [exact Hk |]. split.
           ++ destruct HA as [HA | [HA | (i & Hi & HA)]]; [tauto | |].
              ** apply elem_of_union in HA as [HA | HA]; [| tauto].
                 apply elem_of_singleton in HA as ->. right. right.
                 exists 0. split; [lia | exact Hkey].
              ** right. right. exists (S i). split; [lia | exact HA].
           ++ destruct HB as [HB | [HB | [HB | (m & Hm & HB & Henum)]]];
                [tauto | tauto | |].
              ** apply HE' in HB as [HB | [-> HB]]; [tauto |].
                 right. right. right. exists 0. rewrite Nat.add_0_r.
                 split; [lia |]. split; [exact Hkey | exact HB].
              ** right. right. right. exists (S m).
                 split; [lia |]. split; [exact HB |].
                 replace (i0 + S m) with (i0 + 1 + m) by lia. exact Henum.
        -- intros (j & k & Hk & HA & HB). destruct j as [|j].
           ++ exfalso. cbn in Hk. rewrite Hkey in Hk. injection Hk as <-.
              apply andb_false_iff in Hcond as [Hcond | Hcond].
              ** assert (HU : dictRead inheritedName U k0 = true); [| congruence].
                 apply dictRead_true.
                 destruct HA as [HA | [HA | (i & Hi & _)]]; [tauto | tauto | lia].
              ** apply orb_false_iff in Hcond as [Hread Hmanual].
                 assert (HE : dictRead inheritedName E' k0 = true); [| congruence].
                 apply dictRead_true. rewrite HE'.
                 destruct HB as [HB | [HB | [HB | (m & Hm & _ & Henum)]]];
                   [tauto | congruence | tauto |].
                 assert (m = 0) as -> by lia. rewrite Nat.add_0_r in Henum. tauto.
           ++ rewrite fieldKeyAt_cons in Hk. exists j, k.
              split; [exact Hk |]. split.
              ** destruct HA as [HA | [HA | (i & Hi & HA)]]; [tauto | |].
                 { right. left. apply elem_of_union. tauto. }
                 destruct i as [|i].
                 { cbn in HA. rewrite Hkey in HA. injection HA as ->.
                   right. left. apply elem_of_union. left.
                   by apply elem_of_singleton. }
                 right. right. exists i. split; [lia | exact HA].
              ** destruct HB as [HB | [HB | [HB | (m & Hm & HB & Henum)]]];
                   [tauto | tauto | |].
                 { right. right. left. apply HE'. tauto. }
                 destruct m as [|m].
                 { cbn in HB. rewrite Hkey in HB. injection HB as ->.
                   rewrite Nat.add_0_r in Henum.
                   right. right. left. apply HE'. tauto. }
                 right. right. right. exists m. split; [lia |].
                 split; [exact HB |].
                 replace (i0 + 1 + m) with (i0 + S m) by lia. exact Henum.
    + rewrite IH. split.
      * intros (j & k & Hk & HA & HB). exists (S j), k. split; [exact Hk |].
        split.
        -- destruct HA as [HA | [HA | (i & Hi & HA)]]; [tauto | tauto |].
           right. right. exists (S i). split; [lia | exact HA].
        -- destruct HB as [HB | [HB | [HB | (m & Hm & HB & Henum)]]];
             [tauto | tauto | tauto |].
           right. right. right. exists (S m). split; [lia |].
           split; [exact HB |].
           replace (i0 + S m) with (i0 + 1 + m) by lia. exact Henum.
      * intros (j & k & Hk & HA & HB). destruct j as [|j].
        { cbn in Hk. rewrite Hkey in Hk. discriminate Hk. }
        rewrite fieldKeyAt_cons in Hk. exists j, k. split; [exact Hk |]. split.
        -- destruct HA as [HA | [HA | (i & Hi & HA)]]; [tauto | tauto |].
           destruct i as [|i].
           { cbn in HA. rewrite Hkey in HA. discriminate HA. }
           right. right. exists i. split; [lia | exact HA].
        -- destruct HB as [HB | [HB | [HB | (m & Hm & HB & Henum)]]];
             [tauto | tauto | tauto |].
           destruct m as [|m].
           { cbn in HB. rewrite Hkey in HB. discriminate HB. }
           right. right. right. exists m. split; [lia |]. split; [exact HB |].
           replace (i0 + 1 + m) with (i0 + S m) by lia. exact Henum.
Qed.

Lemma omitRepeatedField_rejects specM schema opt :
  omitRepeatedField inheritedName specM schema opt = Ok false ↔
  ∃ (j : nat) (k : string),
    fieldKeyAt (encodings (specQuery specM)) j = Some k
    ∧ (inheritedName k = true
       ∨ ∃ i : nat, (i < j)%nat ∧ fieldKeyAt (encodings (specQuery specM)) i = Some k)
    ∧ (inheritedName k = true
       ∨ truthy (optGet opt "constraintManuallySpecifiedValue") = true
       ∨ ∃ m : nat, (m ≤ j)%nat ∧ fieldKeyAt (encodings (specQuery specM)) m = Some k
              ∧ hasEncodingProperty (wildcardIndex specM) m Property.FIELD = true).
Proof.
  unfold omitRepeatedField.
  transitivity (omitRepeatedFieldFrom inheritedName specM opt 0
                  (encodings (specQuery specM)) ∅ ∅ = false).
  { split; [by intros [= ->] | by intros ->]. }
  rewrite omitRepeatedFieldFrom_false. split.
  - intros (j & k & Hk & HA & HB). exists j, k. split; [exact Hk |]. split.
    + destruct HA as [HA | [HA | HA]]; [tauto | | tauto].
      by apply not_elem_of_empty in HA.
    + destruct HB as [HB | [HB | [HB | HB]]]; [tauto | tauto | | tauto].
      by apply not_elem_of_empty in HB.
  - intros (j & k & Hk & HA & HB). exists j, k. tauto.
Qed.

(** X20.  What rule [omitRepeatedField] rejects.  Only the encodings
    that are neither literal values nor auto-counts and whose field is
    truthy and not a wildcard take part, each under the dictionary key of
    its field.  The predicate answers [false] exactly when some such
    encoding holds a field that an earlier such encoding holds too, and
    either [opt.constraintManuallySpecifiedValue] is truthy or the field
    is enumerated in one of these encodings up to that position; a field
    whose name every object inherits from [Object.prototype] counts as
    used and enumerated from the start, so that a single encoding of such
    a field is rejected.  In every other case the answer is [true]. *)
Theorem omitRepeatedField_spec specM schema opt :
  (omitRepeatedField inheritedName specM schema opt = Ok false ↔
   ∃ (j : nat) (k : string),
     fieldKeyAt (encodings (specQuery specM)) j = Some k
     ∧ (inheritedName k = true
        ∨ ∃ i : nat, (i < j)%nat ∧ fieldKeyAt (encodings (specQuery specM)) i = Some k)
     ∧ (inheritedName k = true
        ∨ truthy (optGet opt "constraintManuallySpecifiedValue") = true
        ∨ ∃ m : nat, (m ≤ j)%nat ∧ fieldKeyAt (encodings (specQuery specM)) m = Some k
               ∧ hasEncodingProperty (wildcardIndex specM) m Property.FIELD = true))
  ∧ (omitRepeatedField inheritedName specM schema opt = Ok false
     ∨ omitRepeatedField inheritedName specM schema opt = Ok true)
  ∧ (∀ (j : nat) (k : string),
       fieldKeyAt (encodings (specQuery specM)) j = Some k →
       inheritedName k = true →
       omitRepeatedField inheritedName specM schema opt = Ok false).
Proof.
  split; [apply omitRepeatedField_rejects |]. split.
  - unfold omitRepeatedField. destruct (omitRepeatedFieldFrom _ _ _ _ _ _ _); auto.
  - intros j k Hk Hinh. apply omitRepeatedField_rejects. exists j, k. tauto.
Qed.

End FieldRule.

Section PositionRules.
Context {Schema : Type}.
Context (isMeasure isDimension : value → bool).

Implicit Types (specM : SpecQueryModel) (schema : Schema) (opt : QueryConfig).

(** X21.  Rule [omitBarTickWithSize] and the size channel.  Its
    predicate answers [false] exactly when the mark is [tick] or [bar],
    some usable encoding binds [size], and either
    [opt.constraintManuallySpecifiedValue] is truthy or the first
    encoding of the raw list that binds [size] has its channel
    enumerated; otherwise it answers [true].  Whenever it answers
    [false], rule [hasAppropriateGraphicTypeForMark] answers [false] too,
    whatever the options. *)
Theorem size_on_bar_or_tick specM schema opt :
  (omitBarTickWithSize specM schema opt = Ok false ↔
     containsValue [Mark.TICK; Mark.BAR] (getMark specM) = true
     ∧ channelUsed specM Channel.SIZE = true
     ∧ (truthy (optGet opt "constraintManuallySpecifiedValue") = true
        ∨ ∃ (i : nat) (encQ : object),
            encodings (specQuery specM) !! i = Some encQ
            ∧ eqStr (field encQ "channel") Channel.SIZE = true
            ∧ (∀ (j : nat) (encQ' : object),
                 (j < i)%nat → encodings (specQuery specM) !! j = Some encQ' →
                 eqStr (field encQ' "channel") Channel.SIZE = false)
            ∧ hasEncodingProperty (wildcardIndex specM) i Property.CHANNEL = true))
  ∧ (omitBarTickWithSize specM schema opt = Ok false
     ∨ omitBarTickWithSize specM schema opt = Ok true)
  ∧ (omitBarTickWithSize specM schema opt = Ok false →
     ∀ (schema' : Schema) (opt' : QueryConfig),
       hasAppropriateGraphicTypeForMark isMeasure isDimension specM schema' opt'
       = Ok false).
Proof.
  assert (Hiff : omitBarTickWithSize specM schema opt = Ok false ↔
     containsValue [Mark.TICK; Mark.BAR] (getMark specM) = true
     ∧ channelUsed specM Channel.SIZE = true
     ∧ (truthy (optGet opt "constraintManuallySpecifiedValue") = true
        ∨ ∃ (i : nat) (encQ : object),
            encodings (specQuery specM) !! i = Some encQ
            ∧ eqStr (field encQ "channel") Channel.SIZE = true
            ∧ (∀ (j : nat) (encQ' : object),
                 (j < i)%nat → encodings (specQuery specM) !! j = Some encQ' →
                 eqStr (field encQ' "channel") Channel.SIZE = false)
            ∧ hasEncodingProperty (wildcardIndex specM) i Property.CHANNEL = true)).
  { unfold omitBarTickWithSize.
    destruct (containsValue [Mark.TICK; Mark.BAR] (getMark specM));
      [| split; [discriminate | intros [H _]; discriminate H]].
    destruct (channelUsed specM Channel.SIZE);
      [| split; [discriminate | intros (_ & H & _); discriminate H]].
    destruct (truthy (optGet opt "constraintManuallySpecifiedValue"));
      [split; auto |].
    destruct (list_find _ (encodings (specQuery specM))) as [[i encQ]|] eqn:Hfind.
    - apply list_find_Some in Hfind as (Hi & Hsize & Hfirst).
      destruct (hasEncodingProperty (wildcardIndex specM) i Property.CHANNEL)
        eqn:Henum.
      + split; [| reflexivity]. intros _. split; [reflexivity |].
        split; [reflexivity |]. right. exists i, encQ.
        split; [exact Hi |]. split; [exact Hsize |]. split; [| exact Henum].
        intros j encQ' Hj Hj'. apply not_true_is_false. by apply (Hfirst j).
      + split; [discriminate |].
        intros (_ & _ & [H | (i' & encQ' & Hi' & Hsize' & Hfirst' & Henum')]);
          [discriminate H |].
        exfalso. destruct (Nat.lt_trichotomy i i') as [Hlt | [-> | Hlt]].
        * rewrite (Hfirst' i encQ Hlt Hi) in Hsize. discriminate Hsize.
        * congruence.
        * by apply (Hfirst i' encQ' Hi' Hlt).
    - split; [discriminate |].
      intros (_ & _ & [H | (i' & encQ' & Hi' & Hsize' & _)]); [discriminate H |].
      exfalso. apply list_find_None in Hfind. rewrite Forall_forall in Hfind.
      apply (Hfind encQ'); [| exact Hsize']. by apply list_elem_of_lookup_2 in Hi'. }
  split; [exact Hiff |]. split.
  - unfold omitBarTickWithSize.
    destruct (containsValue _ _); [| auto]. destruct (channelUsed _ _); [| auto].
    destruct (truthy _); [auto |]. destruct (list_find _ _) as [[i encQ]|]; [| auto].
    destruct (hasEncodingProperty _ _ _); auto.
  - intros Hfalse schema' opt'. apply Hiff in Hfalse as (Hmark & Hsize & _).
    apply containsValue_elem_of in Hmark as (m & Hm & Hmark).
    unfold hasAppropriateGraphicTypeForMark. rewrite Hmark, Hsize.
    apply list_elem_of_In in Hm. cbn in Hm.
    destruct Hm as [<- | [<- | []]]; reflexivity.
Qed.

Lemma eqStr_eq (v : value) (lit : string) : eqStr v lit = true ↔ v = VStr lit.
Proof.
  split; [| intros ->; cbn; apply String.eqb_refl].
  destruct v; try discriminate. cbn. intros H. apply String.eqb_eq in H. by subst.
Qed.

(** One turn of the loop of
    [omitNonPositionalOrFacetOverPositionalChannels]. *)
Lemma positionalStep_flags specM (i : nat) (encQ : object) (f : PositionalFlags) :
  positionalStep specM i encQ f
  = mkPositionalFlags
      (hasNonPositionalChannelOrFacet f || offAxis encQ)
      (hasEnumeratedNonPositionOrFacetChannel f
       || (offAxis encQ
           && hasEncodingProperty (wildcardIndex specM) i Property.CHANNEL))
      (hasX f || (countedEncoding encQ && eqStr (field encQ "channel") Channel.X))
      (hasY f || (countedEncoding encQ && eqStr (field encQ "channel") Channel.Y)).
Proof.
  unfold positionalStep, offAxis, countedEncoding. destruct f as [n e x y].
  cbn [hasNonPositionalChannelOrFacet hasEnumeratedNonPositionOrFacetChannel
       hasX hasY].
  destruct (isValueQuery (VObj encQ) || isDisabledAutoCountQuery (VObj encQ));
    cbn [negb andb]; [by rewrite !orb_false_r |].
  destruct (eqStr (field encQ "channel") Channel.X) eqn:Hx.
  - apply eqStr_eq in Hx. rewrite Hx. cbn.
    by rewrite ?orb_false_r, ?orb_true_r.
  - destruct (eqStr (field encQ "channel") Channel.Y) eqn:Hy;
      cbn [negb andb]; [by rewrite ?orb_false_r, ?orb_true_r |].
    destruct (isWildcard (field encQ "channel")); cbn [negb andb];
      [by rewrite ?orb_false_r, ?orb_true_r |].
    destruct (hasEncodingProperty _ _ _), n, e, x, y; reflexivity.
Qed.

Lemma positionalLoop_flags specM (i0 : nat) (l : list object) (f : PositionalFlags) :
  let f' := forIndexed (positionalStep specM) i0 l f in
  (hasNonPositionalChannelOrFacet f' = true ↔
     hasNonPositionalChannelOrFacet f = true
     ∨ ∃ (j : nat) (encQ : object), l !! j = Some encQ ∧ offAxis encQ = true)
  ∧ (hasEnumeratedNonPositionOrFacetChannel f' = true ↔
       hasEnumeratedNonPositionOrFacetChannel f = true
       ∨ ∃ (j : nat) (encQ : object),
           l !! j = Some encQ ∧ offAxis encQ = true
           ∧ hasEncodingProperty (wildcardIndex specM) (i0 + j) Property.CHANNEL
             = true)
  ∧ (hasX f' = true ↔
       hasX f = true
       ∨ ∃ encQ : object,
           encQ ∈ l ∧ countedEncoding encQ = true
           ∧ field encQ "channel" = VStr Channel.X)
  ∧ (hasY f' = true ↔
       hasY f = true
       ∨ ∃ encQ : object,
           encQ ∈ l ∧ countedEncoding encQ = true
           ∧ field encQ "channel" = VStr Channel.Y).
Proof.
  revert i0 f. induction l as [|encQ l IH]; intros i0 f; cbv zeta.
  - cbn. repeat split; try (intros H; by left);
      intros [H | H]; try exact H.
    + destruct H as (j & e & H & _). discriminate H.
    + destruct H as (j & e & H & _). discriminate H.
    + destruct H as (e & H & _). by apply elem_of_nil in H.
    + destruct H as (e & H & _). by apply elem_of_nil in H.
  - cbn [forIndexed]. destruct (IH (i0 + 1) (positionalStep specM i0 encQ f))
      as (Hn & He & Hx & Hy). cbv zeta in Hn, He, Hx, Hy.
    rewrite Hn, He, Hx, Hy, positionalStep_flags.
    cbn [hasNonPositionalChannelOrFacet hasEnumeratedNonPositionOrFacetChannel
         hasX hasY].
    rewrite !orb_true_iff, !andb_true_iff, !eqStr_eq.
    split; [| split; [| split]].
    + split.
      * intros [[H | H] | (j & e & Hj & H)]; [by left | right | right].
        -- exists 0, encQ. by split.
        -- exists (S j), e. by split.
      * intros [H | (j & e & Hj & H)]; [by left; left |].
        destruct j as [|j]; [injection Hj as ->; by left; right |].
        right. exists j, e. by split.
    + split.
      * intros [[H | [H1 H2]] | (j & e & Hj & H1 & H2)]; [by left | right | right].
        -- exists 0, encQ. rewrite Nat.add_0_r. by repeat split.
        -- exists (S j), e. replace (i0 + S j) with (i0 + 1 + j) by lia.
           by repeat split.
      * intros [H | (j & e & Hj & H1 & H2)]; [by left; left |].
        destruct j as [|j].
        -- injection Hj as ->. rewrite Nat.add_0_r in H2. left. right. by split.
        -- right. exists j, e. replace (i0 + 1 + j) with (i0 + S j) by lia.
           by repeat split.
    + split.
      * intros [[H | [H1 H2]] | (e & Hin & H)]; [by left | right | right].
        -- exists encQ. split; [apply list_elem_of_here | by split].
        -- exists e. split; [by apply list_elem_of_further | exact H].
      * intros [H | (e & Hin & H1 & H2)]; [by left; left |].
        apply elem_of_cons in Hin as [-> | Hin]; [left; right; by split |].
        right. exists e. by repeat split.
    + split.
      * intros [[H | [H1 H2]] | (e & Hin & H)]; [by left | right | right].
        -- exists encQ. split; [apply list_elem_of_here | by split].
        -- exists e. split; [by apply list_elem_of_further | exact H].
      * intros [H | (e & Hin & H1 & H2)]; [by left; left |].
        apply elem_of_cons in Hin as [-> | Hin]; [left; right; by split |].
        right. exists e. by repeat split.
Qed.

(** X22.  What rule [omitNonPositionalOrFacetOverPositionalChannels]
    rejects.  An encoding counts when it is neither a literal value nor a
    disabled auto-count.  The predicate answers [false] exactly when some
    counted encoding sits on a concrete channel other than [x] and [y],
    with that channel enumerated at its position in the raw list or with
    [opt.constraintManuallySpecifiedValue] truthy, while [x] and [y] are
    not both bound by counted encodings; in every other case it answers
    [true]. *)
Theorem off_axis_needs_both_axes specM schema opt :
  (omitNonPositionalOrFacetOverPositionalChannels specM schema opt = Ok false ↔
     (∃ (i : nat) (encQ : object),
        encodings (specQuery specM) !! i = Some encQ
        ∧ offAxis encQ = true
        ∧ (hasEncodingProperty (wildcardIndex specM) i Property.CHANNEL = true
           ∨ truthy (optGet opt "constraintManuallySpecifiedValue") = true))
     ∧ ¬ ((∃ encQ : object,
             encQ ∈ encodings (specQuery specM) ∧ countedEncoding encQ = true
             ∧ field encQ "channel" = VStr Channel.X)
          ∧ (∃ encQ : object,
               encQ ∈ encodings (specQuery specM) ∧ countedEncoding encQ = true
               ∧ field encQ "channel" = VStr Channel.Y)))
  ∧ (omitNonPositionalOrFacetOverPositionalChannels specM schema opt = Ok false
     ∨ omitNonPositionalOrFacetOverPositionalChannels specM schema opt = Ok true).
Proof.
  unfold omitNonPositionalOrFacetOverPositionalChannels. cbv zeta.
  destruct (positionalLoop_flags specM 0 (encodings (specQuery specM))
              (mkPositionalFlags false false false false)) as (Hn & He & Hx & Hy).
  cbv zeta in Hn, He, Hx, Hy.
  cbn [hasNonPositionalChannelOrFacet hasEnumeratedNonPositionOrFacetChannel
       hasX hasY] in Hn, He, Hx, Hy.
  set (f := forIndexed (positionalStep specM) 0 (encodings (specQuery specM))
              (mkPositionalFlags false false false false)) in *.
  assert (Hoff : hasEnumeratedNonPositionOrFacetChannel f
                 || (truthy (optGet opt "constraintManuallySpecifiedValue")
                     && hasNonPositionalChannelOrFacet f) = true ↔
            ∃ (i : nat) (encQ : object),
              encodings (specQuery specM) !! i = Some encQ
              ∧ offAxis encQ = true
              ∧ (hasEncodingProperty (wildcardIndex specM) i Property.CHANNEL = true
                 ∨ truthy (optGet opt "constraintManuallySpecifiedValue") = true)).
  { rewrite orb_true_iff, andb_true_iff, He, Hn. split.
    - intros [[H | (j & e & Hj & Ho & Henum)] | [Hm [H | (j & e & Hj & Ho)]]];
        try discriminate H; exists j, e; auto.
    - intros (i & e & Hi & Ho & [Henum | Hm]).
      + left. right. exists i, e. auto.
      + right. split; [exact Hm |]. right. eauto. }
  assert (Haxes : hasX f && hasY f = true ↔
            (∃ encQ : object,
               encQ ∈ encodings (specQuery specM) ∧ countedEncoding encQ = true
               ∧ field encQ "channel" = VStr Channel.X)
            ∧ (∃ encQ : object,
                 encQ ∈ encodings (specQuery specM) ∧ countedEncoding encQ = true
                 ∧ field encQ "channel" = VStr Channel.Y)).
  { rewrite andb_true_iff, Hx, Hy. split.
    - intros [[H1 | H1] [H2 | H2]]; try discriminate. by split.
    - intros [H1 H2]. split; by right. }
  rewrite <- Hoff, <- Haxes.
  destruct (hasEnumeratedNonPositionOrFacetChannel f
            || (truthy (optGet opt "constraintManuallySpecifiedValue")
                && hasNonPositionalChannelOrFacet f));
    destruct (hasX f && hasY f);
    (split; [split; [| intros [H1 H2]] | auto]);
    try discriminate; try reflexivity.
  - exfalso. by apply H2.
  - intros _. split; [reflexivity | discriminate].
Qed.

Lemma everyIndexed_false {A : Type} (f : A → nat → bool) (i0 : nat) (l : list A) :
  everyIndexed f i0 l = false ↔
  ∃ (j : nat) (a : A), l !! j = Some a ∧ f a (i0 + j) = false.
Proof.
  revert i0. induction l as [|a l IH]; intros i0; cbn.
  - split; [discriminate |]. intros (j & x & H & _). discriminate H.
  - destruct (f a i0) eqn:Ha.
    + rewrite IH. split.
      * intros (j & x & Hj & Hx). exists (S j), x.
        replace (i0 + S j) with (i0 + 1 + j) by lia. by split.
      * intros (j & x & Hj & Hx). destruct j as [|j].
        -- injection Hj as ->. rewrite Nat.add_0_r in Hx. congruence.
        -- exists j, x. replace (i0 + 1 + j) with (i0 + S j) by lia. by split.
    + split; [| reflexivity]. intros _. exists 0, a. rewrite Nat.add_0_r. by split.
Qed.

(** X23.  What rule [omitRawDetail] rejects.  Its predicate answers
    [false] exactly when the plot is raw (no encoding aggregates) and some
    encoding that is neither a literal value nor a disabled auto-count
    binds [detail], with that channel enumerated at its position in the
    raw list or with [opt.constraintManuallySpecifiedValue] truthy; in
    every other case, and so on every aggregate plot, it answers
    [true]. *)
Theorem raw_detail_rejected specM schema opt :
  (omitRawDetail specM schema opt = Ok false ↔
     modelIsAggregate specM = false
     ∧ ∃ (i : nat) (encQ : object),
         encodings (specQuery specM) !! i = Some encQ
         ∧ countedEncoding encQ = true
         ∧ field encQ "channel" = VStr Channel.DETAIL
         ∧ (hasEncodingProperty (wildcardIndex specM) i Property.CHANNEL = true
            ∨ truthy (optGet opt "constraintManuallySpecifiedValue") = true))
  ∧ (omitRawDetail specM schema opt = Ok false
     ∨ omitRawDetail specM schema opt = Ok true).
Proof.
  unfold omitRawDetail. split.
  - destruct (modelIsAggregate specM);
      [split; [discriminate | intros [H _]; discriminate H] |].
    transitivity (everyIndexed (λ (encQ : object) (index : nat),
            if isValueQuery (VObj encQ) || isDisabledAutoCountQuery (VObj encQ)
            then true
            else if eqStr (field encQ "channel") Channel.DETAIL
                    && (hasEncodingProperty (wildcardIndex specM) index
                          Property.CHANNEL
                        || truthy (optGet opt "constraintManuallySpecifiedValue"))
            then false
            else true)
            0 (encodings (specQuery specM)) = false).
    { split; [by intros [= ->] | by intros ->]. }
    rewrite everyIndexed_false. cbn [Nat.add]. unfold countedEncoding.
    split.
    + intros (j & e & Hj & He). split; [reflexivity |]. exists j, e.
      split; [exact Hj |].
      destruct (isValueQuery (VObj e) || isDisabledAutoCountQuery (VObj e));
        [discriminate He |].
      destruct (eqStr (field e "channel") Channel.DETAIL) eqn:Hd;
        [| discriminate He].
      apply eqStr_eq in Hd. cbn [andb] in He.
      destruct (hasEncodingProperty _ _ _); [by auto |].
      destruct (truthy _); [by auto | discriminate He].
    + intros (_ & j & e & Hj & Hc & Hd & Henum). exists j, e.
      split; [exact Hj |]. apply negb_true_iff in Hc. rewrite Hc, Hd.
      cbn [eqStr]. rewrite String.eqb_refl. cbn [andb].
      destruct Henum as [-> | ->]; [reflexivity | by rewrite orb_true_r].
  - destruct (modelIsAggregate specM); [auto |].
    destruct (everyIndexed _ _ _); auto.
Qed.

End PositionRules.

Section CountRule.
Context {Schema : Type}.

Implicit Types (specM : SpecQueryModel) (schema : Schema) (opt : QueryConfig).

Lemma everyR_throw_iff {A : Type} (f : A → result bool) (arr : list A)
    (msg : string) :
  everyR f arr = Throw msg ↔
  ∃ (pre : list A) (a : A) (rest : list A),
    arr = pre ++ a :: rest ∧ (∀ a', a' ∈ pre → f a' = Ok true) ∧ f a = Throw msg.
Proof.
  split.
  - induction arr as [|a arr IH]; cbn; [discriminate |].
    destruct (f a) as [[|] | msg'] eqn:Ha.
    + intros Hrest. destruct (IH Hrest) as (pre & a' & rest & -> & Hpre & Ha').
      exists (a :: pre), a', rest. split; [reflexivity |]. split; [| exact Ha'].
      intros x Hx. apply elem_of_cons in Hx as [-> | Hx]; auto.
    + discriminate.
    + intros [= ->]. exists [], a, arr. split; [reflexivity |].
      split; [| exact Ha]. intros x Hx. by apply elem_of_nil in Hx.
  - intros (pre & a & rest & -> & Hpre & Ha). rewrite everyR_first; [exact Ha | exact Hpre |].
    rewrite Ha. discriminate.
Qed.

(** The [switch] on the type of an encoding has no [case] exactly for
    the encodings that are [untyped]. *)
Lemma autoCountCompatible_throw (encQ : object) (msg : string) :
  autoCountCompatible encQ = Throw msg ↔
  msg = "Unsupported Type" ∧ untyped encQ = true.
Proof.
  unfold autoCountCompatible, untyped.
  destruct (isValueQuery (VObj encQ)); cbn [negb andb];
    [split; [discriminate | intros [_ H]; discriminate H] |].
  destruct (isAutoCountQuery (VObj encQ)); cbn [negb andb];
    [split; [discriminate | intros [_ H]; discriminate H] |].
  destruct (containsValue _ (field encQ "type")) eqn:Htype; cbn [negb].
  - split; [| intros [_ H]; discriminate H].
    apply containsValue_elem_of in Htype as (lit & Hlit & ->).
    apply list_elem_of_In in Hlit. cbn in Hlit.
    destruct Hlit as [<- | [<- | [<- | [<- | [<- | []]]]]]; discriminate.
  - rewrite switchReturn_otherwise.
    + split; [intros [= <-]; by split | intros [-> _]; reflexivity].
    + intros c Hc. eapply containsValue_sub; [| exact Htype].
      apply list_elem_of_In in Hc. cbn [In] in Hc.
      destruct Hc as [<- | [<- | [<- | []]]]; cbn [fst];
        intros x Hx; apply list_elem_of_In in Hx; apply list_elem_of_In;
        cbn in *; tauto.
Qed.

Lemma autoAddCount_throws specM schema opt (msg : string) :
  autoAddCount specM schema opt = Throw msg ↔
  msg = "Unsupported Type"
  ∧ (∃ encQ : object,
       encQ ∈ getEncodings specM ∧ isEnabledAutoCountQuery (VObj encQ) = true)
  ∧ ∃ (pre : list object) (encQ : object) (rest : list object),
      getEncodings specM = pre ++ encQ :: rest
      ∧ (∀ encQ' : object, encQ' ∈ pre → autoCountCompatible encQ' = Ok true)
      ∧ untyped encQ = true.
Proof.
  unfold autoAddCount. cbv zeta. rewrite <- existsb_elem_of.
  destruct (existsb _ (getEncodings specM)).
  - rewrite everyR_throw_iff. split.
    + intros (pre & encQ & rest & Heq & Hpre & Hthrow).
      apply autoCountCompatible_throw in Hthrow as [-> Hun].
      split; [reflexivity |]. split; [reflexivity |]. eauto 6.
    + intros (-> & _ & pre & encQ & rest & Heq & Hpre & Hun).
      exists pre, encQ, rest. split; [exact Heq |]. split; [exact Hpre |].
      by apply autoCountCompatible_throw.
  - split; [| intros (_ & H & _); discriminate H].
    destruct (forallb _ _); discriminate.
Qed.

End CountRule.

Section ListFacts.

Lemma filter_none {A : Type} (P : A → Prop) `{∀ a, Decision (P a)} (l : list A) :
  Forall (λ a, ¬ P a) l → filter P l = [].
Proof.
  induction 1 as [|a l Ha _ IH]; [reflexivity |].
  by rewrite filter_cons, decide_False.
Qed.

Lemma filter_first {A : Type} (P : A → Prop) `{∀ a, Decision (P a)} (l : list A)
    (i : nat) (x : A) :
  l !! i = Some x → P x → Forall (λ a, ¬ P a) (take i l) →
  filter P l = x :: filter P (drop (S i) l).
Proof.
  intros Hx HP Hpre. rewrite <- (take_drop_middle l i x Hx) at 1.
  by rewrite filter_app, filter_cons, decide_True, filter_none.
Qed.

Lemma filter_single {A : Type} (P : A → Prop) `{∀ a, Decision (P a)} (l : list A)
    (i : nat) (x : A) :
  l !! i = Some x → P x → Forall (λ a, ¬ P a) (take i l) →
  Forall (λ a, ¬ P a) (drop (S i) l) → filter P l = [x].
Proof.
  intros Hx HP Hpre Hpost. rewrite (filter_first P l i x Hx HP Hpre).
  by rewrite (filter_none P _ Hpost).
Qed.

Lemma NoDup_fmap_filter_lookup {A B : Type} (f : A → B) (P : A → Prop)
    `{∀ a, Decision (P a)} (l : list A) (i j : nat) (a b : A) :
  NoDup (f <$> filter P l) → i ≠ j → l !! i = Some a → l !! j = Some b →
  P a → P b → f a ≠ f b.
Proof.
  revert i j. induction l as [|x l IH]; intros i j Hnodup Hij Ha Hb HPa HPb Heq;
    [discriminate Ha |].
  rewrite filter_cons in Hnodup.
  assert (Hin : ∀ (k : nat) (c : A), l !! k = Some c → P c → f c ∈ f <$> filter P l).
  { intros k c Hc HPc. apply list_elem_of_fmap_2, list_elem_of_filter.
    split; [exact HPc | by apply list_elem_of_lookup_2 in Hc]. }
  destruct i as [|i], j as [|j]; cbn in Ha, Hb.
  - by destruct Hij.
  - injection Ha as ->. rewrite decide_True in Hnodup by exact HPa.
    cbn in Hnodup. apply NoDup_cons in Hnodup as [Hfresh _].
    apply Hfresh. rewrite Heq. by apply (Hin j).
  - injection Hb as ->. rewrite decide_True in Hnodup by exact HPb.
    cbn in Hnodup. apply NoDup_cons in Hnodup as [Hfresh _].
    apply Hfresh. rewrite <- Heq. by apply (Hin i).
  - apply (IH i j); try assumption; [| congruence].
    destruct (decide (P x)); [| exact Hnodup].
    cbn in Hnodup. by apply NoDup_cons in Hnodup as [_ Hnodup].
Qed.

End ListFacts.

Section EmbeddedCatalogue.
Context `{table : PropertyTable} {Schema : Type}.
Context (JSON_stringify : value → string).
Context (isMeasure isDimension : value → bool).
Context (toShorthand : SpecQueryModel → string).
Context (inheritedName : string → bool).
Context (others : string → SpecConstraintChecker (Schema := Schema)).

Implicit Types (specM : SpecQueryModel) (schema : Schema) (opt : QueryConfig).

(** The catalogue with the embedded predicates in their places. *)
Local Abbreviation embedded := (rulePredicates inheritedName others).
Local Abbreviation catalogue :=
  (SPEC_CONSTRAINTS JSON_stringify isMeasure isDimension embedded).
Local Abbreviation byProperty :=
  (SPEC_CONSTRAINTS_BY_PROPERTY JSON_stringify isMeasure isDimension embedded).
Local Abbreviation check :=
  (checkSpec JSON_stringify isMeasure isDimension toShorthand embedded).

Lemma check_eq (prop : Property) (wildcard : object) specM schema opt :
  check prop wildcard specM schema opt
  = checkConstraints toShorthand (filter (declares (toKey prop)) catalogue)
      wildcard specM schema opt.
Proof. by rewrite checkSpec_unfold, checkSpecWith_eq, catalogue_lookup. Qed.

Lemma channel_entry :
  ∃ c (rest : list SpecConstraint),
    filter (declares "channel") catalogue = c :: rest
    ∧ name c = "noRepeatedChannel" ∧ strict c = true
    ∧ allowWildcardForProperties c = true
    ∧ satisfy c = noRepeatedChannel inheritedName.
Proof.
  eexists _, _. split.
  - apply (filter_first _ _ 0); [reflexivity | compute_done | apply Forall_nil_2].
  - repeat split.
Qed.

(** X24.  A repeated channel is always reported first.  When two usable
    encodings at different positions hold channels that are not wildcards
    and have the same dictionary key (the same channel name), [checkSpec]
    on the channel property returns ['(spec) noRepeatedChannel'] under
    every options object; it has called that rule only, so no other rule
    is evaluated on such a query, and it logs the violation exactly when
    [verbose] is truthy. *)
Theorem repeated_channel_always_reported (wildcard : object) specM schema opt
    (i j : nat) (encQ encQ' : object) :
  i ≠ j →
  getEncodings specM !! i = Some encQ → getEncodings specM !! j = Some encQ' →
  isWildcard (field encQ "channel") = false →
  isWildcard (field encQ' "channel") = false →
  toStr (field encQ "channel") = toStr (field encQ' "channel") →
  check Property.CHANNEL wildcard specM schema opt
  = ([SatisfyCalled "noRepeatedChannel"; PredicateCalled "noRepeatedChannel"]
       ++ (if truthy (optGet opt "verbose")
           then [violationLog toShorthand "(spec) noRepeatedChannel" wildcard specM]
           else []),
     Ok (Some "(spec) noRepeatedChannel")).
Proof.
  intros Hij He He' Hw Hw' Hkey.
  assert (Hviolated : noRepeatedChannel inheritedName specM schema opt = Ok false).
  { destruct (noRepeatedChannel inheritedName specM schema opt) as [[|] | msg] eqn:Hb;
      [| reflexivity | discriminate Hb].
    apply noRepeatedChannel_accepts in Hb as [Hnodup _]. exfalso.
    by apply (NoDup_fmap_filter_lookup _ _ _ i j encQ encQ' Hnodup). }
  rewrite check_eq. cbn [toKey Property.CHANNEL].
  destruct channel_entry as (c & rest & -> & Hname & Hstrict & Hallow & Hsat).
  rewrite checkConstraints_cons. unfold active. rewrite Hstrict. cbn [orb].
  rewrite satisfyModel_called by (by left). rewrite Hsat, Hviolated.
  unfold verboseLog, violationLog. rewrite Hname. reflexivity.
Qed.

Lemma catalogue_rule (i : nat) (c : SpecConstraint) (key : string) :
  catalogue !! i = Some c → declares key c →
  c ∈ filter (declares key) catalogue.
Proof.
  intros Hc Hd. apply list_elem_of_filter. split; [exact Hd |].
  by apply list_elem_of_lookup_2 in Hc.
Qed.

Lemma zero_entry :
  ∃ c : SpecConstraint,
    filter (declares (toKey (getEncodingNestedProp "scale" "zero"))) catalogue = [c]
    ∧ name c = "alwaysIncludeZeroInScaleWithBarMark" ∧ strict c = true
    ∧ allowWildcardForProperties c = false
    ∧ properties c
      = [Property.MARK; Property.SCALE; getEncodingNestedProp "scale" "zero";
         Property.CHANNEL; Property.TYPE]
    ∧ satisfy c = alwaysIncludeZeroInScaleWithBarMark.
Proof.
  eexists. split.
  - apply (filter_single _ _ 1); [reflexivity | compute_done | compute_done
                                  | compute_done].
  - repeat split.
Qed.

(** X25.  [checkSpec] on the property [scale.zero], in full.  When the
    property table knows [scale], [channel] and [type], the result is
    ['(spec) alwaysIncludeZeroInScaleWithBarMark'] exactly when the mark
    is [bar], some usable encoding is field-backed, on [x] or [y],
    quantitative and has a scale whose [zero] is [false], and none of the
    properties scale, [scale.zero], channel and type is a wildcard in a
    usable encoding; in every other case the result is [null].
    [checkSpec] never throws on this property, whatever the options. *)
Theorem zero_scale_check (wildcard : object) specM schema opt :
  (∀ n : string, n ∈ ["scale"; "channel"; "type"] →
     isEncodingTopLevelProperty n = true) →
  ((check (getEncodingNestedProp "scale" "zero") wildcard specM schema opt).2
   = Ok (Some "(spec) alwaysIncludeZeroInScaleWithBarMark") ↔
     getMark specM = VStr Mark.BAR
     ∧ (∃ encQ : object, encQ ∈ getEncodings specM ∧ zeroExcluded encQ = true)
     ∧ ∀ p : Property,
         p ∈ [Property.SCALE; getEncodingNestedProp "scale" "zero";
              Property.CHANNEL; Property.TYPE] →
         ¬ wildcardedIn specM p)
  ∧ ((check (getEncodingNestedProp "scale" "zero") wildcard specM schema opt).2
     = Ok (Some "(spec) alwaysIncludeZeroInScaleWithBarMark")
     ∨ (check (getEncodingNestedProp "scale" "zero") wildcard specM schema opt).2
       = Ok None).
Proof.
  intros Htable. rewrite check_eq.
  destruct zero_entry as (c & -> & Hname & Hstrict & Hallow & Hprops & Hsat).
  rewrite checkConstraints_cons. unfold active. rewrite Hstrict. cbn [orb].
  assert (Hsupp : ∀ p, p ∈ properties c → supportedProperty p = true).
  { intros p Hp. rewrite Hprops in Hp. apply list_elem_of_In in Hp. cbn in Hp.
    destruct Hp as [<- | [<- | [<- | [<- | [<- | []]]]]]; cbn;
      try reflexivity; apply Htable; apply list_elem_of_In; cbn; tauto. }
  destruct (specific_total c specM Hsupp) as [[|] Hs].
  - rewrite satisfyModel_called by (by right). rewrite Hsat.
    pose proof (proj1 (specific_true_iff c specM Hsupp) Hs) as Hnone.
    rewrite Hprops in Hnone.
    unfold alwaysIncludeZeroInScaleWithBarMark. cbv zeta.
    fold zeroExcluded. rewrite <- existsb_elem_of.
    change (λ encQ : object,
              isFieldQuery (VObj encQ)
              && (eqStr (field encQ "channel") Channel.X
                  || eqStr (field encQ "channel") Channel.Y)
              && eqStr (field encQ "type") VlType.QUANTITATIVE
              && (truthy (field encQ "scale")
                  && eqBool (get (field encQ "scale") "zero") false))
      with zeroExcluded.
    destruct (eqStr (getMark specM) Mark.BAR) eqn:Hbar.
    + apply eqStr_eq in Hbar.
      destruct (existsb zeroExcluded (getEncodings specM)); cbn [andb fst snd].
      * rewrite Hname. split; [| by left]. split; [intros _ | reflexivity].
        split; [exact Hbar |]. split; [reflexivity |].
        intros p Hp. apply Hnone. by apply list_elem_of_further.
      * split; [| by right]. split; [discriminate |].
        intros (_ & H & _). discriminate H.
    + cbn [andb fst snd]. split; [| by right]. split; [discriminate |].
      intros (Hmark & _). rewrite Hmark in Hbar. discriminate Hbar.
  - rewrite satisfyModel_skip by assumption. cbn [fst snd].
    split; [| by right]. split; [discriminate |].
    intros (Hmark & _ & Hnone). exfalso.
    apply specific_false_wildcarded in Hs as (p & Hp & Hw).
    rewrite Hprops in Hp. apply elem_of_cons in Hp as [-> | Hp].
    + cbn in Hw. rewrite Hmark in Hw. discriminate Hw.
    + by apply (Hnone p).
Qed.

Lemma field_entry :
  ∃ c : SpecConstraint,
    filter (declares (toKey Property.FIELD)) catalogue = [c]
    ∧ name c = "omitRepeatedField" ∧ strict c = false
    ∧ allowWildcardForProperties c = true
    ∧ satisfy c = omitRepeatedField inheritedName.
Proof.
  eexists. split.
  - apply (filter_single _ _ 16); [reflexivity | compute_done | compute_done
                                   | compute_done].
  - repeat split.
Qed.

(** X26.  [checkSpec] on the field property is decided by rule
    [omitRepeatedField] alone.  When the options hold no truthy value
    under ['omitRepeatedField'], nothing is called and the result is
    [null]; otherwise the rule is called, wildcards or not, and the result
    is ['(spec) omitRepeatedField'] when its predicate answers [false]
    (logged when [verbose] is truthy) and [null] when it answers
    [true]. *)
Theorem field_check_is_omitRepeatedField (wildcard : object) specM schema opt :
  check Property.FIELD wildcard specM schema opt
  = if truthy (optGet opt "omitRepeatedField") then
      if omitRepeatedFieldFrom inheritedName specM opt 0
           (encodings (specQuery specM)) ∅ ∅
      then ([SatisfyCalled "omitRepeatedField"; PredicateCalled "omitRepeatedField"],
            Ok None)
      else ([SatisfyCalled "omitRepeatedField"; PredicateCalled "omitRepeatedField"]
              ++ (if truthy (optGet opt "verbose")
                  then [violationLog toShorthand "(spec) omitRepeatedField"
                          wildcard specM]
                  else []),
            Ok (Some "(spec) omitRepeatedField"))
    else ([], Ok None).
Proof.
  rewrite check_eq.
  destruct field_entry as (c & -> & Hname & Hstrict & Hallow & Hsat).
  rewrite checkConstraints_cons. unfold active. rewrite Hstrict, Hname. cbn [orb].
  destruct (truthy (optGet opt "omitRepeatedField")); [| reflexivity].
  rewrite satisfyModel_called by (by left). rewrite Hsat, Hname.
  unfold omitRepeatedField, verboseLog, violationLog. rewrite Hname.
  by destruct (omitRepeatedFieldFrom _ _ _ _ _ _ _).
Qed.

Lemma autoCount_entry :
  ∃ c (rest : list SpecConstraint),
    filter (declares (toKey Property.AUTOCOUNT)) catalogue = c :: rest
    ∧ name c = "autoAddCount" ∧ strict c = false
    ∧ allowWildcardForProperties c = true
    ∧ satisfy c = autoAddCount.
Proof.
  eexists _, _. split.
  - apply (filter_first _ _ 2); [reflexivity | compute_done | compute_done].
  - repeat split.
Qed.

(** X27.  Rule [autoAddCount] can throw.  Its predicate throws exactly
    when some usable encoding is an enabled auto-count and the scan of
    the usable encodings reaches, past encodings it accepts, one that is
    neither a literal value nor an auto-count and whose type is none of
    quantitative, temporal, ordinal, key and nominal (a wildcard type, or
    none); the error is ['Unsupported Type'].  With the rule enabled in
    the options, [checkSpec] on the auto-count property then ends in that
    error, having called this rule only; with the rule not enabled it does
    not call it. *)
Theorem autoAddCount_unsupported_type (wildcard : object) specM schema opt :
  (∀ msg : string,
      autoAddCount specM schema opt = Throw msg ↔
      msg = "Unsupported Type"
      ∧ (∃ encQ : object,
           encQ ∈ getEncodings specM ∧ isEnabledAutoCountQuery (VObj encQ) = true)
      ∧ ∃ (pre : list object) (encQ : object) (rest : list object),
          getEncodings specM = pre ++ encQ :: rest
          ∧ (∀ encQ' : object, encQ' ∈ pre → autoCountCompatible encQ' = Ok true)
          ∧ untyped encQ = true)
  ∧ (∀ msg : string,
       autoAddCount specM schema opt = Throw msg →
       truthy (optGet opt "autoAddCount") = true →
       check Property.AUTOCOUNT wildcard specM schema opt
       = ([SatisfyCalled "autoAddCount"; PredicateCalled "autoAddCount"], Throw msg))
  ∧ (truthy (optGet opt "autoAddCount") = false →
     ∀ e : event,
       e ∈ (check Property.AUTOCOUNT wildcard specM schema opt).1 →
       calledRule e ≠ Some "autoAddCount").
Proof.
  split; [intros msg; apply autoAddCount_throws |].
  rewrite check_eq.
  destruct autoCount_entry as (c & rest & Hentry & Hname & Hstrict & Hallow & Hsat).
  rewrite Hentry, checkConstraints_cons. unfold active.
  rewrite Hstrict, Hname. cbn [orb]. split.
  - intros msg Hthrow ->. rewrite satisfyModel_called by (by left).
    by rewrite Hsat, Hthrow, Hname.
  - intros ->. intros e He Hcalled.
    assert (Hnames : "autoAddCount" ∉ name <$> rest).
    { assert (Hnodup : NoDup (name <$> filter (declares (toKey Property.AUTOCOUNT))
                                         catalogue)).
      { apply (NoDup_fmap_2_strong name).
        - intros x y Hx Hy Heq. apply list_elem_of_filter in Hx as [_ Hx].
          apply list_elem_of_filter in Hy as [_ Hy].
          apply (unique_name catalogue); auto using catalogue_names_NoDup.
        - apply NoDup_filter, catalogue_NoDup. }
      rewrite Hentry in Hnodup. cbn in Hnodup. rewrite Hname in Hnodup.
      by apply NoDup_cons in Hnodup as [Hfresh _]. }
    apply Hnames. clear Hentry Hnames.
    induction rest as [|c' rest IH]; [by apply elem_of_nil in He |].
    rewrite checkConstraints_cons in He. cbn [fmap list_fmap].
    assert (Hown : e ∈ (satisfyModel c' specM schema opt).1 →
                   "autoAddCount" ∈ name c' :: (name <$> rest)).
    { intros He'. apply satisfyModel_trace in He'. rewrite He' in Hcalled.
      injection Hcalled as ->. apply list_elem_of_here. }
    destruct (active opt c'); [| apply list_elem_of_further; by apply IH].
    destruct (satisfyModel c' specM schema opt) as [t [[|] | msg]];
      cbn [fst snd] in *.
    + apply elem_of_app in He as [He | He]; [by apply Hown |].
      apply list_elem_of_further. by apply IH.
    + apply elem_of_app in He as [He | He]; [by apply Hown |].
      unfold verboseLog in He. destruct (truthy (optGet opt "verbose")).
      * apply list_elem_of_singleton in He as ->. discriminate Hcalled.
      * by apply elem_of_nil in He.
    + by apply Hown.
Qed.

Lemma aggregate_rules (key : string) :
  key = toKey Property.AGGREGATE ∨ key = toKey Property.AUTOCOUNT →
  ∃ cAggregate cRaw : SpecConstraint,
    cAggregate ∈ filter (declares key) catalogue
    ∧ name cAggregate = "omitAggregate"
    ∧ allowWildcardForProperties cAggregate = true
    ∧ satisfy cAggregate = omitAggregate
    ∧ cRaw ∈ filter (declares key) catalogue
    ∧ name cRaw = "omitRaw"
    ∧ allowWildcardForProperties cRaw = false
    ∧ properties cRaw = [Property.AGGREGATE; Property.AUTOCOUNT]
    ∧ satisfy cRaw = omitRaw.
Proof.
  intros Hkey. eexists _, _.
  split; [apply (catalogue_rule 5); [reflexivity |] |].
  { destruct Hkey as [-> | ->]; compute_done. }
  split; [reflexivity |]. split; [reflexivity |]. split; [reflexivity |].
  split; [apply (catalogue_rule 13); [reflexivity |] |].
  { destruct Hkey as [-> | ->]; compute_done. }
  repeat split.
Qed.

(** X28.  The aggregate rules against each other.  On every model,
    rules [omitAggregate] and [omitRaw] answer opposite truth values, and
    for the marks [bar], [line] and [area] rule
    [omitBarLineAreaWithOcclusion] answers what [omitRaw] answers.  Hence
    with both [omitAggregate] and [omitRaw] enabled in the options,
    [checkSpec] on the aggregate or on the auto-count property answers
    [null] only while the aggregate or the auto-count of some usable
    encoding is still a wildcard: no fully specified query gets
    through. *)
Theorem omitAggregate_against_omitRaw specM schema opt :
  (omitAggregate specM schema opt = Ok true ↔ omitRaw specM schema opt = Ok false)
  ∧ (omitAggregate specM schema opt = Ok false ↔ omitRaw specM schema opt = Ok true)
  ∧ (containsValue [Mark.BAR; Mark.LINE; Mark.AREA] (getMark specM) = true →
     omitBarLineAreaWithOcclusion specM schema opt = omitRaw specM schema opt)
  ∧ (∀ (prop : Property) (wildcard : object),
       prop = Property.AGGREGATE ∨ prop = Property.AUTOCOUNT →
       truthy (optGet opt "omitAggregate") = true →
       truthy (optGet opt "omitRaw") = true →
       (check prop wildcard specM schema opt).2 = Ok None →
       wildcardedIn specM Property.AGGREGATE ∨ wildcardedIn specM Property.AUTOCOUNT).
Proof.
  unfold omitAggregate, omitRaw, omitBarLineAreaWithOcclusion.
  split; [destruct (modelIsAggregate specM); cbn; split; congruence |].
  split; [destruct (modelIsAggregate specM); cbn; split; congruence |].
  split; [intros ->; by destruct (modelIsAggregate specM) |].
  intros prop wildcard Hprop Hagg Hraw Hnull. rewrite check_eq in Hnull.
  destruct (aggregate_rules (toKey prop))
    as (cA & cR & HinA & HnameA & HallowA & HsatA
        & HinR & HnameR & HallowR & HpropsR & HsatR).
  { destruct Hprop as [-> | ->]; auto. }
  pose proof (checkConstraints_null toShorthand _ _ _ _ _ Hnull) as Hpass.
  assert (HpassA : (satisfyModel cA specM schema opt).2 = Ok true).
  { apply (Hpass cA HinA). unfold active. rewrite HnameA, Hagg. apply orb_true_r. }
  assert (HpassR : (satisfyModel cR specM schema opt).2 = Ok true).
  { apply (Hpass cR HinR). unfold active. rewrite HnameR, Hraw. apply orb_true_r. }
  rewrite satisfyModel_called in HpassA by (by left). cbn [snd] in HpassA.
  rewrite HsatA in HpassA. unfold omitAggregate in HpassA.
  destruct (modelIsAggregate specM) eqn:Hmodel; [discriminate HpassA |].
  destruct (hasAllRequiredPropertiesSpecific cR specM) as [[|] | msg] eqn:Hs.
  - rewrite satisfyModel_called in HpassR by (by right). cbn [snd] in HpassR.
    rewrite HsatR in HpassR. unfold omitRaw in HpassR. rewrite Hmodel in HpassR.
    discriminate HpassR.
  - apply specific_false_wildcarded in Hs as (p & Hp & Hw).
    rewrite HpropsR in Hp. apply elem_of_cons in Hp as [-> | Hp]; [by left |].
    apply list_elem_of_singleton in Hp as ->. by right.
  - unfold satisfyModel in HpassR. rewrite HallowR, Hs in HpassR.
    discriminate HpassR.
Qed.

End EmbeddedCatalogue.

(* ===================================================================== *)
(** * 14. The further properties at concrete inputs *)
(* ===================================================================== *)

(** The characterisation of [isImplicitStack] on the bar chart whose
    only encoding is [x: sum(Q)]: that encoding is field-backed on [x] and
    aggregated, which is all the function asks for. *)
Lemma isImplicitStack_spec_witness :
  isExplicitStack xOnlyQuery = false
  ∧ (∃ encQ : object,
       encQ ∈ encodings xOnlyQuery
       ∧ bindsField Channel.X encQ = true ∧ aggregatesPosition encQ = true)
  ∧ isImplicitStack xOnlyQuery = true.
Proof.
  assert (Hx : ∃ encQ : object,
            encQ ∈ encodings xOnlyQuery
            ∧ bindsField Channel.X encQ = true ∧ aggregatesPosition encQ = true).
  { eexists. split; [apply list_elem_of_here | split; reflexivity]. }
  split; [reflexivity |]. split; [exact Hx |].
  destruct Hx as (encQ & Hin & Hbinds & Hagg).
  apply (proj2 (isImplicitStack_spec xOnlyQuery)).
  split; [reflexivity |]. split; exists encQ; by split.
Defined.

(** The order of the encodings: [{x: sum(Q), y: N, color: N1}] listed as
    color, x, y is detected as the same stack. *)
Lemma detectors_ignore_encoding_order_witness :
  encodings (stackQuery Mark.BAR) ≡ₚ encodings reorderedStackQuery
  ∧ isImplicitStack (stackQuery Mark.BAR) = isImplicitStack reorderedStackQuery
  ∧ isAggregate (stackQuery Mark.BAR) = isAggregate reorderedStackQuery.
Proof.
  assert (Hperm : encodings (stackQuery Mark.BAR) ≡ₚ encodings reorderedStackQuery).
  { cbn [encodings stackQuery reorderedStackQuery stackEncodings
         stackEncodingsReordered].
    etransitivity; [apply perm_skip, perm_swap | apply perm_swap]. }
  destruct (detectors_ignore_encoding_order (table := specPropertyTable)
              (stackQuery Mark.BAR) reorderedStackQuery Hperm)
    as (Hagg & _ & Himp & _).
  split; [exact Hperm |]. split; [exact Himp | exact Hagg].
Defined.

(** The skip test on a bar chart without encodings: nothing is a
    wildcard, so the predicate of [hasAllRequiredChannelsForMark] is
    called and its answer is the answer of [satisfy]. *)
Lemma predicate_called_iff_specific_witness :
  Forall (λ p, supportedProperty (table := specPropertyTable) p = true)
    (properties requiredChannelsRule)
  ∧ PredicateCalled "hasAllRequiredChannelsForMark"
    ∈ (satisfyModel (table := specPropertyTable) requiredChannelsRule
         emptyBarModel tt ∅).1
  ∧ (satisfyModel (table := specPropertyTable) requiredChannelsRule
       emptyBarModel tt ∅).2 = Ok false.
Proof.
  assert (Hsupported : Forall (λ p, supportedProperty (table := specPropertyTable) p
                                    = true) (properties requiredChannelsRule)).
  { repeat constructor. }
  destruct (predicate_called_iff_specific (table := specPropertyTable)
              requiredChannelsRule emptyBarModel tt ∅
              (proj1 (Forall_forall _ _) Hsupported))
    as (_ & _ & Hcalled & Hanswer).
  assert (Hin : PredicateCalled (name requiredChannelsRule)
                ∈ (satisfyModel (table := specPropertyTable) requiredChannelsRule
                     emptyBarModel tt ∅).1).
  { apply Hcalled. right. intros p Hp Hw. apply list_elem_of_In in Hp. cbn in Hp.
    destruct Hp as [<- | [<- | []]].
    - destruct Hw as (encQ & Hin & _). by apply elem_of_nil in Hin.
    - discriminate Hw. }
  split; [exact Hsupported |]. split; [exact Hin |].
  rewrite (Hanswer Hin). reflexivity.
Defined.

(** A rule that declares [transform] after the mark: on a bar chart the
    check throws, and so does the loop of [checkSpec]. *)
Lemma unhandled_property_throws_witness :
  properties (transformRule false) = [Property.MARK] ++ Flat "transform" :: []
  ∧ isEncodingTopLevelProperty (PropertyTable := specPropertyTable) "transform" = false
  ∧ hasAllRequiredPropertiesSpecific (table := specPropertyTable)
      (transformRule false) emptyBarModel
    = Throw "UNIMPLEMENTED"
  ∧ checkConstraints (table := specPropertyTable) demoShorthand
      [transformRule false; throwingRule] [] emptyBarModel tt ∅
    = ([SatisfyCalled "usesTransform"], Throw "UNIMPLEMENTED").
Proof.
  assert (Hmark : "transform" ≠ "mark") by discriminate.
  assert (Hsupported : ∀ p, p ∈ [Property.MARK] →
                            supportedProperty (table := specPropertyTable) p = true).
  { intros p Hp. apply list_elem_of_singleton in Hp as ->. reflexivity. }
  destruct (unhandled_property_throws (table := specPropertyTable) demoShorthand
              (transformRule false) emptyBarModel tt ∅ [Property.MARK] []
              "transform" eq_refl Hmark eq_refl Hsupported)
    as (Hthrows & _ & _).
  assert (Hnone : ∀ p, p ∈ [Property.MARK] → ¬ wildcardedIn emptyBarModel p).
  { intros p Hp Hw. apply list_elem_of_singleton in Hp as ->. discriminate Hw. }
  destruct (Hthrows Hnone) as [Hspecific Hrun].
  destruct (Hrun eq_refl) as [_ Hloop].
  split; [reflexivity |]. split; [reflexivity |]. split; [exact Hspecific |].
  exact (Hloop [throwingRule] [] eq_refl).
Defined.

(** A bar chart without encodings holds no wildcard: the rule
    [hasAllRequiredChannelsForMark] is evaluated, and violated. *)
Lemma concrete_query_never_skips_witness :
  Forall (λ p, scannedProperty (table := specPropertyTable) p = true)
    (properties requiredChannelsRule)
  ∧ hasWildcard (table := specPropertyTable) (specQuery emptyBarModel) None = false
  ∧ satisfyModel (table := specPropertyTable) requiredChannelsRule emptyBarModel tt ∅
    = ([SatisfyCalled "hasAllRequiredChannelsForMark";
        PredicateCalled "hasAllRequiredChannelsForMark"], Ok false).
Proof.
  assert (Hscanned : Forall (λ p, scannedProperty (table := specPropertyTable) p
                                  = true) (properties requiredChannelsRule)).
  { repeat constructor. }
  destruct (concrete_query_never_skips (table := specPropertyTable)
              requiredChannelsRule emptyBarModel tt ∅
              (proj1 (Forall_forall _ _) Hscanned) eq_refl) as [_ Hcalled].
  split; [exact Hscanned |]. split; [reflexivity | exact Hcalled].
Defined.

(** The violation reported for a bar chart without encodings is that of
    a strict rule of the catalogue that declares the mark and whose
    predicate answered [false]. *)
Lemma checkSpec_reports_real_violations_witness :
  (checkSpec (table := specPropertyTable) JSON.stringify (λ _, false) (λ _, false)
     demoShorthand (λ _ _ _ _, Ok true) Property.MARK [] emptyBarModel tt ∅).2
  = Ok (Some "(spec) hasAllRequiredChannelsForMark")
  ∧ ∃ c : SpecConstraint,
      c ∈ demoCatalogue
      ∧ name c = "hasAllRequiredChannelsForMark"
      ∧ declares "mark" c
      ∧ satisfy c emptyBarModel tt ∅ = Ok false.
Proof.
  assert (Hrun : (checkSpec (table := specPropertyTable) JSON.stringify (λ _, false)
                    (λ _, false) demoShorthand (λ _ _ _ _, Ok true) Property.MARK
                    [] emptyBarModel tt ∅).2
                 = Ok (Some "(spec) hasAllRequiredChannelsForMark"))
    by (vm_compute; reflexivity).
  destruct (checkSpec_reports_real_violations (table := specPropertyTable)
              JSON.stringify (λ _, false) (λ _, false) demoShorthand
              (λ _ _ _ _, Ok true) Property.MARK [] emptyBarModel tt ∅ _ Hrun)
    as (c & Hc & Hd & Hname & _ & _ & Hfalse & _).
  split; [exact Hrun |]. exists c. split; [exact Hc |].
  split; [by apply violation_name_inj in Hname |]. split; [exact Hd | exact Hfalse].
Defined.

(** The document of the first [fromSpec] test binds [x], [y] and
    [color] once each: its query satisfies [noRepeatedChannel]. *)
Lemma fromSpec_no_repeated_channel_witness :
  NoDup (ownKeys (field pointSpec "encoding"))
  ∧ Forall (λ channel,
      nodeInherited channel = false
      ∧ copies (table := specPropertyTable)
          (get (field pointSpec "encoding") channel) "channel" = false)
      (ownKeys (field pointSpec "encoding"))
  ∧ noRepeatedChannel (Schema := unit) nodeInherited
      (modelOf (fromSpec (table := specPropertyTable) pointSpec)) tt ∅
    = Ok true.
Proof.
  assert (Hnodup : NoDup (ownKeys (field pointSpec "encoding"))) by compute_done.
  assert (Hkeys : Forall (λ channel,
            nodeInherited channel = false
            ∧ copies (table := specPropertyTable)
                (get (field pointSpec "encoding") channel) "channel" = false)
            (ownKeys (field pointSpec "encoding"))).
  { repeat constructor. }
  split; [exact Hnodup |]. split; [exact Hkeys |].
  exact (fromSpec_no_repeated_channel (table := specPropertyTable) nodeInherited
           pointSpec (mkWildcardIndex false ∅) tt ∅ Hnodup
           (proj1 (Forall_forall _ _) Hkeys)).
Defined.

(** A bar chart that binds [x] twice is reported on the channel property
    before any other rule is looked at. *)
Lemma repeated_channel_always_reported_witness :
  getEncodings repeatedXModel !! 0
  = Some [("channel", VStr "x"); ("field", VStr "a"); ("type", VStr "quantitative")]
  ∧ getEncodings repeatedXModel !! 1
    = Some [("channel", VStr "x"); ("field", VStr "b"); ("type", VStr "nominal")]
  ∧ demoCheck Property.CHANNEL [] repeatedXModel tt ∅
    = ([SatisfyCalled "noRepeatedChannel"; PredicateCalled "noRepeatedChannel"],
       Ok (Some "(spec) noRepeatedChannel")).
Proof.
  assert (Hdistinct : 0 ≠ 1) by discriminate.
  split; [reflexivity |]. split; [reflexivity |].
  exact (repeated_channel_always_reported (table := specPropertyTable)
           JSON.stringify (λ _, false) (λ _, false) demoShorthand nodeInherited
           (λ _ _ _ _, Ok true) [] repeatedXModel tt ∅ 0 1 _ _ Hdistinct
           eq_refl eq_refl eq_refl eq_refl eq_refl).
Defined.

(** A single encoding of the field [constructor] is rejected as a
    repeated field, by the predicate and by [checkSpec] once the rule is
    enabled. *)
Lemma omitRepeatedField_spec_witness :
  fieldKeyAt (encodings (specQuery constructorFieldModel)) 0 = Some "constructor"
  ∧ nodeInherited "constructor" = true
  ∧ omitRepeatedField (Schema := unit) nodeInherited constructorFieldModel tt ∅
    = Ok false.
Proof.
  destruct (omitRepeatedField_spec (Schema := unit) nodeInherited
              constructorFieldModel tt ∅) as (_ & _ & Hinherited).
  split; [reflexivity |]. split; [reflexivity |].
  exact (Hinherited 0 "constructor" eq_refl eq_refl).
Defined.

(** A bar chart whose quantitative [x] excludes zero is reported on
    [scale.zero]. *)
Lemma zero_scale_check_witness :
  Forall (λ n, isEncodingTopLevelProperty (PropertyTable := specPropertyTable) n = true)
    ["scale"; "channel"; "type"]
  ∧ (demoCheck (getEncodingNestedProp "scale" "zero") [] zeroFalseBarModel tt ∅).2
    = Ok (Some "(spec) alwaysIncludeZeroInScaleWithBarMark").
Proof.
  assert (Htable : Forall (λ n, isEncodingTopLevelProperty
                                  (PropertyTable := specPropertyTable) n = true)
                     ["scale"; "channel"; "type"]).
  { repeat constructor. }
  destruct (zero_scale_check (table := specPropertyTable) JSON.stringify
              (λ _, false) (λ _, false) demoShorthand nodeInherited
              (λ _ _ _ _, Ok true) [] zeroFalseBarModel tt ∅
              (proj1 (Forall_forall _ _) Htable)) as [Hiff _].
  split; [exact Htable |]. apply Hiff. split; [reflexivity |]. split.
  - eexists. split; [apply list_elem_of_here | reflexivity].
  - intros p Hp Hw. apply list_elem_of_In in Hp. cbn in Hp.
    destruct Hp as [<- | [<- | [<- | [<- | []]]]]; cbn in Hw;
      destruct Hw as (encQ & Hin & Hw);
      apply list_elem_of_In in Hin; vm_compute in Hin;
      destruct Hin as [<- | []].
    + discriminate Hw.
    + destruct Hw as [_ Hw]. discriminate Hw.
    + discriminate Hw.
    + discriminate Hw.
Defined.

(** An enabled auto-count next to a field whose type is still a
    wildcard: the predicate throws, and so does [checkSpec] on the
    auto-count property when the rule is enabled. *)
Lemma autoAddCount_unsupported_type_witness :
  autoAddCount (Schema := unit) wildcardTypeCountModel tt countEnabled
  = Throw "Unsupported Type"
  ∧ demoCheck Property.AUTOCOUNT [] wildcardTypeCountModel tt countEnabled
    = ([SatisfyCalled "autoAddCount"; PredicateCalled "autoAddCount"],
       Throw "Unsupported Type").
Proof.
  destruct (autoAddCount_unsupported_type (table := specPropertyTable)
              JSON.stringify (λ _, false) (λ _, false) demoShorthand nodeInherited
              (λ _ _ _ _, Ok true) [] wildcardTypeCountModel tt countEnabled)
    as (_ & Hcheck & _).
  split; [reflexivity |]. exact (Hcheck "Unsupported Type" eq_refl eq_refl).
Defined.

(** With [omitAggregate] and [omitRaw] both enabled, the query whose
    aggregate is still a wildcard gets through on the aggregate
    property. *)
Lemma omitAggregate_against_omitRaw_witness :
  truthy (optGet aggregateAndRawOmitted "omitAggregate") = true
  ∧ truthy (optGet aggregateAndRawOmitted "omitRaw") = true
  ∧ (demoCheck Property.AGGREGATE [] wildcardAggregateModel tt
       aggregateAndRawOmitted).2 = Ok None
  ∧ (wildcardedIn wildcardAggregateModel Property.AGGREGATE
     ∨ wildcardedIn wildcardAggregateModel Property.AUTOCOUNT).
Proof.
  assert (Haggregate : truthy (optGet aggregateAndRawOmitted "omitAggregate") = true)
    by (vm_compute; reflexivity).
  assert (Hraw : truthy (optGet aggregateAndRawOmitted "omitRaw") = true)
    by (vm_compute; reflexivity).
  assert (Hnull : (demoCheck Property.AGGREGATE [] wildcardAggregateModel tt
                     aggregateAndRawOmitted).2 = Ok None)
    by (vm_compute; reflexivity).
  destruct (omitAggregate_against_omitRaw (table := specPropertyTable)
              JSON.stringify (λ _, false) (λ _, false) demoShorthand nodeInherited
              (λ _ _ _ _, Ok true) wildcardAggregateModel tt aggregateAndRawOmitted)
    as (_ & _ & _ & Hcheck).
  split; [exact Haggregate |]. split; [exact Hraw |]. split; [exact Hnull |].
  apply (Hcheck Property.AGGREGATE []); [by left | exact Haggregate | exact Hraw
                                         | exact Hnull].
Defined.

(** A wildcard found while [field] is excluded is found without
    exclusion. *)
Lemma hasWildcard_exclusion_antitone_witness :
  hasWildcard (table := specPropertyTable) channelWildcardQuery
    (Some [Property.FIELD]) = true
  ∧ hasWildcard (table := specPropertyTable) channelWildcardQuery None = true.
Proof.
  assert (Hfound : hasWildcard (table := specPropertyTable) channelWildcardQuery
                     (Some [Property.FIELD]) = true) by (vm_compute; reflexivity).
  destruct (hasWildcard_exclusion_antitone (table := specPropertyTable)
              channelWildcardQuery) as (_ & _ & Hnone).
  split; [exact Hfound |]. exact (Hnone _ Hfound).
Defined.

(** A document whose [x] channel has the field ['?'] yields a query in
    which [hasWildcard] finds a wildcard. *)
Lemma fromSpec_preserves_wildcards_witness :
  "x" ∈ ownKeys (field wildcardFieldSpec "encoding")
  ∧ copies (table := specPropertyTable)
      (get (field wildcardFieldSpec "encoding") "x") "field" = true
  ∧ hasWildcard (table := specPropertyTable)
      (fromSpec (table := specPropertyTable) wildcardFieldSpec) None = true.
Proof.
  assert (Hx : "x" ∈ ownKeys (field wildcardFieldSpec "encoding"))
    by apply list_elem_of_here.
  assert (Hcopies : copies (table := specPropertyTable)
                      (get (field wildcardFieldSpec "encoding") "x") "field" = true)
    by (vm_compute; reflexivity).
  split; [exact Hx |]. split; [exact Hcopies |].
  apply (proj2 (fromSpec_preserves_wildcards (table := specPropertyTable)
                  wildcardFieldSpec)).
  right. exists "x". split; [exact Hx |]. left. exists "field".
  split; [exact Hcopies |]. left. reflexivity.
Defined.

(** On a text chart with a [text] channel every rule of the entry of the
    mark is passed: the result is [null]. *)
Lemma checkSpec_null_iff_witness :
  (checkSpecWith (table := specPropertyTable) demoShorthand demoIndex Property.MARK []
     (textModel [[("channel", VStr "text"); ("field", VStr "a")]]) tt ∅).2 = Ok None
  ∧ passes (table := specPropertyTable) requiredChannelsRule
      (textModel [[("channel", VStr "text"); ("field", VStr "a")]]) tt ∅.
Proof.
  assert (Hnull : (checkSpecWith (table := specPropertyTable) demoShorthand demoIndex
                     Property.MARK []
                     (textModel [[("channel", VStr "text"); ("field", VStr "a")]])
                     tt ∅).2 = Ok None) by (vm_compute; reflexivity).
  destruct (checkSpec_null_iff (table := specPropertyTable) demoShorthand demoIndex
              Property.MARK []
              (textModel [[("channel", VStr "text"); ("field", VStr "a")]]) tt ∅)
    as [Hiff _].
  split; [exact Hnull |]. apply (proj1 Hiff Hnull).
  apply (list_elem_of_lookup_2 _ 2). reflexivity.
Defined.

(** A rule whose predicate throws, reached after a rule that is passed,
    makes the loop throw: the calls are those of the two rules, and nothing
    is logged although [verbose] is set. *)
Lemma checkSpec_throws_iff_witness :
  lookupIndex (buildIndex [transformRule true; throwingRule]) Property.MARK
  = [transformRule true] ++ throwingRule :: []
  ∧ (checkSpecWith (table := specPropertyTable) demoShorthand
       (buildIndex [transformRule true; throwingRule]) Property.MARK []
       emptyBarModel tt verboseOptions).2
    = Throw "boom"
  ∧ (checkSpecWith (table := specPropertyTable) demoShorthand
       (buildIndex [transformRule true; throwingRule]) Property.MARK []
       emptyBarModel tt verboseOptions).1
    = [ SatisfyCalled "usesTransform"; PredicateCalled "usesTransform";
        SatisfyCalled "throws"; PredicateCalled "throws" ].
Proof.
  assert (Hentry : lookupIndex (buildIndex [transformRule true; throwingRule])
                     Property.MARK
                   = [transformRule true] ++ throwingRule :: [])
    by (vm_compute; reflexivity).
  assert (Hpre : ∀ c', c' ∈ [transformRule true] →
                       passes (table := specPropertyTable) c' emptyBarModel tt
                         verboseOptions).
  { intros c' Hc' _. apply list_elem_of_singleton in Hc' as ->. reflexivity. }
  destruct (checkSpec_throws_iff (table := specPropertyTable) demoShorthand
              (buildIndex [transformRule true; throwingRule]) Property.MARK []
              emptyBarModel tt verboseOptions "boom") as [Hiff Hat].
  split; [exact Hentry |]. split.
  - apply (proj2 Hiff). exists [transformRule true], throwingRule, [].
    split; [exact Hentry |]. split; [exact Hpre |]. split; reflexivity.
  - destruct (Hat [transformRule true] throwingRule [] Hentry Hpre eq_refl eq_refl)
      as (Hrun & _). rewrite Hrun. reflexivity.
Defined.

(** With [verbose] set, the violation of a bar chart without encodings
    is logged as the last event of the run. *)
Lemma verbose_log_iff_violation_witness :
  truthy (optGet verboseOptions "verbose") = true
  ∧ (checkConstraints (table := specPropertyTable) demoShorthand
       [requiredChannelsRule] [("name", VStr "m")] emptyBarModel tt verboseOptions).2
    = Ok (Some "(spec) hasAllRequiredChannelsForMark")
  ∧ ∃ t : list event,
      (checkConstraints (table := specPropertyTable) demoShorthand
         [requiredChannelsRule] [("name", VStr "m")] emptyBarModel tt
         verboseOptions).1
      = t ++ [Logged "(spec) hasAllRequiredChannelsForMark failed with  for m"].
Proof.
  assert (Hverbose : truthy (optGet verboseOptions "verbose") = true)
    by (vm_compute; reflexivity).
  assert (Hreport : (checkConstraints (table := specPropertyTable) demoShorthand
                       [requiredChannelsRule] [("name", VStr "m")] emptyBarModel tt
                       verboseOptions).2
                    = Ok (Some "(spec) hasAllRequiredChannelsForMark"))
    by (vm_compute; reflexivity).
  destruct (verbose_log_iff_violation (table := specPropertyTable) demoShorthand
              [requiredChannelsRule] [("name", VStr "m")] emptyBarModel tt
              verboseOptions) as [Hlog _].
  destruct (Hlog _ Hreport Hverbose) as (t & Ht & _).
  split; [exact Hverbose |]. split; [exact Hreport |]. exists t. exact Ht.
Defined.

(** The index of the catalogue has an entry for the mark and none for
    [transform]. *)
Lemma buildIndex_entries_witness :
  requiredChannelsRule ∈ demoCatalogue
  ∧ declares "mark" requiredChannelsRule
  ∧ is_Some (buildIndex demoCatalogue !! "mark")
  ∧ buildIndex demoCatalogue !! "transform" = None.
Proof.
  assert (Hrule : requiredChannelsRule ∈ demoCatalogue).
  { apply (list_elem_of_lookup_2 _ 4). reflexivity. }
  assert (Hdeclares : declares "mark" requiredChannelsRule).
  { apply list_elem_of_further, list_elem_of_here. }
  assert (Hnone : ∀ c, c ∈ demoCatalogue → ¬ declares "transform" c).
  { apply Forall_forall. compute_done. }
  split; [exact Hrule |]. split; [exact Hdeclares |]. split.
  - apply (proj1 (buildIndex_entries demoCatalogue "mark")). eauto.
  - by apply (proj1 (proj2 (buildIndex_entries demoCatalogue "transform"))).
Defined.

(** While the mark is a wildcard object both predicates throw: the first
    names the mark by its JSON text, the second by its string
    conversion. *)
Lemma mark_switches_agree_witness :
  containsValue KNOWN_MARKS (getMark wildcardObjectMarkModel) = false
  ∧ JSON.stringify (getMark wildcardObjectMarkModel)
    = doubleQuoted "{'name':'m','enum':['bar','point']}"
  ∧ hasAllRequiredChannelsForMark (Schema := unit) JSON.stringify
      wildcardObjectMarkModel tt ∅
    = Throw ("hasAllRequiredChannelsForMark not implemented for mark"
             +:+ doubleQuoted "{'name':'m','enum':['bar','point']}")
  ∧ hasAppropriateGraphicTypeForMark (Schema := unit) (λ _, false) (λ _, false)
      wildcardObjectMarkModel tt ∅
    = Throw "hasAllRequiredChannelsForMark not implemented for mark[object Object]".
Proof.
  destruct (mark_switches_agree (Schema := unit) JSON.stringify (λ _, false)
              (λ _, false) wildcardObjectMarkModel tt ∅) as [_ Hunknown].
  destruct (Hunknown eq_refl) as [Hrequired Hgraphic].
  split; [reflexivity |]. split; [reflexivity |].
  split; [exact Hrequired | exact Hgraphic].
Defined.

(** The bar chart that binds [x] twice is rejected: its channel keys are
    not distinct. *)
Lemma noRepeatedChannel_distinct_channels_witness :
  channelKeys repeatedXModel = ["x"; "x"]
  ∧ noRepeatedChannel (Schema := unit) nodeInherited repeatedXModel tt ∅ = Ok false.
Proof.
  assert (Hkeys : channelKeys repeatedXModel = ["x"; "x"]) by reflexivity.
  split; [exact Hkeys |].
  apply (proj2 (noRepeatedChannel_distinct_channels (Schema := unit) nodeInherited
                  repeatedXModel tt ∅)).
  intros [Hnodup _]. rewrite Hkeys in Hnodup.
  apply NoDup_cons in Hnodup as [Hfresh _]. apply Hfresh, list_elem_of_here.
Defined.

(** An enumerated [size] on a bar chart: both the cheap rule and the
    expensive one reject it. *)
Lemma size_on_bar_or_tick_witness :
  omitBarTickWithSize (Schema := unit) sizedBarModel tt ∅ = Ok false
  ∧ hasAppropriateGraphicTypeForMark (Schema := unit) (λ _, false) (λ _, false)
      sizedBarModel tt graphicTypeEnabled = Ok false.
Proof.
  assert (Hsize : omitBarTickWithSize (Schema := unit) sizedBarModel tt ∅ = Ok false)
    by (vm_compute; reflexivity).
  destruct (size_on_bar_or_tick (Schema := unit) (λ _, false) (λ _, false)
              sizedBarModel tt ∅) as (_ & _ & Hgraphic).
  split; [exact Hsize |]. exact (Hgraphic Hsize tt graphicTypeEnabled).
Defined.

(** An enumerated [color] without [x] and [y] is rejected. *)
Lemma off_axis_needs_both_axes_witness :
  encodings (specQuery colorOnlyModel) !! 0
  = Some [("channel", VStr "color"); ("field", VStr "a"); ("type", VStr "nominal")]
  ∧ hasEncodingProperty (wildcardIndex colorOnlyModel) 0 Property.CHANNEL = true
  ∧ omitNonPositionalOrFacetOverPositionalChannels (Schema := unit) colorOnlyModel
      tt ∅ = Ok false.
Proof.
  assert (Henum : hasEncodingProperty (wildcardIndex colorOnlyModel) 0
                    Property.CHANNEL = true) by (vm_compute; reflexivity).
  split; [reflexivity |]. split; [exact Henum |].
  apply (proj2 (proj1 (off_axis_needs_both_axes (Schema := unit) colorOnlyModel
                         tt ∅))).
  split.
  - eexists 0, _. split; [reflexivity |]. split; [reflexivity | by left].
  - intros [(encQ & Hin & _ & Hx) _]. apply list_elem_of_singleton in Hin as ->.
    discriminate Hx.
Defined.

(** An enumerated [detail] on a raw plot is rejected. *)
Lemma raw_detail_rejected_witness :
  modelIsAggregate detailOnlyModel = false
  ∧ hasEncodingProperty (wildcardIndex detailOnlyModel) 0 Property.CHANNEL = true
  ∧ omitRawDetail (Schema := unit) detailOnlyModel tt ∅ = Ok false.
Proof.
  assert (Henum : hasEncodingProperty (wildcardIndex detailOnlyModel) 0
                    Property.CHANNEL = true) by (vm_compute; reflexivity).
  split; [reflexivity |]. split; [exact Henum |].
  apply (proj2 (proj1 (raw_detail_rejected (Schema := unit) detailOnlyModel tt ∅))).
  split; [reflexivity |].
  eexists 0, _. split; [reflexivity |]. split; [reflexivity |].
  split; [reflexivity | by left].
Defined.
